(** * pyrsa: RDM vector/matrix conversion and the searchlight pipeline

    A shallow embedding of [pyrsa/util/rdm_utils.py] and
    [pyrsa/util/searchlight.py], and the properties of the conversion
    utilities, the neighbourhood finder, the searchlight enumerator, the
    searchlight RDM builder and the parallel model evaluator.

    Conventions of the embedding.
    - Array shapes and positions are [nat]; voxel coordinates, flat voxel
      indices and mask entries are [Z] (differences of coordinates are
      signed, and Python indices may be negative).
    - A Python exception is a value [Raise e] of the error monad [result].
    - The searchlight radius is an integer number of voxels, as documented
      ([radius (int, optional)]); the fill threshold is a rational.
    - Dissimilarities are elements of an abstract type: the conversions only
      copy them.
    - Array widths are unbounded and the integer arithmetic on them is
      exact; where numpy computes in binary64 the same expression is also
      given on the standard library's specification of IEEE 754 arithmetic,
      with the range on which the two agree. *)

From Stdlib Require Import List ZArith Arith Lia Lra Bool QArith Reals Sorted.
From Stdlib Require Import SpecFloat.
Import ListNotations.

Set Implicit Arguments.
Close Scope R_scope.
Close Scope Q_scope.
Open Scope nat_scope.

(** ** Exceptions *)

Inductive error : Type :=
| ValueError
| IndexError
| AssertionError
| UnboundLocalError
| OverflowError.

Inductive result (A : Type) : Type :=
| Ok (a : A)
| Raise (e : error).

Arguments Ok {A} a.
Arguments Raise {A} e.

Definition bind {A B : Type} (c : result A) (k : A -> result B) : result B :=
  match c with
  | Ok a => k a
  | Raise e => Raise e
  end.

Declare Scope result_scope.
Delimit Scope result_scope with result.
Notation "x <- c ;; k" := (bind c (fun x => k))
  (at level 61, c at next level, right associativity) : result_scope.
Open Scope result_scope.

(** A Python [for] loop that builds one value per element and stops at the
    first exception. *)
Fixpoint mapM {A B : Type} (f : A -> result B) (l : list A) : result (list B) :=
  match l with
  | [] => Ok []
  | a :: l' => b <- f a ;; bs <- mapM f l' ;; Ok (b :: bs)
  end.

(** numpy broadcasting of an assigned value along one axis of length [n]: an
    axis of the right length is taken as it is, an axis of length 1 is
    repeated, anything else is a [ValueError]. *)
Definition broadcast_axis {T : Type} (n : nat) (l : list T) : result (list T) :=
  if length l =? n then Ok l
  else match l with
       | [a] => Ok (repeat a n)
       | _ => Raise ValueError
       end.

(** Broadcasting of a 2-D value into a target of shape [(n, w)]. *)
Definition broadcast_2d {T : Type} (n w : nat) (M : list (list T))
  : result (list (list T)) :=
  rows <- mapM (broadcast_axis w) M ;;
  broadcast_axis n rows.

(** ** binary64 arithmetic

    numpy evaluates [np.sqrt] and [np.linspace] in IEEE 754 binary64: the
    operations of the standard library's specification of binary
    floating-point arithmetic at precision 53 and maximal exponent 1024. *)

Module Float64.

Definition prec : Z := 53%Z.
Definition emax : Z := 1024%Z.

(** The conversion of an integer, rounded to nearest. *)
Definition of_int (n : Z) : spec_float :=
  binary_normalize prec emax n 0%Z false.

Definition sqrt (x : spec_float) : spec_float := SFsqrt prec emax x.

Definition add (x y : spec_float) : spec_float := SFadd prec emax x y.

Definition sub (x y : spec_float) : spec_float := SFsub prec emax x y.

Definition mul (x y : spec_float) : spec_float := SFmul prec emax x y.

Definition div (x y : spec_float) : spec_float := SFdiv prec emax x y.

(** [x == 0] *)
Definition is_zero (x : spec_float) : bool :=
  match x with
  | S754_zero _ => true
  | _ => false
  end.

(** [int(np.ceil(x))]: the least integer that is not below [x]; [int]
    raises on an infinity and on [nan]. *)
Definition ceil_int (x : spec_float) : result Z :=
  match x with
  | S754_zero _ => Ok 0%Z
  | S754_finite s m e =>
      let v := cond_Zopp s (Zpos m) in
      Ok (if (0 <=? e)%Z then (v * 2 ^ e)%Z else (- (- v / 2 ^ (- e)))%Z)
  | S754_infinity _ => Raise OverflowError
  | S754_nan => Raise ValueError
  end.

(** The integer part of [m * 2^e]. *)
Definition scaled_floor (m e : Z) : Z :=
  if (0 <=? e)%Z then (m * 2 ^ e)%Z else (m / 2 ^ (- e))%Z.

(** [x.astype(int)] for [x >= 0]: the integer part. The cast of an infinity
    or of [nan] raises nothing; on x86-64 it gives [-2^63]. *)
Definition floor_int (x : spec_float) : Z :=
  match x with
  | S754_zero _ => 0%Z
  | S754_finite s m e => scaled_floor (cond_Zopp s (Zpos m)) e
  | _ => (- 2 ^ 63)%Z
  end.

(** The integer nearest to [N / D], and the even one of the two when [N / D]
    is half-way between two integers: the rounding of binary64, on a
    mantissa [N] that loses its last [log2 D] bits. *)
Definition round_half_even (N D : Z) : Z :=
  let q := (N / D)%Z in
  match (2 * (N mod D) ?= D)%Z with
  | Lt => q
  | Eq => if Z.even q then q else (q + 1)%Z
  | Gt => (q + 1)%Z
  end.

(** The number with 53 significant bits nearest to an integer [X] of 53
    bits or more. *)
Definition round53 (X : Z) : Z :=
  let u := (Zdigits2 X - 53)%Z in
  (round_half_even X (2 ^ u) * 2 ^ u)%Z.

End Float64.

(** ** rdm_utils.py *)

Module RdmUtils.

(** [int(np.ceil(np.sqrt(m)))] for a non-negative integer [m], with the
    square root taken exactly: the least integer whose square is not below
    [m]. *)
Definition ceil_sqrt (m : nat) : nat :=
  let s := Nat.sqrt m in
  if s * s =? m then s else S s.

(** [get_n_from_reduced_vectors(x)], as a function of [x.shape[1]], in
    exact arithmetic. *)
Definition get_n_from_reduced_vectors (x_shape1 : nat) : nat :=
  ceil_sqrt (x_shape1 * 2).

(** [get_n_from_reduced_vectors(x)] as numpy evaluates it, with the square
    root in binary64; the width and the result are in [Z]. The two
    definitions agree on the widths up to [2^51]
    ([get_n_float64_exact] below), and differ above. *)
Definition get_n_from_reduced_vectors_float64 (x_shape1 : Z) : result Z :=
  Float64.ceil_int (Float64.sqrt (Float64.of_int (x_shape1 * 2))).

Section Stack.

Variable A : Type.
Variable zero : A.

(** A numpy array of dissimilarities, by rank.  [Arr2 w rows] has shape
    [(length rows, w)]; [Arr3 d1 d2 mats] has shape [(length mats, d1, d2)].
    The widths are kept beside the rows since a stack may hold no RDM. *)
Inductive ndarray : Type :=
| Arr1 (v : list A)
| Arr2 (width : nat) (rows : list (list A))
| Arr3 (d1 d2 : nat) (mats : list (list (list A))).

Definition wf_ndarray (x : ndarray) : Prop :=
  match x with
  | Arr1 _ => True
  | Arr2 w rows => Forall (fun r => length r = w) rows
  | Arr3 d1 d2 mats =>
      Forall (fun m => length m = d1 /\ Forall (fun r => length r = d2) m) mats
  end.

(** scipy's [to_vector_from_squareform]: row [i] contributes its entries
    right of the diagonal, rows in order. *)
Definition to_vector_from_squareform (n : nat) (M : list (list A)) : list A :=
  flat_map (fun i => skipn (S i) (nth i M [])) (seq 0 n).

(** scipy's [to_squareform_from_vector] reads the condensed vector with a
    running pointer: the row that has [k'] entries right of the diagonal takes
    the next [k'] values. [upper_rows n v] is the list of those runs. *)
Fixpoint upper_rows (k : nat) (v : list A) : list (list A) :=
  match k with
  | 0 => []
  | S k' => firstn k' v :: upper_rows k' (skipn k' v)
  end.


(** Each value is written at [(i, j)] and at [(j, i)]; the matrix starts as
    zeros, so the diagonal stays zero. *)
Definition to_squareform_from_vector (d : nat) (v : list A) : list (list A) :=
  let U := upper_rows d v in
  map (fun i =>
         map (fun j =>
                if i <? j then nth (j - i - 1) (nth i U []) zero
                else if j <? i then nth (i - j - 1) (nth j U []) zero
                else zero)
             (seq 0 d))
      (seq 0 d).

(** [squareform(v)] on a 1-D argument, with its default checks. *)
Definition squareform_vector (v : list A) : result (list (list A)) :=
  let s0 := length v in
  if s0 =? 0 then Ok [[zero]]
  else
    let d := ceil_sqrt (s0 * 2) in
    if negb (d * (d - 1) =? s0 * 2) then Raise ValueError
    else Ok (to_squareform_from_vector d v).

(** [squareform(M, checks=False)] on a 2-D argument of shape [(s0, s1)]. *)
Definition squareform_matrix (s0 s1 : nat) (M : list (list A)) : result (list A) :=
  if negb (s0 =? s1) then Raise ValueError
  else
    let d := s0 in
    if d <=? 1 then Ok []
    else Ok (to_vector_from_squareform d M).

Definition batch_to_vectors (x : ndarray) : result (ndarray * nat * nat) :=
  match x with
  | Arr2 w rows =>
      let v := Arr2 w rows in
      let n_rdm := length rows in
      let n_cond := get_n_from_reduced_vectors w in
      Ok (v, n_rdm, n_cond)
  | Arr3 d1 d2 mats =>
      let n_rdm := length mats in
      let n_cond := d1 in
      let w := n_cond * (n_cond - 1) / 2 in
      v <- mapM (fun m => r <- squareform_matrix d1 d2 m ;; broadcast_axis w r)
                mats ;;
      Ok (Arr2 w v, n_rdm, n_cond)
  | Arr1 _ => Raise UnboundLocalError
  end.

Definition batch_to_matrices (x : ndarray) : result (ndarray * nat * nat) :=
  match x with
  | Arr2 w rows =>
      let n_rdm := length rows in
      let n_cond := get_n_from_reduced_vectors w in
      m <- mapM (fun v => M <- squareform_vector v ;; broadcast_2d n_cond n_cond M)
                rows ;;
      Ok (Arr3 n_cond n_cond m, n_rdm, n_cond)
  | Arr3 d1 d2 mats =>
      let m := Arr3 d1 d2 mats in
      let n_rdm := length mats in
      let n_cond := d1 in
      Ok (m, n_rdm, n_cond)
  | Arr1 _ => Raise UnboundLocalError
  end.


(** [x.shape[1]] *)
Definition shape1 (x : ndarray) : result nat :=
  match x with
  | Arr1 _ => Raise IndexError
  | Arr2 w _ => Ok w
  | Arr3 d1 _ _ => Ok d1
  end.

(** [check_equal_dimension(rdm1, rdm2)], on the arrays that
    [rdm1.get_vectors()] and [rdm2.get_vectors()] return. *)
Definition check_equal_dimension (vector1 vector2 : ndarray) : result unit :=
  s1 <- shape1 vector1 ;;
  s2 <- shape1 vector2 ;;
  if negb (s1 =? s2) then Raise ValueError else Ok tt.

(** A stack of RDMs in matrix form: square, symmetric, zero diagonal. *)
Definition symmetric_zero_diagonal (n : nat) (M : list (list A)) : Prop :=
  length M = n /\
  Forall (fun r => length r = n) M /\
  (forall i j, i < n -> j < n ->
     nth j (nth i M []) zero = nth i (nth j M []) zero) /\
  (forall i, i < n -> nth i (nth i M []) zero = zero).

End Stack.

(** What the specification writes for the inferred number of conditions:
    [round(sqrt(m))], the integer nearest to the square root. *)
Definition round_sqrt (m : nat) : nat :=
  let s := Nat.sqrt m in
  if m <=? s * s + s then s else S s.

Definition triangular (L : nat) : Prop := exists n, L = n * (n - 1) / 2.

End RdmUtils.

(** ** searchlight.py *)

Module Searchlight.

(** A voxel coordinate [(x, y, z)]. *)
Definition coord : Type := (Z * Z * Z)%type.

(** A coordinate set in numpy's form for fancy indexing: three parallel
    lists, one per axis. *)
Definition index_arrays : Type := (list Z * list Z * list Z)%type.

(** A 3-D numpy array of integers: its shape and its buffer in C order. The
    assertion [mask.ndim == 3] of [get_volume_searchlight] holds for every
    value of this type. *)
Record Mask : Type := {
  shape : nat * nat * nat;
  voxels : list Z
}.

Definition wf_mask (mask : Mask) : Prop :=
  let '(nx, ny, nz) := shape mask in
  length (voxels mask) = nx * ny * nz.

(** [np.arange(n)] *)
Definition arange (n : nat) : list Z := map Z.of_nat (seq 0 n).

(** Normalisation of a Python index on an axis of length [n]. *)
Definition py_index (n : nat) (i : Z) : result nat :=
  if ((0 <=? i) && (i <? Z.of_nat n))%Z then Ok (Z.to_nat i)
  else if ((- Z.of_nat n <=? i) && (i <? 0))%Z then Ok (Z.to_nat (i + Z.of_nat n))
  else Raise IndexError.

(** [l[i]] for a Python list or 1-D array and a position [i] of a [range]. *)
Definition getitem {T : Type} (l : list T) (i : nat) : result T :=
  match nth_error l i with
  | Some a => Ok a
  | None => Raise IndexError
  end.

(** [mask[x, y, z]] *)
Definition mask_getitem (mask : Mask) (c : coord) : result Z :=
  let '(nx, ny, nz) := shape mask in
  let '(x, y, z) := c in
  i <- py_index nx x ;;
  j <- py_index ny y ;;
  k <- py_index nz z ;;
  Ok (nth ((i * ny + j) * nz + k) (voxels mask) 0%Z).

(** The rows of [np.vstack((X, Y, Z)).T] and back. *)
Definition zip3 (n : index_arrays) : list coord :=
  let '(xs, ys, zs) := n in combine (combine xs ys) zs.

Definition transpose3 (l : list coord) : index_arrays :=
  (map (fun c => fst (fst c)) l, map (fun c => snd (fst c)) l, map snd l).

(** [mask[neighbors]] for a tuple of three index lists. *)
Definition mask_fancy (mask : Mask) (n : index_arrays) : result (list Z) :=
  mapM (mask_getitem mask) (zip3 n).

(** All coordinates of a grid in C order, and the coordinate triples zipped
    from [np.nonzero(mask)]. *)
Definition grid (shp : nat * nat * nat) : list coord :=
  let '(nx, ny, nz) := shp in
  flat_map (fun x => flat_map (fun y => map (fun z => (x, y, z)) (arange nz))
                              (arange ny))
           (arange nx).

Definition flat_index (shp : nat * nat * nat) (c : coord) : Z :=
  let '(nx, ny, nz) := shp in
  let '(x, y, z) := c in
  ((x * Z.of_nat ny + y) * Z.of_nat nz + z)%Z.

(** The entry of the buffer at a coordinate inside the grid. *)
Definition mask_at (mask : Mask) (c : coord) : Z :=
  nth (Z.to_nat (flat_index (shape mask) c)) (voxels mask) 0%Z.

Definition nonzero (mask : Mask) : list coord :=
  filter (fun c => negb (mask_at mask c =? 0)%Z) (grid (shape mask)).

(** The points of [np.meshgrid(x, y, z)] (default ['xy'] indexing) after
    [ravel] and [vstack]: [y] varies slowest, then [x], then [z]. *)
Definition meshgrid_points (x y z : list Z) : list coord :=
  flat_map (fun b => flat_map (fun a => map (fun c => (a, b, c)) z) x) y.

Definition sqdist (p c : coord) : Z :=
  let '(px, py, pz) := p in
  let '(cx, cy, cz) := c in
  ((px - cx) * (px - cx) + (py - cy) * (py - cy) + (pz - cz) * (pz - cz))%Z.

(** [cdist(p, center, 'euclidean') < radius]. The distance is the square root
    of the integer [sqdist p c], and a real [s >= 0] lies below the integer
    [radius] exactly when its integer part does ([distance_lt_real] below
    relates this test to the real square root). *)
Definition distance_lt (p c : coord) (radius : Z) : bool :=
  (Z.sqrt (sqdist p c) <? radius)%Z.

Definition _get_searchlight_neighbors (mask : Mask) (center : coord)
  (radius : Z) : index_arrays :=
  let '(c_x, c_y, c_z) := center in
  let '(s0, s1, s2) := shape mask in
  let x := arange s0 in
  let y := arange s1 in
  let z := arange s2 in
  let x := filter (fun a => Z.abs (a - c_x) <? radius)%Z x in
  let y := filter (fun a => Z.abs (a - c_y) <? radius)%Z y in
  let z := filter (fun a => Z.abs (a - c_z) <? radius)%Z z in
  let data := meshgrid_points x y z in
  transpose3 (filter (fun p => distance_lt p center radius) data).

Definition sum (vals : list Z) : Z := fold_right Z.add 0%Z vals.

(** [vals.mean() >= threshold]; the mean of an empty selection is [nan], and
    every comparison with [nan] is false. *)
Definition mean_ge (vals : list Z) (threshold : Q) : bool :=
  match vals with
  | [] => false
  | _ => Qle_bool threshold
           (inject_Z (sum vals) / inject_Z (Z.of_nat (length vals)))
  end.

(** A [for] loop over [l] that updates a state and stops at an exception. *)
Fixpoint for_loop {S T : Type} (body : S -> T -> result S) (l : list T) (st : S)
  : result S :=
  match l with
  | [] => Ok st
  | a :: l' => st' <- body st a ;; for_loop body l' st'
  end.

(** One iteration of the loop over the candidate centers. *)
Definition accept_center (mask : Mask) (radius : Z) (threshold : Q)
  (st : list coord * list index_arrays) (center : coord)
  : result (list coord * list index_arrays) :=
  let '(good_centers, good_neighbors) := st in
  let neighbors := _get_searchlight_neighbors mask center radius in
  vals <- mask_fancy mask neighbors ;;
  if mean_ge vals threshold
  then Ok (good_centers ++ [center], good_neighbors ++ [neighbors])
  else Ok (good_centers, good_neighbors).

(** The enumeration: the loop of [get_volume_searchlight] from the empty
    lists. *)
Definition find_searchlights (mask : Mask) (radius : Z) (threshold : Q)
  : result (list coord * list index_arrays) :=
  for_loop (accept_center mask radius threshold) (nonzero mask) ([], []).

(** [np.ravel_multi_index(multi_index, dims)] for three index lists, with
    its default mode ['raise']. *)
Definition ravel_one (shp : nat * nat * nat) (c : coord) : result Z :=
  let '(nx, ny, nz) := shp in
  let '(x, y, z) := c in
  if ((0 <=? x) && (x <? Z.of_nat nx) && (0 <=? y) && (y <? Z.of_nat ny)
      && (0 <=? z) && (z <? Z.of_nat nz))%Z
  then Ok (flat_index shp c)
  else Raise ValueError.

Definition ravel_multi_index (n : index_arrays) (shp : nat * nat * nat)
  : result (list Z) :=
  let '(xs, ys, zs) := n in
  if negb ((length xs =? length ys) && (length ys =? length zs))
  then Raise ValueError
  else mapM (ravel_one shp) (zip3 n).

(** [np.ravel_multi_index(good_centers.T, mask.shape)] where [good_centers]
    is [np.array] of a list of triples. The array of an empty list has shape
    [(0,)], its transpose is not a sequence of three index arrays, and
    [ravel_multi_index] raises [ValueError]. *)
Definition ravel_centers (good_centers : list coord) (shp : nat * nat * nat)
  : result (list Z) :=
  match good_centers with
  | [] => Raise ValueError
  | _ => ravel_multi_index (transpose3 good_centers) shp
  end.

Definition get_volume_searchlight (mask : Mask) (radius : Z) (threshold : Q)
  : result (list Z * list (list Z)) :=
  st <- find_searchlights mask radius threshold ;;
  let '(good_centers, good_neighbors) := st in
  if negb (length good_centers =? length good_neighbors)
  then Raise AssertionError
  else
    centers <- ravel_centers good_centers (shape mask) ;;
    neighbors <- mapM (fun n => ravel_multi_index n (shape mask))
                      good_neighbors ;;
    Ok (centers, neighbors).

(** The acceptance test of the loop on the entries of the neighbourhood. *)
Definition fills (mask : Mask) (radius : Z) (threshold : Q) (center : coord)
  : bool :=
  mean_ge (map (mask_at mask)
               (zip3 (_get_searchlight_neighbors mask center radius)))
          threshold.

(** A voxel is accepted when the enumerator returns and lists the voxel's
    flat index among the centers. *)
Definition accepted (mask : Mask) (radius : Z) (threshold : Q) (c : coord)
  : Prop :=
  exists centers neighbors,
    get_volume_searchlight mask radius threshold = Ok (centers, neighbors) /\
    In (flat_index (shape mask) c) centers.

(** The mask of ones of a given shape. *)
Definition ones (nx ny nz : nat) : Mask :=
  {| shape := (nx, ny, nz); voxels := repeat 1%Z (nx * ny * nz) |}.

(** The words of the specification, for a cube of side [s]: a centre is
    interior when it is at distance at least [r] from every face. *)
Definition interior (s : nat) (r : Z) (c : coord) : Prop :=
  let '(x, y, z) := c in
  (r <= x /\ x + r < Z.of_nat s /\ r <= y /\ y + r < Z.of_nat s /\
   r <= z /\ z + r < Z.of_nat s)%Z.

Definition in_bounds (shp : nat * nat * nat) (c : coord) : Prop :=
  let '(nx, ny, nz) := shp in
  let '(x, y, z) := c in
  (0 <= x < Z.of_nat nx /\ 0 <= y < Z.of_nat ny /\ 0 <= z < Z.of_nat nz)%Z.

(** The Euclidean distance between two voxels, as a real number. *)
Definition euclidean (p c : coord) : R := sqrt (IZR (sqdist p c)).

(** *** The searchlight RDM builder *)

(** [l[i] = v] on a list, for a position inside it. *)
Fixpoint list_set {T : Type} (l : list T) (i : nat) (v : T) : list T :=
  match l, i with
  | [], _ => []
  | _ :: l', 0 => v :: l'
  | a :: l', S i' => a :: list_set l' i' v
  end.

(** [np.split(ary, points)]: the slices [ary[0:p1]], [ary[p1:p2]], ... and
    [ary[pk:]]; a Python slice whose end is before its start is empty. *)
Fixpoint np_split_from {T : Type} (ary : list T) (st : nat) (points : list nat)
  : list (list T) :=
  match points with
  | [] => [skipn st ary]
  | p :: ps => firstn (p - st) (skipn st ary) :: np_split_from ary p ps
  end.

Definition np_split {T : Type} (ary : list T) (points : list nat)
  : list (list T) :=
  np_split_from ary 0 points.

(** [np.linspace(0, stop, num, dtype=int)] in exact arithmetic: the points
    [k * stop / (num - 1)] rounded down. numpy computes the points in
    binary64 ([linspace_int_float64] below), which can put a point one
    lower, as at [stop = 1004]; the rows of the chunked branch are the same
    at either list of points ([chunk_boundaries_irrelevant],
    [float64_points_preserve_rdms]). *)
Definition linspace_int (stop num : nat) : list nat :=
  map (fun k => k * stop / (num - 1)) (seq 0 num).

(** [np.linspace(0, stop, num, dtype=int)] as numpy evaluates it for
    [num >= 2], in binary64, statement by statement:
    [start = asanyarray(start) * 1.0], [stop = asanyarray(stop) * 1.0],
    [delta = stop - start], [y = arange(0, num)], [step = delta / div] with
    [div = num - 1], then [y = y * step], or [y = y / div * delta] when the
    step is zero, [y += start], [y[-1] = stop], and the cast to [int], which
    takes the integer parts of these non-negative numbers. *)
Definition linspace_int_float64 (stop : Z) (num : nat) : list Z :=
  let one := Float64.of_int 1 in
  let div := Float64.of_int (Z.of_nat (num - 1)) in
  let start := Float64.mul (Float64.of_int 0) one in
  let stop := Float64.mul (Float64.of_int stop) one in
  let delta := Float64.sub stop start in
  let y := map (fun k => Float64.of_int (Z.of_nat k)) (seq 0 num) in
  let step := Float64.div delta div in
  let y := if Float64.is_zero step
           then map (fun v => Float64.mul (Float64.div v div) delta) y
           else map (fun v => Float64.mul v step) y in
  let y := map (fun v => Float64.add v start) y in
  let y := removelast y ++ [stop] in
  map Float64.floor_int y.

(** [np.split(np.arange(n), np.linspace(0, n, 101, dtype=int)[1:-1])] *)
Definition chunked_center (n_centers : nat) : list (list nat) :=
  np_split (seq 0 n_centers) (removelast (tl (linspace_int n_centers 101))).

Section Builder.

(** Measurements and dissimilarities are floating-point numbers on which
    this module never computes: an abstract type with its zero. *)
Variable V : Type.
Variable zero : V.
Variable Method : Type.

(** The observation matrix, of shape [(length observations, n_channels)]. *)
Record Data2d : Type := {
  n_channels : nat;
  observations : list (list V)
}.

(** Modelled from the spec: the Dataset construction collaborator
    ([pyrsa.data.dataset.Dataset], not under src/),
    [make_dataset(channel_slice, descriptors, obs_descriptors,
    channel_descriptors) -> Dataset], as the record of its four arguments. *)
Record Dataset : Type := {
  measurements : list (list V);
  descriptors_center : Z;
  obs_descriptors_events : list Z;
  channel_descriptors_voxels : list Z
}.

(** The RDM collection: the condensed rows, the per-row descriptor and the
    name of the measure. *)
Record RDMs : Type := {
  dissimilarities : list (list V);
  rdm_descriptors_voxel_index : list Z;
  dissimilarity_measure : Method
}.

(** The dissimilarity measure itself: the condensed RDM of one channel
    slice grouped by the condition labels. *)
Variable rdm_row : Method -> list (list V) -> list Z -> list V.

(** Modelled from the spec: the RDM-computation collaborator
    ([pyrsa.rdm.calc.calc_rdm], not under src/),
    [compute_rdm(dataset_or_list, method, descriptor)], which computes one RDM
    per dataset, over that dataset's channel slice grouped by condition
    label; the result is the array of the condensed rows, in the order of the
    datasets. *)
Definition calc_rdm (datasets : list Dataset) (method : Method)
  : list (list V) :=
  map (fun d => rdm_row method (measurements d) (obs_descriptors_events d))
      datasets.

(** [data_2d[:, idx]] *)
Definition take_columns (data_2d : Data2d) (idx : list Z)
  : result (list (list V)) :=
  js <- mapM (py_index (n_channels data_2d)) idx ;;
  Ok (map (fun row => map (fun j => nth j row zero) js)
          (observations data_2d)).

(** The RDM of the center at position [i_c]: the measure on the channel
    slice of that center's neighbours, grouped by the condition labels. *)
Definition center_row (data_2d : Data2d) (neighbors : list (list Z))
  (events : list Z) (method : Method) (i_c : nat) : result (list V) :=
  voxels <- getitem neighbors i_c ;;
  cols <- take_columns data_2d voxels ;;
  Ok (rdm_row method cols events).

(** The body of the loop of the unchunked branch. *)
Definition dataset_unchunked (data_2d : Data2d) (centers : list Z)
  (neighbors : list (list Z)) (events : list Z) (i_c : nat) : result Dataset :=
  center <- getitem centers i_c ;;
  voxels <- getitem neighbors i_c ;;
  cols <- take_columns data_2d voxels ;;
  Ok {| measurements := cols;
        descriptors_center := Z.of_nat i_c;
        obs_descriptors_events := events;
        channel_descriptors_voxels := voxels |}.

(** The body of the inner loop of the chunked branch. *)
Definition dataset_chunked (data_2d : Data2d) (centers : list Z)
  (neighbors : list (list Z)) (events : list Z) (i_c : nat) : result Dataset :=
  center <- getitem centers i_c ;;
  center_neighbors <- getitem neighbors i_c ;;
  cols <- take_columns data_2d center_neighbors ;;
  Ok {| measurements := cols;
        descriptors_center := center;
        obs_descriptors_events := events;
        channel_descriptors_voxels := center_neighbors |}.

(** [len(np.unique(events))] *)
Definition n_unique (events : list Z) : nat := length (nodup Z.eq_dec events).

(** [rdm[chunk, :] = value] for an array [rdm] of width [w]. *)
Definition setitem_rows (rdm : list (list V)) (w : nat) (chunk : list nat)
  (value : list (list V)) : result (list (list V)) :=
  rows <- broadcast_2d (length chunk) w value ;;
  Ok (fold_left (fun acc ir => list_set acc (fst ir) (snd ir))
                (combine chunk rows) rdm).

(** The datasets handed to [calc_rdm] in either branch. *)
Definition center_data_unchunked (data_2d : Data2d) (centers : list Z)
  (neighbors : list (list Z)) (events : list Z) : result (list Dataset) :=
  mapM (dataset_unchunked data_2d centers neighbors events)
       (seq 0 (length centers)).

Definition center_data_chunked (data_2d : Data2d) (centers : list Z)
  (neighbors : list (list Z)) (events : list Z) (chunk : list nat)
  : result (list Dataset) :=
  mapM (dataset_chunked data_2d centers neighbors events) chunk.

(** The branch [n_centers > 1000]. *)
Definition rdm_chunked (data_2d : Data2d) (centers : list Z)
  (neighbors : list (list Z)) (events : list Z) (method : Method)
  : result (list (list V)) :=
  let n_centers := length centers in
  let n_conds := n_unique events in
  let w := n_conds * (n_conds - 1) / 2 in
  let rdm := repeat (repeat zero w) n_centers in
  for_loop
    (fun rdm chunk =>
       center_data <- center_data_chunked data_2d centers neighbors events
                                          chunk ;;
       let rdm_corr := calc_rdm center_data method in
       setitem_rows rdm w chunk rdm_corr)
    (chunked_center n_centers) rdm.

(** The chunked branch with the split points left open: numpy computes
    [np.linspace] in floating point, which can move a point by one. *)
Definition rdm_chunked_at (points : list nat) (data_2d : Data2d)
  (centers : list Z) (neighbors : list (list Z)) (events : list Z)
  (method : Method) : result (list (list V)) :=
  let n_centers := length centers in
  let n_conds := n_unique events in
  let w := n_conds * (n_conds - 1) / 2 in
  let rdm := repeat (repeat zero w) n_centers in
  for_loop
    (fun rdm chunk =>
       center_data <- center_data_chunked data_2d centers neighbors events
                                          chunk ;;
       let rdm_corr := calc_rdm center_data method in
       setitem_rows rdm w chunk rdm_corr)
    (np_split (seq 0 n_centers) points) rdm.

(** The branch [n_centers <= 1000]. *)
Definition rdm_unchunked (data_2d : Data2d) (centers : list Z)
  (neighbors : list (list Z)) (events : list Z) (method : Method)
  : result (list (list V)) :=
  center_data <- center_data_unchunked data_2d centers neighbors events ;;
  Ok (calc_rdm center_data method).

Definition get_searchlight_rdms (data_2d : Data2d) (centers : list Z)
  (neighbors : list (list Z)) (events : list Z) (method : Method)
  : result RDMs :=
  let n_centers := length centers in
  rdm <- (if 1000 <? n_centers
          then rdm_chunked data_2d centers neighbors events method
          else rdm_unchunked data_2d centers neighbors events method) ;;
  Ok {| dissimilarities := rdm;
        rdm_descriptors_voxel_index := centers;
        dissimilarity_measure := method |}.

(** The arguments of [calc_rdm] over a run of [get_searchlight_rdms], call
    by call: one call on the datasets of all the centers when
    [n_centers <= 1000], one call per chunk otherwise. *)
Definition calc_rdm_calls (data_2d : Data2d) (centers : list Z)
  (neighbors : list (list Z)) (events : list Z)
  : result (list (list Dataset)) :=
  let n_centers := length centers in
  if 1000 <? n_centers
  then mapM (center_data_chunked data_2d centers neighbors events)
            (chunked_center n_centers)
  else center_data <- center_data_unchunked data_2d centers neighbors events ;;
       Ok [center_data].

End Builder.

(** A concrete measure on integer data, for running the builder: for each
    pair of distinct labels in order of first appearance, the difference of
    the two label groups' total activity. *)
Definition group_total (cols : list (list Z)) (events : list Z) (e : Z) : Z :=
  sum (map (fun re => if (snd re =? e)%Z then sum (fst re) else 0%Z)
           (combine cols events)).

Fixpoint pairs_diff (totals : list Z) : list Z :=
  match totals with
  | [] => []
  | t :: rest => map (fun u => Z.abs (t - u)) rest ++ pairs_diff rest
  end.

Definition total_difference (method : unit) (cols : list (list Z))
  (events : list Z) : list Z :=
  pairs_diff (map (group_total cols events) (nodup Z.eq_dec events)).

(** A small run of the builder: four observations of three channels, two
    conditions, two centers. *)
Definition example_data : Data2d Z :=
  {| n_channels := 3;
     observations := [[1; 2; 3]; [2; 2; 2]; [5; 1; 0]; [4; 4; 1]]%Z |}.

Definition example_centers : list Z := [2; 0]%Z.

Definition example_neighbors : list (list Z) := [[2; 1]; [0; 1]]%Z.

Definition example_events : list Z := [0; 0; 1; 1]%Z.

(** A 2x2x1 mask with three voxels set, and observations of its four
    flattened voxels. *)
Definition example_mask : Mask :=
  {| shape := (2, 2, 1); voxels := [1; 0; 1; 1]%Z |}.

(** A mask with a negative entry: [[[-1, 1]]]. *)
Definition signed_mask : Mask :=
  {| shape := (1, 1, 2); voxels := [-1; 1]%Z |}.

Definition example_volume_data : Data2d Z :=
  {| n_channels := 4;
     observations := [[1; 2; 3; 4]; [2; 2; 2; 2]; [5; 1; 0; 3]; [4; 4; 1; 1]]%Z |}.

(** *** The parallel model evaluator *)

Section Evaluator.

Variables Models RDM MethodName Theta Res : Type.

(** The caller's evaluation function; it may raise. *)
Variable eval_function : Models -> RDM -> MethodName -> Theta -> result Res.

(** joblib's [Parallel(n_jobs)(tasks)] as a pool of [n_jobs] workers. The
    tasks are taken from the generator in order, each with its position; a
    task runs on a free worker; running tasks complete in any order; a
    result is stored under the position of its task; a task that raises
    fails the batch. [call_log] records the arguments of the invocations of
    the evaluation function. *)
Record pool : Type := {
  queue : list (nat * RDM);
  active : list (nat * RDM);
  finished : list (nat * Res);
  call_log : list RDM
}.

Inductive outcome : Type :=
| Running (p : pool)
| Failed (e : error).

Variable models : Models.
Variable method : MethodName.
Variable theta : Theta.

Inductive step (n_jobs : nat) : pool -> outcome -> Prop :=
| step_dispatch : forall i x q a f log,
    length a < n_jobs ->
    step n_jobs
         {| queue := (i, x) :: q; active := a; finished := f; call_log := log |}
         (Running {| queue := q; active := a ++ [(i, x)]; finished := f;
                     call_log := log ++ [x] |})
| step_complete : forall i x r q a1 a2 f log,
    eval_function models x method theta = Ok r ->
    step n_jobs
         {| queue := q; active := a1 ++ (i, x) :: a2; finished := f;
            call_log := log |}
         (Running {| queue := q; active := a1 ++ a2; finished := (i, r) :: f;
                     call_log := log |})
| step_raise : forall i x e q a1 a2 f log,
    eval_function models x method theta = Raise e ->
    step n_jobs
         {| queue := q; active := a1 ++ (i, x) :: a2; finished := f;
            call_log := log |}
         (Failed e).

Inductive run (n_jobs : nat) : pool -> outcome -> Prop :=
| run_here : forall p, run n_jobs p (Running p)
| run_raise : forall p e, step n_jobs p (Failed e) -> run n_jobs p (Failed e)
| run_next : forall p p' o,
    step n_jobs p (Running p') -> run n_jobs p' o -> run n_jobs p o.

(** The tasks of the generator over the one-row RDMs of [sl_rdm]. *)
Definition submit (sl_rdm : list RDM) : pool :=
  {| queue := combine (seq 0 (length sl_rdm)) sl_rdm;
     active := []; finished := []; call_log := [] |}.

Fixpoint lookup (i : nat) (f : list (nat * Res)) : option Res :=
  match f with
  | [] => None
  | (j, r) :: f' => if i =? j then Some r else lookup i f'
  end.

(** The list [Parallel] returns: the stored results by task position. *)
Fixpoint retrieve (positions : list nat) (f : list (nat * Res))
  : option (list Res) :=
  match positions with
  | [] => Some []
  | i :: ps =>
      match lookup i f, retrieve ps f with
      | Some r, Some rs => Some (r :: rs)
      | _, _ => None
      end
  end.

(** What holds of every state of the pool that a schedule reaches from
    [submit sl_rdm]: the first [k] tasks have been dispatched, in order; a
    running task and a stored result carry the position of their RDM; and
    each dispatched task is running or has its result stored. *)
Definition pool_inv (sl_rdm : list RDM) (p : pool) : Prop :=
  exists k,
    k <= length sl_rdm /\
    queue p = combine (seq k (length sl_rdm - k)) (skipn k sl_rdm) /\
    call_log p = firstn k sl_rdm /\
    (forall i x, In (i, x) (active p) -> nth_error sl_rdm i = Some x) /\
    (forall i r, In (i, r) (finished p) ->
       exists x, nth_error sl_rdm i = Some x /\
                 eval_function models x method theta = Ok r) /\
    (forall i, i < k ->
       In i (map fst (active p)) \/ In i (map fst (finished p))).

(** With one worker the pool is sequential: at most the last dispatched
    task is running, and every task before it has its result stored. *)
Definition one_worker_inv (sl_rdm : list RDM) (p : pool) : Prop :=
  exists k,
    k <= length sl_rdm /\
    queue p = combine (seq k (length sl_rdm - k)) (skipn k sl_rdm) /\
    (forall i r, In (i, r) (finished p) ->
       exists x, nth_error sl_rdm i = Some x /\
                 eval_function models x method theta = Ok r) /\
    ((active p = [] /\ forall j, j < k -> In j (map fst (finished p))) \/
     (exists x,
        0 < k /\ nth_error sl_rdm (k - 1) = Some x /\
        active p = [(k - 1, x)] /\
        forall j, j < k - 1 -> In j (map fst (finished p)))).

(** [evaluate_models_searchlight(sl_rdm, models, eval_function, method,
    theta, n_jobs)] returns [results], having invoked the evaluation function
    on [calls]: some schedule of the pool completes every task. *)
Definition evaluate_models_searchlight (sl_rdm : list RDM) (n_jobs : nat)
  (results : list Res) (calls : list RDM) : Prop :=
  exists p,
    run n_jobs (submit sl_rdm) (Running p) /\
    queue p = [] /\ active p = [] /\
    retrieve (seq 0 (length sl_rdm)) (finished p) = Some results /\
    call_log p = calls.

(** The batch fails with [e]: some schedule reaches a task that raises. *)
Definition evaluate_models_searchlight_raises (sl_rdm : list RDM)
  (n_jobs : nat) (e : error) : Prop :=
  run n_jobs (submit sl_rdm) (Failed e).

End Evaluator.

Arguments submit {RDM Res} sl_rdm.
Arguments Failed {RDM Res} e.

(** A small evaluation function for running the evaluator. *)
Definition square_eval (models : unit) (x : nat) (method theta : unit)
  : result nat :=
  Ok (x * x).

(** An evaluation function that raises on some rows. *)
Definition checked_eval (models : unit) (x : nat) (method theta : unit)
  : result nat :=
  if x =? 0 then Raise ValueError
  else if x =? 1 then Raise IndexError
  else Ok (x * x).

End Searchlight.

(** * Properties *)

Unset Implicit Arguments.

Import RdmUtils.

(** ** Generic facts on the error monad and on lists *)

Lemma mapM_pointwise :
  forall (A B : Type) (f : A -> result B) (h : A -> B) (l : list A),
    (forall a, In a l -> f a = Ok (h a)) -> mapM f l = Ok (map h l).
Proof.
  induction l as [|a l IH]; intros Hf; simpl.
  - reflexivity.
  - rewrite (Hf a (or_introl eq_refl)). simpl.
    rewrite IH by (intros b Hb; apply Hf; right; exact Hb).
    reflexivity.
Qed.

Lemma mapM_length :
  forall (A B : Type) (f : A -> result B) (l : list A) (l' : list B),
    mapM f l = Ok l' -> length l' = length l.
Proof.
  induction l as [|a l IH]; intros l' H; simpl in H.
  - inversion H. reflexivity.
  - destruct (f a); simpl in H; try discriminate.
    destruct (mapM f l); simpl in H; try discriminate.
    inversion H. simpl. f_equal. apply IH. reflexivity.
Qed.


Lemma broadcast_axis_same :
  forall (T : Type) (n : nat) (l : list T),
    length l = n -> broadcast_axis n l = Ok l.
Proof.
  intros T n l H. unfold broadcast_axis.
  rewrite (proj2 (Nat.eqb_eq _ _) H). reflexivity.
Qed.

Lemma broadcast_2d_same :
  forall (T : Type) (n w : nat) (M : list (list T)),
    length M = n -> Forall (fun r => length r = w) M ->
    broadcast_2d n w M = Ok M.
Proof.
  intros T n w M Hn Hw. unfold broadcast_2d.
  rewrite mapM_pointwise with (h := fun r => r).
  - simpl. rewrite map_id. apply broadcast_axis_same. exact Hn.
  - intros r Hr. apply broadcast_axis_same.
    rewrite Forall_forall in Hw. apply Hw. exact Hr.
Qed.



Lemma nth_skipn_add :
  forall (T : Type) (d : T) (k n : nat) (l : list T),
    nth n (skipn k l) d = nth (k + n) l d.
Proof.
  intros T d k. induction k as [|k IH]; intros n l.
  - reflexivity.
  - destruct l as [|a l]; simpl.
    + destruct n; reflexivity.
    + apply IH.
Qed.

(** ** The inferred number of conditions *)

(** The triangular numbers by recursion: [tri n = 0 + 1 + ... + (n - 1)]. *)
Lemma pronic_half : forall n, n * (n - 1) / 2 * 2 = n * (n - 1).
Proof.
  intros n.
  assert (H : exists k, n * (n - 1) = 2 * k).
  { induction n as [|n [k Hk]].
    - exists 0. reflexivity.
    - exists (k + n).
      replace (S n - 1) with n by lia.
      destruct n as [|n]; [simpl in *; lia|].
      replace (S n - 1) with n in Hk by lia. nia. }
  destruct H as [k Hk]. rewrite Hk.
  replace (2 * k) with (k * 2) by lia.
  rewrite Nat.div_mul by discriminate. reflexivity.
Qed.

Lemma tri_succ : forall k, S k * (S k - 1) / 2 = k + k * (k - 1) / 2.
Proof.
  intros k. apply Nat.mul_cancel_r with (p := 2); [discriminate|].
  rewrite pronic_half, Nat.mul_add_distr_r, pronic_half.
  replace (S k - 1) with k by lia.
  destruct k as [|k]; [reflexivity|].
  replace (S k - 1) with k by lia. nia.
Qed.

Lemma ceil_sqrt_least :
  forall m, m <= ceil_sqrt m * ceil_sqrt m /\
            (ceil_sqrt m = 0 \/ (ceil_sqrt m - 1) * (ceil_sqrt m - 1) < m).
Proof.
  intros m. unfold ceil_sqrt.
  pose proof (Nat.sqrt_spec m (Nat.le_0_l m)) as [Hlo Hhi].
  destruct (Nat.eqb_spec (Nat.sqrt m * Nat.sqrt m) m) as [E|E].
  - split; [lia|].
    destruct (Nat.sqrt m) as [|s]; [left; reflexivity|right].
    simpl in *. rewrite Nat.sub_0_r. nia.
  - split; [simpl in *; lia|].
    right. simpl. rewrite Nat.sub_0_r. lia.
Qed.

Lemma ceil_sqrt_unique :
  forall m k, m <= k * k -> (k = 0 \/ (k - 1) * (k - 1) < m) ->
              ceil_sqrt m = k.
Proof.
  intros m k Hup Hlo.
  destruct (ceil_sqrt_least m) as [Hup' Hlo'].
  remember (ceil_sqrt m) as c.
  destruct (Nat.lt_trichotomy c k) as [Hlt|[Heq|Hgt]]; [|exact Heq|].
  - exfalso. destruct Hlo as [->|Hlo]; [lia|].
    assert (c <= k - 1) by lia. nia.
  - exfalso. destruct Hlo' as [->|Hlo']; [lia|].
    assert (k <= c - 1) by lia. nia.
Qed.

Lemma ceil_sqrt_pronic : forall n, 2 <= n -> ceil_sqrt (n * (n - 1)) = n.
Proof.
  intros n Hn. apply ceil_sqrt_unique.
  - nia.
  - right. destruct n as [|[|n]]; lia.
Qed.

Lemma get_n_triangular :
  forall n, 2 <= n -> get_n_from_reduced_vectors (n * (n - 1) / 2) = n.
Proof.
  intros n Hn. unfold get_n_from_reduced_vectors.
  rewrite pronic_half. apply ceil_sqrt_pronic. exact Hn.
Qed.

Lemma get_n_exact :
  forall n,
    get_n_from_reduced_vectors (n * (n - 1) / 2)
    * (get_n_from_reduced_vectors (n * (n - 1) / 2) - 1) / 2
    = n * (n - 1) / 2.
Proof.
  intros n. destruct (le_lt_dec 2 n) as [H|H].
  - rewrite get_n_triangular by exact H. reflexivity.
  - destruct n as [|[|n]]; try lia; reflexivity.
Qed.

Lemma triangular_iff :
  forall L,
    triangular L <->
    get_n_from_reduced_vectors L * (get_n_from_reduced_vectors L - 1) = L * 2.
Proof.
  intros L. split.
  - intros [n ->]. rewrite <- pronic_half at 1.
    rewrite get_n_exact. reflexivity.
  - intros H. exists (get_n_from_reduced_vectors L).
    rewrite H. rewrite Nat.div_mul by discriminate. reflexivity.
Qed.

Lemma sqrt_INR_bounds :
  forall m, (0 <= sqrt (INR m) /\ sqrt (INR m) * sqrt (INR m) = INR m)%R.
Proof.
  intros m. split.
  - apply sqrt_pos.
  - apply sqrt_sqrt. apply pos_INR.
Qed.


(** [round_sqrt m] is the integer nearest to the real square root of [m]. *)
Lemma round_sqrt_real :
  forall m, (Rabs (INR (round_sqrt m) - sqrt (INR m)) < 1 / 2)%R.
Proof.
  intros m. unfold round_sqrt.
  pose proof (Nat.sqrt_spec m (Nat.le_0_l m)) as [Hlo Hhi].
  destruct (sqrt_INR_bounds m) as [Hpos Hsq].
  set (x := sqrt (INR m)) in *.
  pose proof (pos_INR (Nat.sqrt m)) as Hs.
  apply le_INR in Hlo. rewrite mult_INR in Hlo.
  apply lt_INR in Hhi. rewrite mult_INR, S_INR in Hhi.
  destruct (Nat.leb_spec m (Nat.sqrt m * Nat.sqrt m + Nat.sqrt m)) as [H|H].
  - apply le_INR in H. rewrite plus_INR, mult_INR in H.
    apply Rabs_def1; nra.
  - apply Nat.le_succ_l, le_INR in H. rewrite S_INR, plus_INR, mult_INR in H.
    rewrite S_INR. apply Rabs_def1; nra.
Qed.

Example squareform_of_six :
  batch_to_matrices 0%Z (Arr2 6 [[1; 2; 3; 4; 5; 6]%Z])
  = Ok (Arr3 4 4 [[[0; 1; 2; 3]; [1; 0; 4; 5]; [2; 4; 0; 6]; [3; 5; 6; 0]]%Z],
        1, 4).
Proof. reflexivity. Qed.

(** ** binary64 square roots *)

Section Float64Facts.

Local Open Scope Z_scope.

Lemma fexp_eq : forall e, fexp Float64.prec Float64.emax e = Z.max (e - 53) (-1074).
Proof. reflexivity. Qed.

Lemma digits2_pos_bounds :
  forall p, 2 ^ (Zpos (digits2_pos p) - 1) <= Zpos p < 2 ^ Zpos (digits2_pos p).
Proof.
  induction p as [p IH|p IH|]; cbn [digits2_pos].
  - rewrite Pos2Z.inj_succ.
    replace (Z.succ (Z.pos (digits2_pos p)) - 1) with (Z.succ (Z.pos (digits2_pos p) - 1)) by lia.
    rewrite !Z.pow_succ_r by lia. lia.
  - rewrite Pos2Z.inj_succ.
    replace (Z.succ (Z.pos (digits2_pos p)) - 1) with (Z.succ (Z.pos (digits2_pos p) - 1)) by lia.
    rewrite !Z.pow_succ_r by lia. lia.
  - simpl. lia.
Qed.

Lemma digits2_pos_unique :
  forall p k, 2 ^ (k - 1) <= Zpos p < 2 ^ k -> Zpos (digits2_pos p) = k.
Proof.
  intros p k [Hlo Hhi].
  destruct (digits2_pos_bounds p) as [Dlo Dhi].
  set (d := Zpos (digits2_pos p)) in *.
  assert (Hd : 0 < d) by (unfold d; lia).
  assert (Hk : 0 < k).
  { destruct (Z.lt_ge_cases 0 k) as [H|H]; [exact H|].
    assert (2 ^ k <= 1).
    { destruct (Z.eq_dec k 0) as [->|]; [simpl; lia|].
      rewrite Z.pow_neg_r by lia. lia. }
    lia. }
  destruct (Z.lt_trichotomy d k) as [H|[H|H]]; [|exact H|].
  - assert (2 ^ d <= 2 ^ (k - 1)) by (apply Z.pow_le_mono_r; lia). lia.
  - assert (2 ^ k <= 2 ^ (d - 1)) by (apply Z.pow_le_mono_r; lia). lia.
Qed.

Lemma iter_xO : forall k p, Zpos (Pos.iter xO p k) = Zpos p * 2 ^ Zpos k.
Proof.
  intros k p. induction k as [|k IH] using Pos.peano_ind.
  - simpl. lia.
  - rewrite Pos.iter_succ, Pos2Z.inj_succ, Z.pow_succ_r by lia.
    rewrite Pos2Z.inj_xO, IH. lia.
Qed.

(** A mantissa of 53 bits with an exponent in range is its own rounding. *)
Lemma binary_round_aux_exact :
  forall s m e,
    Zpos (digits2_pos m) = 53 -> -1074 <= e <= 971 ->
    binary_round_aux Float64.prec Float64.emax s (Zpos m) e loc_Exact
    = S754_finite s m e.
Proof.
  intros s m e Hd He. unfold binary_round_aux, shr_fexp.
  cbn [Zdigits2 shr_record_of_loc]. rewrite Hd, fexp_eq.
  replace (Z.max (53 + e - 53) (-1074) - e) with 0 by lia.
  cbn [shr shr_m loc_of_shr_record round_nearest_even Zdigits2 shr_record_of_loc].
  rewrite Hd, fexp_eq.
  replace (Z.max (53 + e - 53) (-1074) - e) with 0 by lia.
  cbn [shr shr_m].
  change (Float64.emax - Float64.prec) with 971.
  destruct (Z.leb_spec e 971); [reflexivity|lia].
Qed.

Lemma of_int_pos :
  forall m, 0 < m < 2 ^ 53 ->
    exists p, Zpos p = m * 2 ^ (53 - Zdigits2 m) /\
              Zpos (digits2_pos p) = 53 /\
              Float64.of_int m = S754_finite false p (Zdigits2 m - 53).
Proof.
  intros m [H0 Hm]. destruct m as [|q|q]; try lia.
  cbn [Zdigits2]. destruct (digits2_pos_bounds q) as [Dlo Dhi].
  set (d := Zpos (digits2_pos q)) in *.
  assert (Hd : 1 <= d <= 53).
  { split; [unfold d; lia|].
    destruct (Z.le_gt_cases d 53) as [H|H]; [exact H|].
    assert (2 ^ 53 <= 2 ^ (d - 1)) by (apply Z.pow_le_mono_r; lia). lia. }
  unfold Float64.of_int, binary_normalize, binary_round, shl_align.
  fold d. rewrite fexp_eq.
  replace (Z.max (d + 0 - 53) (-1074)) with (d - 53) by lia.
  replace (d - 53 - 0) with (d - 53) by lia.
  destruct (Z.eq_dec d 53) as [E|E].
  - rewrite E. change (53 - 53) with 0. exists q.
    split; [rewrite Z.mul_1_r; reflexivity|]. split; [exact E|].
    apply binary_round_aux_exact; [exact E|lia].
  - remember (d - 53) as t eqn:Ht. destruct t as [|t|t]; try lia.
    assert (Et : Zpos t = 53 - d) by lia.
    exists (Pos.iter xO q t).
    assert (Hdig : Zpos (digits2_pos (Pos.iter xO q t)) = 53).
    { apply digits2_pos_unique. rewrite iter_xO, Et.
      assert (P1 : 2 ^ 53 = 2 ^ d * 2 ^ (53 - d)).
      { rewrite <- Z.pow_add_r by lia. f_equal. lia. }
      assert (P2 : 2 ^ (53 - 1) = 2 ^ (d - 1) * 2 ^ (53 - d)).
      { rewrite <- Z.pow_add_r by lia. f_equal. lia. }
      rewrite P1, P2.
      assert (0 < 2 ^ (53 - d)) by (apply Z.pow_pos_nonneg; lia).
      split; [apply Z.mul_le_mono_nonneg_r; lia|apply Z.mul_lt_mono_pos_r; lia]. }
    split; [rewrite iter_xO, Et; reflexivity|].
    split; [exact Hdig|].
    apply binary_round_aux_exact; [exact Hdig|lia].
Qed.

Lemma shr_record_loc :
  forall m l, shr_m (shr_record_of_loc m l) = m /\
              loc_of_shr_record (shr_record_of_loc m l) = l.
Proof. intros m [|[]]; split; reflexivity. Qed.

Lemma Zdigits2_53 : forall q, 2 ^ 52 <= q < 2 ^ 53 -> Zdigits2 q = 53.
Proof.
  intros q H. destruct q as [|p|p]; try lia.
  cbn [Zdigits2]. apply digits2_pos_unique. exact H.
Qed.








End Float64Facts.


(** Above [2^51] the binary64 root can be rounded down to an integer: at
    this width numpy infers 67108865 conditions, which is below the square
    root of twice the width. *)
Example get_n_float64_falls_short :
  get_n_from_reduced_vectors_float64 2251799880794113 = Ok 67108865%Z /\
  (67108865 * 67108865 < 2251799880794113 * 2)%Z.
Proof. split; vm_compute; reflexivity. Qed.

(** ** C5 *)




(** ** C6 *)




(** ** C2: the round trip between the two forms *)

Section RoundTrip.

Variable A : Type.
Variable zero : A.








Lemma nth_map_seq :
  forall (T : Type) (F : nat -> T) (d : T) (n i : nat),
    i < n -> nth i (map F (seq 0 n)) d = F i.
Proof.
  intros T F d n i Hi.
  rewrite nth_indep with (d' := F 0) by (rewrite length_map, length_seq; exact Hi).
  rewrite map_nth, seq_nth by exact Hi. reflexivity.
Qed.

Lemma flat_map_ext_in :
  forall (T U : Type) (f g : T -> list U) (l : list T),
    (forall a, In a l -> f a = g a) -> flat_map f l = flat_map g l.
Proof.
  intros T U f g l H. induction l as [|a l IH]; simpl; [reflexivity|].
  rewrite (H a (or_introl eq_refl)), IH; [reflexivity|].
  intros b Hb. apply H. right. exact Hb.
Qed.

Lemma squareform_shape :
  forall d (v : list A),
    length (to_squareform_from_vector zero d v) = d /\
    Forall (fun r => length r = d) (to_squareform_from_vector zero d v).
Proof.
  intros d v. unfold to_squareform_from_vector. split.
  - rewrite length_map, length_seq. reflexivity.
  - apply Forall_forall. intros r Hr.
    apply in_map_iff in Hr. destruct Hr as [i [<- _]].
    rewrite length_map, length_seq. reflexivity.
Qed.






End RoundTrip.

Lemma mapM_map :
  forall (T U W : Type) (h : T -> U) (g : U -> result W) (l : list T),
    mapM g (map h l) = mapM (fun a => g (h a)) l.
Proof.
  intros T U W h g l. induction l as [|a l IH]; simpl; [reflexivity|].
  rewrite IH. reflexivity.
Qed.

Lemma get_n_half :
  forall w, triangular w ->
    get_n_from_reduced_vectors w * (get_n_from_reduced_vectors w - 1) / 2 = w.
Proof.
  intros w Hw. apply triangular_iff in Hw. rewrite Hw.
  apply Nat.div_mul. discriminate.
Qed.

Section BatchRoundTrip.

Variable A : Type.
Variable zero : A.

(** One condensed row through [batch_to_matrices]. *)
Lemma row_to_matrix :
  forall w (v : list A),
    triangular w -> length v = w ->
    bind (squareform_vector zero v)
         (broadcast_2d (get_n_from_reduced_vectors w)
                       (get_n_from_reduced_vectors w))
    = Ok (if w =? 0 then []
          else to_squareform_from_vector zero (get_n_from_reduced_vectors w) v).
Proof.
  intros w v Hw Hv. unfold squareform_vector. rewrite Hv.
  destruct (Nat.eqb_spec w 0) as [->|Hw0]; [reflexivity|].
  fold (get_n_from_reduced_vectors w).
  apply triangular_iff in Hw. rewrite Hw, Nat.eqb_refl. simpl.
  destruct (squareform_shape A zero (get_n_from_reduced_vectors w) v) as [Hl Hr].
  apply broadcast_2d_same; assumption.
Qed.




End BatchRoundTrip.




(** ** The neighbourhood finder *)

Import Searchlight.

Example neighbors_of_cube_center :
  zip3 (_get_searchlight_neighbors (ones 5 5 5) (2, 2, 2)%Z 2)
  = meshgrid_points [1; 2; 3]%Z [1; 2; 3]%Z [1; 2; 3]%Z.
Proof. vm_compute. reflexivity. Qed.

Example neighbors_of_cube_corner :
  _get_searchlight_neighbors (ones 5 5 5) (0, 0, 0)%Z 2
  = ([0; 0; 1; 1; 0; 0; 1; 1]%Z, [0; 0; 0; 0; 1; 1; 1; 1]%Z,
     [0; 1; 0; 1; 0; 1; 0; 1]%Z).
Proof. vm_compute. reflexivity. Qed.

Lemma zip3_transpose3 : forall l, zip3 (transpose3 l) = l.
Proof.
  induction l as [|[[x y] z] l IH]; simpl.
  - reflexivity.
  - unfold zip3, transpose3 in IH. rewrite IH. reflexivity.
Qed.

Lemma In_arange :
  forall n a, In a (arange n) <-> (0 <= a < Z.of_nat n)%Z.
Proof.
  intros n a. unfold arange. rewrite in_map_iff. split.
  - intros [i [<- Hi]]. apply in_seq in Hi. lia.
  - intros H. exists (Z.to_nat a). split; [lia|].
    apply in_seq. lia.
Qed.

Lemma In_meshgrid_points :
  forall x y z a b c,
    In (a, b, c) (meshgrid_points x y z) <-> In a x /\ In b y /\ In c z.
Proof.
  intros x y z a b c. unfold meshgrid_points.
  rewrite in_flat_map. split.
  - intros [b' [Hb H]]. apply in_flat_map in H. destruct H as [a' [Ha H]].
    apply in_map_iff in H. destruct H as [c' [E Hc]].
    inversion E. subst. auto.
  - intros (Ha & Hb & Hc). exists b. split; [exact Hb|].
    apply in_flat_map. exists a. split; [exact Ha|].
    apply in_map_iff. exists c. auto.
Qed.

Lemma In_grid :
  forall shp c, In c (grid shp) <-> in_bounds shp c.
Proof.
  intros [[nx ny] nz] [[x y] z]. unfold grid, in_bounds.
  rewrite in_flat_map. split.
  - intros [x' [Hx H]]. apply in_flat_map in H. destruct H as [y' [Hy H]].
    apply in_map_iff in H. destruct H as [z' [E Hz]].
    inversion E. subst. rewrite In_arange in Hx, Hy, Hz. auto.
  - intros (Hx & Hy & Hz). exists x. split; [apply In_arange; exact Hx|].
    apply in_flat_map. exists y. split; [apply In_arange; exact Hy|].
    apply in_map_iff. exists z. split; [reflexivity|apply In_arange; exact Hz].
Qed.

Lemma sqdist_nonneg : forall p c, (0 <= sqdist p c)%Z.
Proof.
  intros [[px py] pz] [[cx cy] cz]. unfold sqdist.
  pose proof (Z.square_nonneg (px - cx)).
  pose proof (Z.square_nonneg (py - cy)).
  pose proof (Z.square_nonneg (pz - cz)).
  lia.
Qed.

(** The comparison on the integer part is the comparison of the real
    Euclidean distance with the radius. *)
Lemma distance_lt_real :
  forall p c radius,
    distance_lt p c radius = true <-> (euclidean p c < IZR radius)%R.
Proof.
  intros p c radius. unfold distance_lt, euclidean.
  pose proof (sqdist_nonneg p c) as Hd.
  set (d := sqdist p c) in *.
  pose proof (Z.sqrt_spec d Hd) as [Hlo Hhi].
  assert (Hs : (0 <= Z.sqrt d)%Z) by apply Z.sqrt_nonneg.
  assert (Hx : (0 <= sqrt (IZR d))%R) by apply sqrt_pos.
  assert (Hxx : (sqrt (IZR d) * sqrt (IZR d) = IZR d)%R)
    by (apply sqrt_sqrt, IZR_le; exact Hd).
  set (x := sqrt (IZR d)) in *.
  rewrite Z.ltb_lt. split.
  - intros H.
    assert (Hr : (Z.succ (Z.sqrt d) <= radius)%Z) by lia.
    apply IZR_le in Hr. apply IZR_lt in Hhi.
    rewrite mult_IZR in Hhi. rewrite succ_IZR in *.
    apply IZR_le in Hs. nra.
  - intros H.
    destruct (Z_lt_le_dec (Z.sqrt d) radius) as [Hlt|Hge]; [exact Hlt|].
    exfalso.
    assert (Hr : (0 < radius)%Z) by (apply lt_IZR; lra).
    assert (Hrr : (radius * radius <= d)%Z) by nia.
    apply IZR_le in Hrr. rewrite mult_IZR in Hrr.
    apply IZR_lt in Hr. nra.
Qed.

(** The bounding-box prefilter keeps every point that passes the distance
    test. *)
Lemma distance_lt_box :
  forall px py pz cx cy cz radius,
    distance_lt (px, py, pz) (cx, cy, cz) radius = true ->
    (Z.abs (px - cx) < radius /\ Z.abs (py - cy) < radius /\
     Z.abs (pz - cz) < radius)%Z.
Proof.
  intros px py pz cx cy cz radius H.
  unfold distance_lt in H. apply Z.ltb_lt in H.
  assert (Hmono : forall a d, (a * a <= d -> Z.abs a <= Z.sqrt d)%Z).
  { intros a d Ha.
    rewrite <- (Z.sqrt_square (Z.abs a)) by apply Z.abs_nonneg.
    apply Z.sqrt_le_mono.
    rewrite <- Z.abs_mul, Z.abs_eq; [exact Ha|apply Z.square_nonneg]. }
  unfold sqdist in H.
  pose proof (Z.square_nonneg (px - cx)).
  pose proof (Z.square_nonneg (py - cy)).
  pose proof (Z.square_nonneg (pz - cz)).
  repeat split; (eapply Z.le_lt_trans; [apply Hmono|exact H]); lia.
Qed.

Lemma In_neighbors :
  forall mask center radius p,
    In p (zip3 (_get_searchlight_neighbors mask center radius)) <->
    in_bounds (shape mask) p /\ distance_lt p center radius = true.
Proof.
  intros mask [[cx cy] cz] radius [[px py] pz].
  unfold _get_searchlight_neighbors.
  destruct (shape mask) as [[s0 s1] s2].
  rewrite zip3_transpose3, filter_In, In_meshgrid_points.
  rewrite !filter_In, !In_arange, !Z.ltb_lt. unfold in_bounds.
  split.
  - intros [H1 H2]. tauto.
  - intros [H1 H2]. pose proof (distance_lt_box _ _ _ _ _ _ _ H2). tauto.
Qed.

(** ** C4 *)

(** C4: the coordinates returned by [_get_searchlight_neighbors] are exactly
    the coordinates of the mask grid whose Euclidean distance to the centre
    is strictly below the radius; the bounding-box prefilter removes none of
    them, and no coordinate outside the mask is returned. *)
Theorem neighbors_are_the_ball :
  forall (mask : Mask) (center : coord) (radius : Z) (p : coord),
    In p (zip3 (_get_searchlight_neighbors mask center radius)) <->
    in_bounds (shape mask) p /\ (euclidean p center < IZR radius)%R.
Proof.
  intros mask center radius p.
  rewrite In_neighbors, distance_lt_real. reflexivity.
Qed.

(** ** The searchlight enumerator *)

Example empty_enumeration_raises :
  get_volume_searchlight (ones 2 2 2) 0 1 = Raise ValueError.
Proof. reflexivity. Qed.

Lemma py_index_in_range :
  forall n i, (0 <= i < Z.of_nat n)%Z -> py_index n i = Ok (Z.to_nat i).
Proof.
  intros n i H. unfold py_index.
  destruct (Z.leb_spec 0 i); [|lia].
  destruct (Z.ltb_spec i (Z.of_nat n)); [|lia].
  reflexivity.
Qed.

Lemma mask_getitem_in_bounds :
  forall mask c,
    in_bounds (shape mask) c -> mask_getitem mask c = Ok (mask_at mask c).
Proof.
  intros mask [[x y] z]. unfold mask_getitem, mask_at, in_bounds, flat_index.
  destruct (shape mask) as [[nx ny] nz]. intros (Hx & Hy & Hz).
  rewrite !py_index_in_range by assumption. simpl.
  do 2 f_equal. apply Nat2Z.inj.
  rewrite Z2Nat.id by nia.
  rewrite Nat2Z.inj_add, Nat2Z.inj_mul, Nat2Z.inj_add, Nat2Z.inj_mul.
  rewrite !Z2Nat.id by lia. reflexivity.
Qed.

Lemma mask_fancy_neighbors :
  forall mask center radius,
    mask_fancy mask (_get_searchlight_neighbors mask center radius)
    = Ok (map (mask_at mask)
              (zip3 (_get_searchlight_neighbors mask center radius))).
Proof.
  intros mask center radius. unfold mask_fancy.
  apply mapM_pointwise. intros p Hp.
  apply mask_getitem_in_bounds. apply In_neighbors in Hp. tauto.
Qed.

(** The loop over the candidates keeps, in order, the candidates that pass
    the fill test, each with its neighbourhood. *)
Lemma for_loop_accept :
  forall mask radius threshold l gc gn,
    for_loop (accept_center mask radius threshold) l (gc, gn)
    = Ok (gc ++ filter (fills mask radius threshold) l,
          gn ++ map (fun c => _get_searchlight_neighbors mask c radius)
                    (filter (fills mask radius threshold) l)).
Proof.
  intros mask radius threshold l.
  induction l as [|c l IH]; intros gc gn; simpl.
  - rewrite !app_nil_r. reflexivity.
  - rewrite mask_fancy_neighbors. simpl.
    fold (fills mask radius threshold c).
    destruct (fills mask radius threshold c); simpl.
    + rewrite IH, <- !app_assoc. reflexivity.
    + apply IH.
Qed.

Lemma find_searchlights_filter :
  forall mask radius threshold,
    find_searchlights mask radius threshold
    = Ok (filter (fills mask radius threshold) (nonzero mask),
          map (fun c => _get_searchlight_neighbors mask c radius)
              (filter (fills mask radius threshold) (nonzero mask))).
Proof.
  intros. unfold find_searchlights. rewrite for_loop_accept. reflexivity.
Qed.

Lemma ravel_one_in_bounds :
  forall shp c, in_bounds shp c -> ravel_one shp c = Ok (flat_index shp c).
Proof.
  intros [[nx ny] nz] [[x y] z] (Hx & Hy & Hz). unfold ravel_one.
  destruct (Z.leb_spec 0 x); [|lia].
  destruct (Z.ltb_spec x (Z.of_nat nx)); [|lia].
  destruct (Z.leb_spec 0 y); [|lia].
  destruct (Z.ltb_spec y (Z.of_nat ny)); [|lia].
  destruct (Z.leb_spec 0 z); [|lia].
  destruct (Z.ltb_spec z (Z.of_nat nz)); [|lia].
  reflexivity.
Qed.

Lemma ravel_multi_index_in_bounds :
  forall shp l,
    (forall c, In c l -> in_bounds shp c) ->
    ravel_multi_index (transpose3 l) shp = Ok (map (flat_index shp) l).
Proof.
  intros shp l H. unfold ravel_multi_index.
  rewrite zip3_transpose3. unfold transpose3.
  rewrite !length_map, Nat.eqb_refl. cbn [andb negb].
  apply mapM_pointwise.
  intros c Hc. apply ravel_one_in_bounds, H, Hc.
Qed.

Lemma neighbors_transpose3 :
  forall mask center radius,
    _get_searchlight_neighbors mask center radius
    = transpose3 (zip3 (_get_searchlight_neighbors mask center radius)).
Proof.
  intros mask [[cx cy] cz] radius. unfold _get_searchlight_neighbors.
  destruct (shape mask) as [[s0 s1] s2].
  rewrite zip3_transpose3. reflexivity.
Qed.

Lemma In_nonzero :
  forall mask c,
    In c (nonzero mask) <-> in_bounds (shape mask) c /\ mask_at mask c <> 0%Z.
Proof.
  intros mask c. unfold nonzero. rewrite filter_In, In_grid.
  destruct (Z.eqb_spec (mask_at mask c) 0); simpl; intuition congruence.
Qed.

(** What [get_volume_searchlight] returns: the flat indices of the accepted
    candidates and of their neighbourhoods, or the [ValueError] of
    [np.ravel_multi_index] when no candidate is accepted. *)
Lemma get_volume_searchlight_filter :
  forall mask radius threshold,
    get_volume_searchlight mask radius threshold
    = match filter (fills mask radius threshold) (nonzero mask) with
      | [] => Raise ValueError
      | good_centers =>
          Ok (map (flat_index (shape mask)) good_centers,
              map (fun c =>
                     map (flat_index (shape mask))
                         (zip3 (_get_searchlight_neighbors mask c radius)))
                  good_centers)
      end.
Proof.
  intros mask radius threshold. unfold get_volume_searchlight.
  rewrite find_searchlights_filter. cbn [bind].
  rewrite length_map, Nat.eqb_refl. cbn [negb].
  assert (Hin : forall c, In c (filter (fills mask radius threshold)
                                       (nonzero mask)) ->
                          in_bounds (shape mask) c).
  { intros c Hc. apply filter_In in Hc. destruct Hc as [Hc _].
    apply In_nonzero in Hc. tauto. }
  destruct (filter (fills mask radius threshold) (nonzero mask))
    as [|c0 gc] eqn:E; [reflexivity|].
  unfold ravel_centers.
  rewrite ravel_multi_index_in_bounds by exact Hin. cbn [bind].
  rewrite mapM_map.
  rewrite mapM_pointwise
    with (h := fun c => map (flat_index (shape mask))
                            (zip3 (_get_searchlight_neighbors mask c radius))).
  - reflexivity.
  - intros c _. rewrite neighbors_transpose3 at 1.
    apply ravel_multi_index_in_bounds.
    intros p Hp. apply In_neighbors in Hp. tauto.
Qed.

(** ** C7 *)

(** C7: for every 3-D mask, radius and threshold the enumeration ends with as
    many accepted centers as accepted neighbour sets, the assertion on the
    two counts never fires, and a returned pair has as many centers as
    neighbour sets. *)
Theorem centers_and_neighbors_match :
  forall (mask : Mask) (radius : Z) (threshold : Q),
    (exists good_centers good_neighbors,
       find_searchlights mask radius threshold
       = Ok (good_centers, good_neighbors) /\
       length good_centers = length good_neighbors) /\
    get_volume_searchlight mask radius threshold <> Raise AssertionError /\
    (forall centers neighbors,
       get_volume_searchlight mask radius threshold = Ok (centers, neighbors) ->
       length centers = length neighbors).
Proof.
  intros mask radius threshold. split; [|split].
  - eexists. eexists. split; [apply find_searchlights_filter|].
    rewrite length_map. reflexivity.
  - rewrite get_volume_searchlight_filter.
    destruct (filter _ _); discriminate.
  - intros centers neighbors. rewrite get_volume_searchlight_filter.
    destruct (filter _ _) as [|c gc]; [discriminate|].
    intros H. inversion H. subst. cbn [map length].
    rewrite !length_map. reflexivity.
Qed.

Lemma mean_ge_intro :
  forall vals threshold,
    vals <> [] ->
    (threshold * inject_Z (Z.of_nat (length vals)) <= inject_Z (sum vals))%Q ->
    mean_ge vals threshold = true.
Proof.
  intros vals threshold Hne H. unfold mean_ge.
  destruct vals as [|v vals]; [congruence|].
  apply Qle_bool_iff. apply Qle_shift_div_l; [|exact H].
  rewrite <- (Zlt_Qlt 0). simpl length. lia.
Qed.

Lemma sum_nonneg :
  forall vals, Forall (fun v => 0 <= v)%Z vals -> (0 <= sum vals)%Z.
Proof.
  induction 1 as [|v vals Hv _ IH]; simpl; lia.
Qed.

Lemma sum_ones :
  forall vals, Forall (fun v => v = 1%Z) vals ->
               sum vals = Z.of_nat (length vals).
Proof.
  induction 1 as [|v vals Hv _ IH]; [reflexivity|].
  cbn [sum fold_right length]. fold (sum vals). lia.
Qed.

Lemma mean_ge_zero :
  forall vals,
    vals <> [] -> Forall (fun v => 0 <= v)%Z vals -> mean_ge vals 0 = true.
Proof.
  intros vals Hne Hpos. apply mean_ge_intro; [exact Hne|].
  rewrite Qmult_0_l. rewrite <- (Zle_Qle 0). apply sum_nonneg, Hpos.
Qed.

Lemma mean_ge_ones :
  forall vals threshold,
    vals <> [] -> Forall (fun v => v = 1%Z) vals -> (threshold <= 1)%Q ->
    mean_ge vals threshold = true.
Proof.
  intros vals threshold Hne Hone Ht. apply mean_ge_intro; [exact Hne|].
  rewrite (sum_ones vals Hone).
  rewrite <- (Qmult_1_l (inject_Z (Z.of_nat (length vals)))) at 2.
  apply Qmult_le_compat_r; [exact Ht|].
  rewrite <- (Zle_Qle 0). lia.
Qed.

(** For a positive radius a centre inside the grid is in its own
    neighbourhood. *)
Lemma center_in_neighbors :
  forall mask center radius,
    (0 < radius)%Z -> in_bounds (shape mask) center ->
    In center (zip3 (_get_searchlight_neighbors mask center radius)).
Proof.
  intros mask [[cx cy] cz] radius Hr Hc. apply In_neighbors. split; [exact Hc|].
  unfold distance_lt, sqdist.
  replace ((cx - cx) * (cx - cx) + (cy - cy) * (cy - cy)
           + (cz - cz) * (cz - cz))%Z with 0%Z by ring.
  apply Z.ltb_lt. exact Hr.
Qed.

Lemma filter_all :
  forall (T : Type) (f : T -> bool) (l : list T),
    (forall a, In a l -> f a = true) -> filter f l = l.
Proof.
  intros T f l H. apply forallb_filter_id, forallb_forall, H.
Qed.

Lemma mask_at_nonneg :
  forall mask c,
    Forall (fun v => 0 <= v)%Z (voxels mask) -> (0 <= mask_at mask c)%Z.
Proof.
  intros mask c H. unfold mask_at.
  destruct (nth_in_or_default (Z.to_nat (flat_index (shape mask) c))
                              (voxels mask) 0%Z) as [Hin | ->]; [|lia].
  rewrite Forall_forall in H. apply H, Hin.
Qed.

Lemma fills_zero :
  forall mask radius c,
    (0 < radius)%Z -> Forall (fun v => 0 <= v)%Z (voxels mask) ->
    in_bounds (shape mask) c ->
    fills mask radius 0 c = true.
Proof.
  intros mask radius c Hr Hpos Hc. unfold fills. apply mean_ge_zero.
  - pose proof (center_in_neighbors mask c radius Hr Hc) as Hin.
    intros E. apply (in_map (mask_at mask)) in Hin. rewrite E in Hin.
    exact Hin.
  - apply Forall_forall. intros v Hv. apply in_map_iff in Hv.
    destruct Hv as [p [<- _]]. apply mask_at_nonneg, Hpos.
Qed.

(** ** C10 *)

(** C10, as stated, fails: a nonzero voxel is not always accepted at
    threshold 0.0. In the mask [[[-1, 1]]] with radius 1 the voxel
    [(0, 0, 0)] is a candidate, its neighbourhood is the voxel itself, the
    mean over it is -1, and the enumeration returns the other voxel only. *)
Lemma negative_voxel_not_accepted :
  in_bounds (shape signed_mask) (0, 0, 0)%Z /\
  mask_at signed_mask (0, 0, 0)%Z = (-1)%Z /\
  zip3 (_get_searchlight_neighbors signed_mask (0, 0, 0)%Z 1) = [(0, 0, 0)%Z] /\
  get_volume_searchlight signed_mask 1 0 = Ok ([1%Z], [[1%Z]]) /\
  ~ accepted signed_mask 1 0 (0, 0, 0)%Z.
Proof.
  split; [simpl; lia|]. split; [reflexivity|]. split; [reflexivity|].
  assert (H : get_volume_searchlight signed_mask 1 0 = Ok ([1%Z], [[1%Z]]))
    by (vm_compute; reflexivity).
  split; [exact H|].
  intros [centers [neighbors [Hg Hin]]]. rewrite H in Hg.
  inversion Hg. subst centers. simpl in Hin. destruct Hin as [E|[]].
  discriminate.
Qed.

(** C10, amended: for every radius above zero the candidate centres are the
    nonzero voxels of the grid, every voxel of the grid is in its own
    neighbourhood, so no candidate has an empty neighbourhood, and when no
    entry of the mask is negative every nonzero voxel is accepted at
    threshold 0.0. *)
Theorem candidate_in_own_neighborhood :
  forall (mask : Mask) (radius : Z),
    (0 < radius)%Z ->
    (forall c, In c (nonzero mask) <->
               in_bounds (shape mask) c /\ mask_at mask c <> 0%Z) /\
    (forall c, in_bounds (shape mask) c ->
               In c (zip3 (_get_searchlight_neighbors mask c radius))) /\
    (Forall (fun v => 0 <= v)%Z (voxels mask) ->
     forall c, in_bounds (shape mask) c -> mask_at mask c <> 0%Z ->
               accepted mask radius 0 c).
Proof.
  intros mask radius Hr. split; [|split].
  - intros c. apply In_nonzero.
  - intros c Hc. apply center_in_neighbors; assumption.
  - intros Hpos c Hc Hnz. unfold accepted.
    rewrite get_volume_searchlight_filter.
    assert (Hall : filter (fills mask radius 0) (nonzero mask) = nonzero mask).
    { apply filter_all. intros c' Hc'. apply In_nonzero in Hc'.
      apply fills_zero; tauto. }
    rewrite Hall.
    assert (Hin : In c (nonzero mask)) by (apply In_nonzero; auto).
    destruct (nonzero mask) as [|c0 l] eqn:E; [contradiction|].
    eexists. eexists. split; [reflexivity|].
    apply in_map. exact Hin.
Qed.

Lemma candidate_in_own_neighborhood_witness :
  (forall c, In c (nonzero example_mask) <->
             in_bounds (shape example_mask) c /\
             mask_at example_mask c <> 0%Z) /\
  (forall c, in_bounds (shape example_mask) c ->
             In c (zip3 (_get_searchlight_neighbors example_mask c 2))) /\
  (Forall (fun v => 0 <= v)%Z (voxels example_mask) ->
   forall c, in_bounds (shape example_mask) c ->
             mask_at example_mask c <> 0%Z ->
             accepted example_mask 2 0 c).
Proof.
  apply (candidate_in_own_neighborhood example_mask 2). lia.
Defined.

(** ** C1: the fully dense mask *)

Lemma flat_index_range :
  forall nx ny nz c,
    in_bounds (nx, ny, nz) c ->
    (0 <= flat_index (nx, ny, nz) c < Z.of_nat (nx * ny * nz))%Z.
Proof.
  intros nx ny nz [[x y] z] (Hx & Hy & Hz). unfold flat_index.
  rewrite !Nat2Z.inj_mul. split; [nia|].
  assert (H1 : (x * Z.of_nat ny + y <= (Z.of_nat nx - 1) * Z.of_nat ny
                                          + (Z.of_nat ny - 1))%Z) by nia.
  assert (H2 : ((x * Z.of_nat ny + y) * Z.of_nat nz
                <= (Z.of_nat nx * Z.of_nat ny - 1) * Z.of_nat nz)%Z) by nia.
  lia.
Qed.

Lemma mask_at_ones :
  forall nx ny nz c,
    in_bounds (nx, ny, nz) c -> mask_at (ones nx ny nz) c = 1%Z.
Proof.
  intros nx ny nz c Hc. unfold mask_at, ones. cbn [shape voxels].
  apply nth_repeat_lt.
  pose proof (flat_index_range nx ny nz c Hc). lia.
Qed.

Lemma nonzero_ones :
  forall nx ny nz, nonzero (ones nx ny nz) = grid (nx, ny, nz).
Proof.
  intros nx ny nz. unfold nonzero. apply filter_all.
  intros c Hc. change (shape (ones nx ny nz)) with (nx, ny, nz) in Hc.
  apply In_grid in Hc. rewrite mask_at_ones by exact Hc. reflexivity.
Qed.

Lemma fills_ones :
  forall nx ny nz radius threshold c,
    (0 < radius)%Z -> (threshold <= 1)%Q -> in_bounds (nx, ny, nz) c ->
    fills (ones nx ny nz) radius threshold c = true.
Proof.
  intros nx ny nz radius threshold c Hr Ht Hc. unfold fills.
  apply mean_ge_ones; [| |exact Ht].
  - pose proof (center_in_neighbors (ones nx ny nz) c radius Hr Hc) as Hin.
    intros E. apply (in_map (mask_at (ones nx ny nz))) in Hin.
    rewrite E in Hin. exact Hin.
  - apply Forall_forall. intros v Hv. apply in_map_iff in Hv.
    destruct Hv as [p [<- Hp]]. apply In_neighbors in Hp.
    apply mask_at_ones. tauto.
Qed.

(** On a mask of ones every fill test at a threshold up to 1 passes: the
    neighbourhood is clipped to the grid, where every entry is 1. *)
Lemma get_volume_searchlight_ones :
  forall nx ny nz radius threshold,
    (0 < radius)%Z -> (threshold <= 1)%Q ->
    get_volume_searchlight (ones nx ny nz) radius threshold
    = match grid (nx, ny, nz) with
      | [] => Raise ValueError
      | good_centers =>
          Ok (map (flat_index (nx, ny, nz)) good_centers,
              map (fun c =>
                     map (flat_index (nx, ny, nz))
                         (zip3 (_get_searchlight_neighbors
                                  (ones nx ny nz) c radius)))
                  good_centers)
      end.
Proof.
  intros nx ny nz radius threshold Hr Ht.
  rewrite get_volume_searchlight_filter, nonzero_ones.
  rewrite filter_all; [reflexivity|].
  intros c Hc. apply In_grid in Hc. apply fills_ones; assumption.
Qed.

(** C1, as stated, fails: on the 5x5x5 mask of ones with radius 2 and
    threshold 1.0 the enumerator accepts all 125 voxels, the corner
    [(0, 0, 0)] among them, not the single centre [(2, 2, 2)]; and with
    threshold 0.5 it accepts the same 125 voxels, not more. *)
Lemma dense_cube_corner_accepted :
  exists centers neighbors,
    get_volume_searchlight (ones 5 5 5) 2 1 = Ok (centers, neighbors) /\
    length centers = 125 /\
    In (flat_index (5, 5, 5) (0, 0, 0)%Z) centers /\
    ~ interior 5 2 (0, 0, 0)%Z /\
    get_volume_searchlight (ones 5 5 5) 2 (1 # 2) = Ok (centers, neighbors).
Proof.
  eexists. eexists. split; [vm_compute; reflexivity|].
  split; [reflexivity|]. split; [left; reflexivity|].
  split; [unfold interior; lia|]. vm_compute. reflexivity.
Qed.

(** C1, amended: on a fully dense cubic mask of side at least [2 r + 1], with
    [r > 0] and threshold 1.0, [get_volume_searchlight] accepts every
    interior centre, and it accepts every other voxel of the cube as well,
    since a neighbourhood is clipped to the grid; a threshold below 1.0
    gives the same result. For the 5x5x5 mask of ones with radius 2 these
    are all 125 voxels. *)
Theorem dense_cube_accepts_every_voxel :
  forall (s : nat) (r : Z),
    (0 < r)%Z ->
    (2 * r + 1 <= Z.of_nat s)%Z ->
    (forall c, interior s r c -> accepted (ones s s s) r 1 c) /\
    (forall c, in_bounds (s, s, s) c -> accepted (ones s s s) r 1 c) /\
    (forall threshold,
       (threshold <= 1)%Q ->
       get_volume_searchlight (ones s s s) r threshold
       = get_volume_searchlight (ones s s s) r 1) /\
    (exists centers neighbors,
       get_volume_searchlight (ones 5 5 5) 2 1 = Ok (centers, neighbors) /\
       length centers = 125 /\
       In (flat_index (5, 5, 5) (2, 2, 2)%Z) centers).
Proof.
  intros s r Hr Hs.
  assert (Hin : forall c, in_bounds (s, s, s) c -> accepted (ones s s s) r 1 c).
  { intros c Hc. unfold accepted.
    rewrite get_volume_searchlight_ones by (try exact Hr; apply Qle_refl).
    pose proof (proj2 (In_grid (s, s, s) c) Hc) as Hg.
    destruct (grid (s, s, s)) as [|c0 l] eqn:E; [contradiction|].
    eexists. eexists. split; [reflexivity|].
    apply in_map. exact Hg. }
  split; [|split; [exact Hin|split]].
  - intros [[x y] z] Hc. apply Hin. unfold interior, in_bounds in *. lia.
  - intros threshold Ht.
    rewrite !get_volume_searchlight_ones by (try exact Hr; try exact Ht;
                                             apply Qle_refl).
    reflexivity.
  - eexists. eexists. split; [vm_compute; reflexivity|].
    split; [reflexivity|]. vm_compute. tauto.
Qed.

Lemma dense_cube_accepts_every_voxel_witness :
  (forall c, interior 5 2 c -> accepted (ones 5 5 5) 2 1 c) /\
  (forall c, in_bounds (5, 5, 5) c -> accepted (ones 5 5 5) 2 1 c) /\
  (forall threshold,
     (threshold <= 1)%Q ->
     get_volume_searchlight (ones 5 5 5) 2 threshold
     = get_volume_searchlight (ones 5 5 5) 2 1) /\
  (exists centers neighbors,
     get_volume_searchlight (ones 5 5 5) 2 1 = Ok (centers, neighbors) /\
     length centers = 125 /\
     In (flat_index (5, 5, 5) (2, 2, 2)%Z) centers).
Proof.
  apply (dense_cube_accepts_every_voxel 5 2); lia.
Defined.

(** ** The searchlight RDM builder *)

Example chunks_of_1001_centers :
  map (@length nat) (chunked_center 1001) = repeat 10 99 ++ [11].
Proof. vm_compute. reflexivity. Qed.

Example builder_on_1001_centers :
  get_searchlight_rdms 0%Z total_difference example_data
                       (repeat 2%Z 1001) (repeat [2; 1]%Z 1001)
                       example_events tt
  = Ok {| dissimilarities := repeat [3%Z] 1001;
          rdm_descriptors_voxel_index := repeat 2%Z 1001;
          dissimilarity_measure := tt |}.
Proof. vm_compute. reflexivity. Qed.

Lemma app_eq_length_inj :
  forall (T : Type) (l1 l1' l2 l2' : list T),
    length l1 = length l1' -> l1 ++ l2 = l1' ++ l2' -> l1 = l1' /\ l2 = l2'.
Proof.
  induction l1 as [|a l1 IH]; intros [|a' l1'] l2 l2' Hlen H;
    try discriminate; simpl in *.
  - auto.
  - inversion H. destruct (IH l1' l2 l2') as [-> ->]; auto.
Qed.

(** A prefix of a range is a range. *)
Lemma app_eq_seq :
  forall (c rest : list nat) a m,
    c ++ rest = seq a m ->
    c = seq a (length c) /\ rest = seq (a + length c) (m - length c) /\
    length c <= m.
Proof.
  intros c rest a m H.
  assert (Hm : m = length c + length rest).
  { apply (f_equal (@length nat)) in H.
    rewrite length_app, length_seq in H. lia. }
  subst m. rewrite seq_app in H.
  apply app_eq_length_inj in H; [|rewrite length_seq; reflexivity].
  destruct H as [Hc Hr]. repeat split.
  - exact Hc.
  - replace (length c + length rest - length c) with (length rest) by lia.
    exact Hr.
  - lia.
Qed.

Lemma np_split_from_concat :
  forall (T : Type) (ary : list T) points st,
    Sorted le (st :: points) ->
    concat (np_split_from ary st points) = skipn st ary.
Proof.
  intros T ary points. induction points as [|p ps IH]; intros st Hs; simpl.
  - apply app_nil_r.
  - apply Sorted_inv in Hs. destruct Hs as [Hs Hd].
    apply HdRel_inv in Hd.
    rewrite IH by exact Hs.
    replace (skipn p ary) with (skipn (p - st) (skipn st ary))
      by (rewrite skipn_skipn; f_equal; lia).
    apply firstn_skipn.
Qed.

Lemma Sorted_map_seq :
  forall (f : nat -> nat) len a,
    (forall i, f i <= f (S i)) -> Sorted le (map f (seq a len)).
Proof.
  intros f len. induction len as [|len IH]; intros a Hf; simpl.
  - constructor.
  - constructor; [apply IH, Hf|].
    destruct len; simpl; constructor. apply Hf.
Qed.

Lemma linspace_inner :
  forall stop k,
    removelast (tl (linspace_int stop (S (S k))))
    = map (fun i => i * stop / S k) (seq 1 k).
Proof.
  intros stop k. unfold linspace_int.
  replace (S (S k) - 1) with (S k) by lia.
  change (seq 0 (S (S k))) with (0 :: seq 1 (S k)).
  cbn [map tl]. rewrite seq_S, map_app. cbn [map].
  apply removelast_last.
Qed.

(** The chunks of [chunked_center n], in order, make up [range(n)]. *)
Lemma chunked_center_concat :
  forall n, concat (chunked_center n) = seq 0 n.
Proof.
  intros n. unfold chunked_center, np_split.
  rewrite np_split_from_concat; [reflexivity|].
  rewrite (linspace_inner n 99).
  change (0 :: map (fun i => i * n / 100) (seq 1 99))
    with (map (fun i => i * n / 100) (seq 0 100)).
  apply Sorted_map_seq. intros i.
  apply Nat.Div0.div_le_mono. lia.
Qed.

Lemma mapM_app :
  forall (T U : Type) (f : T -> result U) (l1 l2 : list T),
    mapM f (l1 ++ l2)
    = bind (mapM f l1) (fun r1 => bind (mapM f l2) (fun r2 => Ok (r1 ++ r2))).
Proof.
  intros T U f l1 l2. induction l1 as [|a l1 IH]; simpl.
  - destruct (mapM f l2); reflexivity.
  - destruct (f a); simpl; [|reflexivity].
    rewrite IH. destruct (mapM f l1); simpl; [|reflexivity].
    destruct (mapM f l2); reflexivity.
Qed.

Lemma mapM_then_map :
  forall (T U W : Type) (f : T -> result U) (g : U -> W) (l : list T),
    mapM (fun a => bind (f a) (fun u => Ok (g u))) l
    = bind (mapM f l) (fun us => Ok (map g us)).
Proof.
  intros T U W f g l. induction l as [|a l IH]; simpl; [reflexivity|].
  destruct (f a); simpl; [|reflexivity].
  rewrite IH. destruct (mapM f l); reflexivity.
Qed.

Lemma list_set_split :
  forall (T : Type) (l : list T) i v,
    i < length l -> list_set l i v = firstn i l ++ v :: skipn (S i) l.
Proof.
  induction l as [|a l IH]; intros i v Hi; simpl in Hi; [lia|].
  destruct i as [|i]; simpl; [reflexivity|].
  rewrite IH by lia. reflexivity.
Qed.

(** Writing the rows of a chunk [a, a + 1, ...] replaces that segment. *)
Lemma setitem_segment :
  forall (T : Type) (rows : list T) a (rdm : list T),
    a + length rows <= length rdm ->
    fold_left (fun acc ir => list_set acc (fst ir) (snd ir))
              (combine (seq a (length rows)) rows) rdm
    = firstn a rdm ++ rows ++ skipn (a + length rows) rdm.
Proof.
  induction rows as [|r rows IH]; intros a rdm Hlen; cbn [length] in *.
  - rewrite Nat.add_0_r. symmetry. apply firstn_skipn.
  - cbn [seq combine fold_left fst snd].
    rewrite list_set_split by lia.
    assert (Ha : length (firstn a rdm) = a)
      by (rewrite length_firstn; lia).
    rewrite IH
      by (rewrite length_app, Ha; cbn [length]; rewrite length_skipn; lia).
    rewrite firstn_app, Ha.
    replace (S a - a) with 1 by lia.
    rewrite firstn_all2 by lia. cbn [firstn].
    rewrite <- app_assoc. cbn [app]. f_equal. f_equal. f_equal.
    rewrite skipn_app, Ha.
    rewrite skipn_all2 by lia.
    replace (S a + length rows - a) with (S (length rows)) by lia.
    cbn [app].
    change (skipn (S (length rows)) (r :: skipn (S a) rdm))
      with (skipn (length rows) (skipn (S a) rdm)).
    rewrite skipn_skipn. f_equal. lia.
Qed.

Section BuilderFacts.

Variable V : Type.
Variable zero : V.
Variable Method : Type.
Variable rdm_row : Method -> list (list V) -> list Z -> list V.

Variable data_2d : Data2d V.
Variable centers : list Z.
Variable neighbors : list (list Z).
Variable events : list Z.
Variable method : Method.

Lemma row_of_unchunked :
  forall i_c,
    i_c < length centers ->
    bind (dataset_unchunked zero data_2d centers neighbors events i_c)
         (fun d => Ok (rdm_row method (measurements d)
                               (obs_descriptors_events d)))
    = center_row zero rdm_row data_2d neighbors events method i_c.
Proof.
  intros i_c Hi. unfold dataset_unchunked, center_row, getitem.
  destruct (nth_error centers i_c) eqn:E;
    [|apply nth_error_None in E; lia].
  cbn [bind]. destruct (nth_error neighbors i_c); [|reflexivity].
  cbn [bind]. destruct (take_columns zero data_2d l); reflexivity.
Qed.

Lemma row_of_chunked :
  forall i_c,
    i_c < length centers ->
    bind (dataset_chunked zero data_2d centers neighbors events i_c)
         (fun d => Ok (rdm_row method (measurements d)
                               (obs_descriptors_events d)))
    = center_row zero rdm_row data_2d neighbors events method i_c.
Proof.
  intros i_c Hi. unfold dataset_chunked, center_row, getitem.
  destruct (nth_error centers i_c) eqn:E;
    [|apply nth_error_None in E; lia].
  cbn [bind]. destruct (nth_error neighbors i_c); [|reflexivity].
  cbn [bind]. destruct (take_columns zero data_2d l); reflexivity.
Qed.

Lemma mapM_ext_in :
  forall (T U : Type) (f g : T -> result U) (l : list T),
    (forall a, In a l -> f a = g a) -> mapM f l = mapM g l.
Proof.
  intros T U f g l H. induction l as [|a l IH]; simpl; [reflexivity|].
  rewrite (H a (or_introl eq_refl)), IH; [reflexivity|].
  intros b Hb. apply H. right. exact Hb.
Qed.

(** The unchunked branch computes the rows of the centers in order. *)
Lemma rdm_unchunked_rows :
  rdm_unchunked zero rdm_row data_2d centers neighbors events method
  = mapM (center_row zero rdm_row data_2d neighbors events method) (seq 0 (length centers)).
Proof.
  unfold rdm_unchunked, center_data_unchunked, calc_rdm.
  rewrite <- mapM_then_map. apply mapM_ext_in.
  intros i Hi. apply in_seq in Hi. apply row_of_unchunked. lia.
Qed.

Hypothesis rdm_row_width :
  forall cols,
    length (rdm_row method cols events)
    = n_unique events * (n_unique events - 1) / 2.

Lemma row_of_width :
  forall l rows,
    mapM (center_row zero rdm_row data_2d neighbors events method) l = Ok rows ->
    Forall (fun r => length r = n_unique events * (n_unique events - 1) / 2)
           rows.
Proof.
  induction l as [|i l IH]; intros rows H; simpl in H.
  - inversion H. constructor.
  - destruct (center_row zero rdm_row data_2d neighbors events method i) as [r|] eqn:Er; simpl in H; [|discriminate].
    destruct (mapM (center_row zero rdm_row data_2d neighbors events method) l) as [rs|]; simpl in H; [|discriminate].
    inversion H. subst. constructor; [|apply IH; reflexivity].
    unfold center_row in Er.
    destruct (getitem neighbors i); simpl in Er; [|discriminate].
    destruct (take_columns zero data_2d a); simpl in Er; [|discriminate].
    inversion Er. apply rdm_row_width.
Qed.

(** One chunk [a, ..., a + k - 1] of the chunked loop writes the rows of
    its centers into the segment of [rdm] at those positions. *)
Lemma chunk_step :
  forall a k rdm,
    a + k <= length centers ->
    a + k <= length rdm ->
    bind (center_data_chunked zero data_2d centers neighbors events (seq a k))
         (fun center_data =>
            setitem_rows rdm (n_unique events * (n_unique events - 1) / 2)
                         (seq a k) (calc_rdm rdm_row center_data method))
    = bind (mapM (center_row zero rdm_row data_2d neighbors events method) (seq a k))
           (fun rows => Ok (firstn a rdm ++ rows ++ skipn (a + k) rdm)).
Proof.
  intros a k rdm Hn Hlen. unfold center_data_chunked, calc_rdm.
  assert (Hrows : bind (mapM (dataset_chunked zero data_2d centers neighbors
                                              events) (seq a k))
                       (fun ds => Ok (map (fun d => rdm_row method
                                                      (measurements d)
                                                      (obs_descriptors_events d))
                                          ds))
                  = mapM (center_row zero rdm_row data_2d neighbors events method) (seq a k)).
  { rewrite <- mapM_then_map. apply mapM_ext_in.
    intros i Hi. apply in_seq in Hi. apply row_of_chunked. lia. }
  destruct (mapM (dataset_chunked zero data_2d centers neighbors events)
                 (seq a k))
    as [ds|e] eqn:Eds; cbn [bind] in Hrows |- *;
    rewrite <- Hrows; cbn [bind]; [|reflexivity].
  pose proof (mapM_length _ _ _ _ _ Eds) as Hds. rewrite length_seq in Hds.
  pose proof (row_of_width (seq a k) _ (eq_sym Hrows)) as Hw.
  set (rows := map _ ds) in *.
  assert (Hr : length rows = k) by (subst rows; rewrite length_map; exact Hds).
  unfold setitem_rows. rewrite length_seq.
  rewrite broadcast_2d_same by assumption. cbn [bind].
  rewrite <- Hr. rewrite setitem_segment by lia. reflexivity.
Qed.

(** The state of the chunked loop: once the chunks before position [a] are
    done, the remaining chunks fill in the rows from [a] on. *)
Lemma chunk_loop :
  forall chunks a m rdm,
    concat chunks = seq a m ->
    a + m <= length centers ->
    length rdm = a + m ->
    for_loop
      (fun rdm chunk =>
         bind (center_data_chunked zero data_2d centers neighbors events chunk)
              (fun center_data =>
                 setitem_rows rdm
                              (n_unique events * (n_unique events - 1) / 2)
                              chunk (calc_rdm rdm_row center_data method)))
      chunks rdm
    = bind (mapM (center_row zero rdm_row data_2d neighbors events method) (seq a m)) (fun rows => Ok (firstn a rdm ++ rows)).
Proof.
  induction chunks as [|c chunks IH]; intros a m rdm Hcat Hn Hlen.
  - simpl in Hcat. destruct m; [|discriminate].
    simpl. rewrite app_nil_r, firstn_all2 by lia. reflexivity.
  - cbn [concat] in Hcat.
    destruct (app_eq_seq _ _ _ _ Hcat) as (Hc & Hrest & Hk).
    revert Hc Hrest Hk. generalize (length c) as k. intros k Hc Hrest Hk.
    subst c.
    replace (seq a m) with (seq a k ++ seq (a + k) (m - k))
      by (rewrite <- seq_app; f_equal; lia).
    rewrite mapM_app. cbn [for_loop].
    rewrite chunk_step by lia.
    destruct (mapM (center_row zero rdm_row data_2d neighbors events method) (seq a k)) as [rows1|e] eqn:E1;
      cbn [bind]; [|reflexivity].
    pose proof (mapM_length _ _ _ _ _ E1) as H1. rewrite length_seq in H1.
    assert (Ha : length (firstn a rdm) = a) by (rewrite length_firstn; lia).
    rewrite (IH (a + k) (m - k)); [| exact Hrest | lia |].
    + destruct (mapM (center_row zero rdm_row data_2d neighbors events method) (seq (a + k) (m - k))) as [rows2|e];
        cbn [bind]; [|reflexivity].
      f_equal. rewrite app_assoc.
      rewrite firstn_app, length_app, Ha, H1.
      rewrite firstn_all2 by (rewrite length_app; lia).
      rewrite Nat.sub_diag, firstn_O, app_nil_r.
      rewrite <- !app_assoc. reflexivity.
    + rewrite !length_app, Ha, H1, length_skipn. lia.
Qed.

(** The chunked branch computes the same rows. *)
Lemma rdm_chunked_rows :
  rdm_chunked zero rdm_row data_2d centers neighbors events method
  = mapM (center_row zero rdm_row data_2d neighbors events method) (seq 0 (length centers)).
Proof.
  unfold rdm_chunked.
  rewrite (chunk_loop (chunked_center (length centers)) 0 (length centers)).
  - destruct (mapM (center_row zero rdm_row data_2d neighbors events method) (seq 0 (length centers))); reflexivity.
  - apply chunked_center_concat.
  - lia.
  - rewrite repeat_length. reflexivity.
Qed.

Lemma mapM_nth_error :
  forall (T U : Type) (f : T -> result U) (l : list T) (l' : list U) i a,
    mapM f l = Ok l' -> nth_error l i = Some a ->
    exists b, f a = Ok b /\ nth_error l' i = Some b.
Proof.
  induction l as [|x l IH]; intros l' i a H Hi.
  - destruct i; discriminate.
  - simpl in H. destruct (f x) as [b|] eqn:Ef; simpl in H; [|discriminate].
    destruct (mapM f l) as [bs|] eqn:Em; simpl in H; [|discriminate].
    inversion H. subst. destruct i as [|i]; simpl in Hi.
    + inversion Hi. subst. exists b. auto.
    + apply (IH bs i a eq_refl Hi).
Qed.

End BuilderFacts.

Lemma mapM_map_rel :
  forall (T U W : Type) (f : T -> result U) (g : U -> W) (h : T -> W)
         (l : list T) (l' : list U),
    (forall a b, f a = Ok b -> g b = h a) ->
    mapM f l = Ok l' -> map g l' = map h l.
Proof.
  intros T U W f g h l. induction l as [|a l IH]; intros l' Hrel H.
  - inversion H. reflexivity.
  - simpl in H. destruct (f a) as [b|] eqn:Ef; simpl in H; [|discriminate].
    destruct (mapM f l) as [bs|]; simpl in H; [|discriminate].
    inversion H. subst. simpl. rewrite (Hrel a b Ef), (IH bs Hrel eq_refl).
    reflexivity.
Qed.

Lemma pairs_diff_length :
  forall totals,
    length (pairs_diff totals) = length totals * (length totals - 1) / 2.
Proof.
  induction totals as [|t rest IH]; [reflexivity|].
  cbn [pairs_diff length].
  rewrite length_app, length_map, IH, tri_succ. reflexivity.
Qed.

Lemma total_difference_width :
  forall method cols events,
    length (total_difference method cols events)
    = n_unique events * (n_unique events - 1) / 2.
Proof.
  intros method cols events. unfold total_difference, n_unique.
  rewrite pairs_diff_length, length_map. reflexivity.
Qed.

(** ** C3 *)

(** C3: for the same observation matrix, centers, neighbours, event labels
    and method, the chunked branch of [get_searchlight_rdms] and the
    unchunked branch produce the same condensed rows (or stop on the same
    exception), and row [i] of the returned collection is the RDM of center
    [i] whatever the chunk boundaries. The RDM-computation collaborator is
    [calc_rdm] as modelled from the specification, and the measure gives
    rows of [n_cond (n_cond - 1) / 2] entries for [n_cond] distinct labels,
    the width of the array the chunked branch allocates. *)
Theorem chunking_preserves_rdms :
  forall (V : Type) (zero : V) (Method : Type)
         (rdm_row : Method -> list (list V) -> list Z -> list V)
         (data_2d : Data2d V) (centers : list Z) (neighbors : list (list Z))
         (events : list Z) (method : Method),
    (forall cols,
       length (rdm_row method cols events)
       = n_unique events * (n_unique events - 1) / 2) ->
    rdm_chunked zero rdm_row data_2d centers neighbors events method
    = rdm_unchunked zero rdm_row data_2d centers neighbors events method /\
    get_searchlight_rdms zero rdm_row data_2d centers neighbors events method
    = bind (mapM (center_row zero rdm_row data_2d neighbors events method)
                 (seq 0 (length centers)))
           (fun rdm => Ok {| dissimilarities := rdm;
                             rdm_descriptors_voxel_index := centers;
                             dissimilarity_measure := method |}) /\
    (forall rdms i,
       get_searchlight_rdms zero rdm_row data_2d centers neighbors events
                            method = Ok rdms ->
       i < length centers ->
       exists row,
         center_row zero rdm_row data_2d neighbors events method i = Ok row /\
         nth_error (dissimilarities rdms) i = Some row).
Proof.
  intros V zero Method rdm_row data_2d centers neighbors events method Hw.
  pose proof (rdm_chunked_rows V zero Method rdm_row data_2d centers neighbors
                               events method Hw) as Hc.
  pose proof (rdm_unchunked_rows V zero Method rdm_row data_2d centers
                                 neighbors events method) as Hu.
  assert (Hg : get_searchlight_rdms zero rdm_row data_2d centers neighbors
                                    events method
               = bind (mapM (center_row zero rdm_row data_2d neighbors events
                                        method)
                            (seq 0 (length centers)))
                      (fun rdm => Ok {| dissimilarities := rdm;
                                        rdm_descriptors_voxel_index := centers;
                                        dissimilarity_measure := method |})).
  { unfold get_searchlight_rdms.
    destruct (1000 <? length centers); [rewrite Hc|rewrite Hu]; reflexivity. }
  split; [congruence|]. split; [exact Hg|].
  intros rdms i Hr Hi. rewrite Hg in Hr.
  destruct (mapM _ (seq 0 (length centers))) as [rows|] eqn:Em;
    cbn [bind] in Hr; [|discriminate].
  inversion Hr. subst rdms. cbn [dissimilarities].
  destruct (mapM_nth_error _ _ _ _ _ i i Em) as [row [H1 H2]].
  - rewrite nth_error_seq. destruct (Nat.ltb_spec i (length centers)); [|lia].
    reflexivity.
  - exists row. auto.
Qed.

Lemma chunking_preserves_rdms_witness :
  rdm_chunked 0%Z total_difference example_data example_centers
              example_neighbors example_events tt
  = rdm_unchunked 0%Z total_difference example_data example_centers
                  example_neighbors example_events tt /\
  get_searchlight_rdms 0%Z total_difference example_data example_centers
                       example_neighbors example_events tt
  = bind (mapM (center_row 0%Z total_difference example_data
                           example_neighbors example_events tt)
               (seq 0 (length example_centers)))
         (fun rdm => Ok {| dissimilarities := rdm;
                           rdm_descriptors_voxel_index := example_centers;
                           dissimilarity_measure := tt |}) /\
  (forall rdms i,
     get_searchlight_rdms 0%Z total_difference example_data example_centers
                          example_neighbors example_events tt = Ok rdms ->
     i < length example_centers ->
     exists row,
       center_row 0%Z total_difference example_data example_neighbors
                  example_events tt i = Ok row /\
       nth_error (dissimilarities rdms) i = Some row).
Proof.
  apply (chunking_preserves_rdms Z 0%Z unit total_difference example_data
                                 example_centers example_neighbors
                                 example_events tt).
  intros cols. apply total_difference_width.
Defined.

(** ** C9 *)



Section DescriptorFacts.

Variable V : Type.
Variable zero : V.
Variable Method : Type.
Variable rdm_row : Method -> list (list V) -> list Z -> list V.

Variable data_2d : Data2d V.
Variable centers : list Z.
Variable neighbors : list (list Z).
Variable events : list Z.
Variable method : Method.




Hypothesis rdm_row_width :
  forall cols,
    length (rdm_row method cols events)
    = n_unique events * (n_unique events - 1) / 2.


End DescriptorFacts.



(** The descriptors of two runs: two centers take the unchunked branch and
    carry their positions, 1001 centers take the chunked branch and carry
    their flat voxel indices. *)
Example descriptors_of_two_centers :
  bind (calc_rdm_calls 0%Z example_data example_centers example_neighbors
                       example_events)
       (fun calls => Ok (map (map (@descriptors_center Z)) calls))
  = Ok [[0; 1]%Z].
Proof. reflexivity. Qed.

Example descriptors_of_1001_centers :
  bind (calc_rdm_calls 0%Z example_data (repeat 2%Z 1001)
                       (repeat [2; 1]%Z 1001) example_events)
       (fun calls => Ok (concat (map (map (@descriptors_center Z)) calls)))
  = Ok (repeat 2%Z 1001).
Proof. vm_compute. reflexivity. Qed.

(** ** The parallel model evaluator *)

Lemma skipn_cons_nth_error :
  forall (T : Type) (l : list T) k y rest,
    skipn k l = y :: rest ->
    nth_error l k = Some y /\ skipn (S k) l = rest.
Proof.
  intros T l. induction l as [|a l IH]; intros k y rest H.
  - destruct k; discriminate.
  - destruct k as [|k].
    + inversion H. auto.
    + apply IH. exact H.
Qed.

Lemma firstn_S_nth_error :
  forall (T : Type) (l : list T) k y,
    nth_error l k = Some y -> firstn (S k) l = firstn k l ++ [y].
Proof.
  intros T l. induction l as [|a l IH]; intros k y H.
  - destruct k; discriminate.
  - destruct k as [|k].
    + inversion H. reflexivity.
    + cbn [firstn app]. f_equal. apply IH. exact H.
Qed.

Section EvaluatorFacts.

Variables Models RDM MethodName Theta Res : Type.
Variable eval_function : Models -> RDM -> MethodName -> Theta -> result Res.
Variable models : Models.
Variable method : MethodName.
Variable theta : Theta.
Variable sl_rdm : list RDM.

Lemma submit_inv : pool_inv eval_function models method theta sl_rdm (submit sl_rdm).
Proof.
  exists 0. cbn [submit queue active finished call_log skipn firstn].
  rewrite Nat.sub_0_r. repeat split; try lia; try contradiction.
Qed.

Lemma step_inv :
  forall n_jobs p p',
    pool_inv eval_function models method theta sl_rdm p ->
    step eval_function models method theta n_jobs p (Running p') ->
    pool_inv eval_function models method theta sl_rdm p'.
Proof.
  intros n_jobs p p' (k & Hk & Hq & Hlog & Hact & Hfin & Hcov) Hstep.
  inversion Hstep; subst; cbn [queue active finished call_log] in *.
  - (* a task is dispatched *)
    destruct (length sl_rdm - k) as [|m] eqn:Em; [discriminate|].
    destruct (skipn k sl_rdm) as [|y rest] eqn:Es; [discriminate|].
    cbn [seq combine] in Hq. inversion Hq. subst.
    destruct (skipn_cons_nth_error _ _ _ _ _ Es) as [Hy Hrest].
    exists (S k). cbn [queue active finished call_log]. repeat split.
    + lia.
    + rewrite Hrest. replace (length sl_rdm - S k) with m by lia. reflexivity.
    + rewrite (firstn_S_nth_error _ _ _ _ Hy). reflexivity.
    + intros i x Hin. apply in_app_or in Hin. destruct Hin as [Hin|[E|[]]].
      * apply Hact, Hin.
      * inversion E. subst. exact Hy.
    + exact Hfin.
    + intros i Hi. rewrite map_app, in_app_iff. cbn [map fst In].
      destruct (Nat.eq_dec i k) as [->|Hne]; [left; right; left; reflexivity|].
      destruct (Hcov i) as [H|H]; [lia|left; left; exact H|right; exact H].
  - (* a running task completes *)
    exists k. cbn [queue active finished call_log].
    repeat split; try assumption; try reflexivity.
    + intros j y Hin. apply Hact. apply in_app_or in Hin.
      apply in_or_app. destruct Hin; [left|right; right]; assumption.
    + intros j r' [E|Hin]; [|apply Hfin, Hin].
      inversion E. subst. exists x. split; [|assumption].
      apply Hact. apply in_or_app. right. left. reflexivity.
    + intros j Hj. destruct (Hcov j Hj) as [H|H].
      * rewrite map_app, in_app_iff in H. cbn [map fst In] in H.
        rewrite map_app, in_app_iff. cbn [map fst In].
        destruct H as [H|[H|H]]; auto.
      * right. right. exact H.
Qed.

Lemma run_inv :
  forall n_jobs p o,
    run eval_function models method theta n_jobs p o ->
    forall p', o = Running p' ->
    pool_inv eval_function models method theta sl_rdm p ->
    pool_inv eval_function models method theta sl_rdm p'.
Proof.
  intros n_jobs p o Hrun. induction Hrun as [p|p e Hs|p q o Hs Hrun IH];
    intros p' Ho Hinv.
  - inversion Ho. subst. exact Hinv.
  - discriminate.
  - apply IH; [exact Ho|]. apply (step_inv n_jobs p q Hinv Hs).
Qed.

Lemma lookup_in :
  forall i (f : list (nat * Res)),
    In i (map fst f) -> exists r, lookup i f = Some r /\ In (i, r) f.
Proof.
  intros i f. induction f as [|[j r] f IH]; intros Hin; [contradiction|].
  cbn [lookup]. destruct (Nat.eqb_spec i j) as [->|Hne].
  - exists r. split; [reflexivity|left; reflexivity].
  - destruct Hin as [E|Hin]; [simpl in E; congruence|].
    destruct (IH Hin) as [r' [H1 H2]]. exists r'. split; [exact H1|].
    right. exact H2.
Qed.

(** Retrieval by position gives the results in the order of the rows. *)
Lemma retrieve_all :
  forall (f : list (nat * Res)) (l : list RDM) offset,
    (forall j x, nth_error l j = Some x ->
       exists r, lookup (offset + j) f = Some r /\
                 eval_function models x method theta = Ok r) ->
    exists results,
      mapM (fun x => eval_function models x method theta) l = Ok results /\
      retrieve (seq offset (length l)) f = Some results.
Proof.
  intros f l. induction l as [|x l IH]; intros offset H.
  - exists []. split; reflexivity.
  - destruct (H 0 x eq_refl) as [r [Hl He]]. rewrite Nat.add_0_r in Hl.
    destruct (IH (S offset)) as [rs [Hm Hr]].
    { intros j y Hj. destruct (H (S j) y Hj) as [r' [Hl' He']].
      exists r'. split; [|exact He'].
      rewrite <- Hl'. f_equal. lia. }
    exists (r :: rs). cbn [mapM length seq retrieve].
    rewrite He, Hm, Hl, Hr. split; reflexivity.
Qed.

(** A state with no queued and no running task holds the result of every
    row, and the evaluation function was invoked on the rows in order. *)
Lemma terminal_pool :
  forall p,
    pool_inv eval_function models method theta sl_rdm p ->
    queue p = [] -> active p = [] ->
    call_log p = sl_rdm /\
    exists results,
      mapM (fun x => eval_function models x method theta) sl_rdm = Ok results /\
      retrieve (seq 0 (length sl_rdm)) (finished p) = Some results.
Proof.
  intros p (k & Hk & Hq & Hlog & Hact & Hfin & Hcov) Hqe Hae.
  assert (Hkn : k = length sl_rdm).
  { rewrite Hqe in Hq.
    destruct (length sl_rdm - k) as [|m] eqn:Em; [lia|].
    destruct (skipn k sl_rdm) as [|y rest] eqn:Es; [|discriminate].
    apply (f_equal (@length RDM)) in Es. rewrite length_skipn in Es.
    simpl in Es. lia. }
  subst k. split; [rewrite Hlog; apply firstn_all|].
  apply retrieve_all. intros j x Hj. cbn [Nat.add].
  assert (Hjn : j < length sl_rdm) by (apply nth_error_Some; congruence).
  destruct (Hcov j Hjn) as [H|H]; [rewrite Hae in H; contradiction|].
  destruct (lookup_in j _ H) as [r [Hl Hin]].
  exists r. split; [exact Hl|].
  destruct (Hfin j r Hin) as [x' [Hx' He]]. congruence.
Qed.

(** The sequential schedule: dispatch a task, let it complete, and so on. *)
Lemma sequential_run :
  forall n_jobs q f log,
    1 <= n_jobs ->
    (forall i x, In (i, x) q ->
       exists r, eval_function models x method theta = Ok r) ->
    exists f',
      run eval_function models method theta n_jobs
          {| queue := q; active := []; finished := f; call_log := log |}
          (Running {| queue := []; active := []; finished := f';
                      call_log := log ++ map snd q |}).
Proof.
  intros n_jobs q. induction q as [|[i x] q IH]; intros f log Hn Hq.
  - exists f. cbn [map]. rewrite app_nil_r. constructor.
  - destruct (Hq i x (or_introl eq_refl)) as [r Hr].
    destruct (IH ((i, r) :: f) (log ++ [x]) Hn) as [f' Hrun].
    { intros j y Hin. apply (Hq j y). right. exact Hin. }
    exists f'. cbn [map snd].
    replace (log ++ x :: map snd q) with ((log ++ [x]) ++ map snd q)
      by (rewrite <- app_assoc; reflexivity).
    eapply run_next.
    { apply step_dispatch. simpl. lia. }
    eapply run_next; [|exact Hrun].
    exact (@step_complete _ _ _ _ _ eval_function models method theta n_jobs
                          i x r q [] [] f (log ++ [x]) Hr).
Qed.

Lemma mapM_ok_each :
  forall (l : list RDM) results x,
    mapM (fun x => eval_function models x method theta) l = Ok results ->
    In x l -> exists r, eval_function models x method theta = Ok r.
Proof.
  induction l as [|a l IH]; intros results x H Hin; [contradiction|].
  simpl in H.
  destruct (eval_function models a method theta) as [r|] eqn:E;
    simpl in H; [|discriminate].
  destruct (mapM _ l) as [rs|]; simpl in H; [|discriminate].
  destruct Hin as [->|Hin]; [exists r; exact E|].
  apply (IH rs x eq_refl Hin).
Qed.

End EvaluatorFacts.

(** ** C8 *)

(** C8: with at least one worker, [evaluate_models_searchlight] returns
    exactly the results of the evaluation function on the one-row RDMs, in
    the order of the rows, having invoked the function once per row in that
    order, whatever the schedule of the pool; so the returned list is the
    same for 1 worker and for 4. The evaluation function is deterministic,
    and a call that raises fails the batch. *)
Theorem evaluation_follows_row_order :
  forall (Models RDM MethodName Theta Res : Type)
         (eval_function : Models -> RDM -> MethodName -> Theta -> result Res)
         (models : Models) (method : MethodName) (theta : Theta)
         (sl_rdm : list RDM) (n_jobs : nat),
    1 <= n_jobs ->
    (forall results calls,
       evaluate_models_searchlight eval_function models method theta
                                   sl_rdm n_jobs results calls <->
       mapM (fun x => eval_function models x method theta) sl_rdm = Ok results
       /\ calls = sl_rdm) /\
    (forall results1 calls1 results4 calls4,
       evaluate_models_searchlight eval_function models method theta
                                   sl_rdm 1 results1 calls1 ->
       evaluate_models_searchlight eval_function models method theta
                                   sl_rdm 4 results4 calls4 ->
       results1 = results4 /\ calls1 = calls4).
Proof.
  intros Models RDM MethodName Theta Res eval_function models method theta
         sl_rdm n_jobs Hn.
  assert (Hsound : forall n results calls,
             evaluate_models_searchlight eval_function models method theta
                                         sl_rdm n results calls ->
             mapM (fun x => eval_function models x method theta) sl_rdm
             = Ok results /\ calls = sl_rdm).
  { intros n results calls (p & Hrun & Hq & Ha & Hret & Hlog).
    pose proof (run_inv _ _ _ _ _ eval_function models method theta sl_rdm
                        n _ _ Hrun p eq_refl
                        (submit_inv _ _ _ _ _ eval_function models method
                                    theta sl_rdm)) as Hinv.
    destruct (terminal_pool _ _ _ _ _ eval_function models method theta
                            sl_rdm p Hinv Hq Ha) as [Hl [rs [Hm Hr]]].
    split; congruence. }
  split.
  - intros results calls. split; [apply Hsound|].
    intros [Hm ->].
    destruct (sequential_run _ _ _ _ _ eval_function models method theta
                             n_jobs (combine (seq 0 (length sl_rdm)) sl_rdm)
                             [] [] Hn) as [f' Hrun].
    { intros i x Hin. apply in_combine_r in Hin.
      apply (mapM_ok_each _ _ _ _ _ eval_function models method theta
                          sl_rdm results x Hm Hin). }
    pose proof (run_inv _ _ _ _ _ eval_function models method theta sl_rdm
                        n_jobs _ _ Hrun _ eq_refl
                        (submit_inv _ _ _ _ _ eval_function models method
                                    theta sl_rdm)) as Hinv.
    destruct (terminal_pool _ _ _ _ _ eval_function models method theta
                            sl_rdm _ Hinv eq_refl eq_refl)
      as [Hl [rs [Hm' Hr]]].
    eexists. split; [exact Hrun|].
    cbn [queue active finished call_log] in *.
    repeat split; congruence.
  - intros results1 calls1 results4 calls4 H1 H4.
    destruct (Hsound 1 _ _ H1) as [Hm1 ->].
    destruct (Hsound 4 _ _ H4) as [Hm4 ->].
    split; congruence.
Qed.

Lemma evaluation_follows_row_order_witness :
  (forall results calls,
     evaluate_models_searchlight square_eval tt tt tt [3; 1; 2] 4
                                 results calls <->
     mapM (fun x => square_eval tt x tt tt) [3; 1; 2] = Ok results
     /\ calls = [3; 1; 2]) /\
  (forall results1 calls1 results4 calls4,
     evaluate_models_searchlight square_eval tt tt tt [3; 1; 2] 1
                                 results1 calls1 ->
     evaluate_models_searchlight square_eval tt tt tt [3; 1; 2] 4
                                 results4 calls4 ->
     results1 = results4 /\ calls1 = calls4).
Proof.
  apply (evaluation_follows_row_order unit nat unit unit nat square_eval
                                      tt tt tt [3; 1; 2] 4).
  lia.
Defined.

(** * Further properties *)

(** ** The conversions *)

Lemma mapM_nth_ext :
  forall (T U : Type) (f : T -> result U) (d : T) (l l' : list T),
    length l = length l' ->
    (forall k, k < length l -> f (nth k l d) = f (nth k l' d)) ->
    mapM f l = mapM f l'.
Proof.
  intros T U f d l. induction l as [|a l IH]; intros [|a' l'] Hlen H;
    try discriminate; [reflexivity|].
  cbn [mapM]. pose proof (H 0 (Nat.lt_0_succ _)) as H0. cbn [nth] in H0.
  rewrite H0. rewrite (IH l'); [reflexivity|simpl in Hlen; lia|].
  intros k Hk. apply (H (S k)). simpl. lia.
Qed.

Section ConversionFacts.

Variable A : Type.
Variable zero : A.

(** The matrix [squareform] builds is symmetric with a zero diagonal. *)
Lemma squareform_symmetric :
  forall d (v : list A),
    symmetric_zero_diagonal zero d (to_squareform_from_vector zero d v).
Proof.
  intros d v. destruct (squareform_shape A zero d v) as [Hlen Hrows].
  split; [exact Hlen|]. split; [exact Hrows|].
  unfold to_squareform_from_vector. split.
  - intros i j Hi Hj.
    rewrite !(nth_map_seq _ _ [] d) by assumption.
    rewrite !(nth_map_seq _ _ zero d) by assumption.
    destruct (Nat.ltb_spec i j) as [Hij|Hij];
      destruct (Nat.ltb_spec j i) as [Hji|Hji]; try lia; reflexivity.
  - intros i Hi.
    rewrite (nth_map_seq _ _ [] d), (nth_map_seq _ _ zero d) by assumption.
    rewrite Nat.ltb_irrefl. reflexivity.
Qed.

(** The condensed form reads a matrix only above its diagonal. *)
Lemma vector_reads_upper_triangle :
  forall n (M M' : list (list A)),
    (forall i, i < n -> length (nth i M []) = length (nth i M' [])) ->
    (forall i j, i < j -> j < n ->
       nth j (nth i M []) zero = nth j (nth i M' []) zero) ->
    (forall i, i < n -> length (nth i M []) = n) ->
    to_vector_from_squareform n M = to_vector_from_squareform n M'.
Proof.
  intros n M M' Hlen Hup Hn. unfold to_vector_from_squareform.
  apply flat_map_ext_in. intros i Hi. apply in_seq in Hi.
  apply nth_ext with (d := zero) (d' := zero).
  - rewrite !length_skipn, Hlen by lia. reflexivity.
  - intros k Hk. rewrite length_skipn, Hn in Hk by lia.
    rewrite !nth_skipn_add. apply Hup; lia.
Qed.

End ConversionFacts.

(** X1: for every condensed stack of triangular width, [batch_to_matrices]
    returns one matrix per row, each [n_cond x n_cond], symmetric and with a
    zero diagonal. *)
Theorem batch_to_matrices_symmetric :
  forall (A : Type) (zero : A) (w : nat) (rows : list (list A)),
    triangular w ->
    Forall (fun r => length r = w) rows ->
    exists mats,
      batch_to_matrices zero (Arr2 w rows)
      = Ok (Arr3 (get_n_from_reduced_vectors w) (get_n_from_reduced_vectors w)
                 mats,
            length rows, get_n_from_reduced_vectors w) /\
      length mats = length rows /\
      Forall (symmetric_zero_diagonal zero (get_n_from_reduced_vectors w)) mats.
Proof.
  intros A zero w rows Hw Hrows. rewrite Forall_forall in Hrows.
  exists (map (fun v => if w =? 0 then []
                        else to_squareform_from_vector
                               zero (get_n_from_reduced_vectors w) v) rows).
  split; [|split].
  - unfold batch_to_matrices.
    rewrite mapM_pointwise
      with (h := fun v => if w =? 0 then []
                          else to_squareform_from_vector
                                 zero (get_n_from_reduced_vectors w) v)
      by (intros v Hv; apply row_to_matrix; auto).
    reflexivity.
  - apply length_map.
  - apply Forall_forall. intros M HM. apply in_map_iff in HM.
    destruct HM as [v [<- _]].
    destruct (Nat.eqb_spec w 0) as [->|Hw0].
    + change (get_n_from_reduced_vectors 0) with 0.
      split; [reflexivity|]. split; [constructor|]. split; intros; lia.
    + apply squareform_symmetric.
Qed.

Lemma batch_to_matrices_symmetric_witness :
  exists mats,
    batch_to_matrices 0%Z (Arr2 3 [[5; 7; 9]; [1; 2; 3]]%Z)
    = Ok (Arr3 (get_n_from_reduced_vectors 3) (get_n_from_reduced_vectors 3)
               mats,
          length [[5; 7; 9]; [1; 2; 3]]%Z, get_n_from_reduced_vectors 3) /\
    length mats = length [[5; 7; 9]; [1; 2; 3]]%Z /\
    Forall (symmetric_zero_diagonal 0%Z (get_n_from_reduced_vectors 3)) mats.
Proof.
  apply (batch_to_matrices_symmetric Z 0%Z 3 [[5; 7; 9]; [1; 2; 3]]%Z).
  - exists 3. reflexivity.
  - repeat constructor.
Defined.

(** X2: [batch_to_vectors] does not look at the diagonal or below it
    ([squareform] runs with [checks=False]): two stacks of [n x n] matrices
    that agree above the diagonal convert to the same result. *)
Theorem batch_to_vectors_reads_upper_triangle :
  forall (A : Type) (zero : A) (n : nat) (mats mats' : list (list (list A))),
    length mats = length mats' ->
    Forall (fun M => length M = n /\ Forall (fun r => length r = n) M) mats ->
    Forall (fun M => length M = n /\ Forall (fun r => length r = n) M) mats' ->
    (forall k i j, i < j -> j < n ->
       nth j (nth i (nth k mats []) []) zero
       = nth j (nth i (nth k mats' []) []) zero) ->
    batch_to_vectors (Arr3 n n mats) = batch_to_vectors (Arr3 n n mats').
Proof.
  intros A zero n mats mats' Hlen Hwf Hwf' Hup. unfold batch_to_vectors.
  rewrite <- Hlen.
  rewrite (mapM_nth_ext _ _ _ [] mats mats' Hlen); [reflexivity|].
  intros k Hk. unfold squareform_matrix. rewrite Nat.eqb_refl. cbn [negb].
  destruct (n <=? 1); [reflexivity|].
  rewrite Forall_forall in Hwf, Hwf'.
  destruct (Hwf (nth k mats [])) as [HM HMr]; [apply nth_In; lia|].
  destruct (Hwf' (nth k mats' [])) as [HM' HMr']; [apply nth_In; lia|].
  rewrite Forall_forall in HMr, HMr'.
  rewrite (vector_reads_upper_triangle A zero n (nth k mats []) (nth k mats' []));
    [reflexivity| | |].
  - intros i Hi. rewrite HMr, HMr' by (apply nth_In; lia). reflexivity.
  - intros i j Hij Hj. apply Hup; assumption.
  - intros i Hi. apply HMr, nth_In. lia.
Qed.

Lemma batch_to_vectors_reads_upper_triangle_witness :
  batch_to_vectors (Arr3 2 2 [[[0; 4]; [4; 0]]%Z])
  = batch_to_vectors (Arr3 2 2 [[[7; 4]; [9; 8]]%Z]).
Proof.
  apply (batch_to_vectors_reads_upper_triangle
           Z 0%Z 2 [[[0; 4]; [4; 0]]%Z] [[[7; 4]; [9; 8]]%Z]).
  - reflexivity.
  - repeat constructor.
  - repeat constructor.
  - intros [|k] [|[|i]] [|[|j]] Hij Hj; try lia; try reflexivity;
      destruct k; reflexivity.
Defined.



(** X4: on two condensed stacks of triangular widths,
    [check_equal_dimension] passes exactly when the two stacks have the same
    number of conditions, and raises [ValueError] otherwise. *)
Theorem check_equal_dimension_conditions :
  forall (A : Type) (w1 w2 : nat) (rows1 rows2 : list (list A)),
    triangular w1 ->
    triangular w2 ->
    (check_equal_dimension (Arr2 w1 rows1) (Arr2 w2 rows2) = Ok tt <->
     get_n_from_reduced_vectors w1 = get_n_from_reduced_vectors w2) /\
    (get_n_from_reduced_vectors w1 <> get_n_from_reduced_vectors w2 ->
     check_equal_dimension (Arr2 w1 rows1) (Arr2 w2 rows2) = Raise ValueError).
Proof.
  intros A w1 w2 rows1 rows2 H1 H2. unfold check_equal_dimension.
  cbn [shape1 bind].
  assert (Hiff : w1 = w2 <->
                 get_n_from_reduced_vectors w1 = get_n_from_reduced_vectors w2).
  { split; [intros ->; reflexivity|]. intros E.
    rewrite <- (get_n_half w1 H1), <- (get_n_half w2 H2), E. reflexivity. }
  destruct (Nat.eqb_spec w1 w2) as [E|E]; cbn [negb]; split.
  - split; [intros _; apply Hiff, E|reflexivity].
  - intros Hne. exfalso. apply Hne, Hiff, E.
  - split; [discriminate|]. intros Hn. exfalso. apply E, Hiff, Hn.
  - reflexivity.
Qed.

Lemma check_equal_dimension_conditions_witness :
  (check_equal_dimension (Arr2 3 [[1; 2; 3]%Z]) (Arr2 6 [[1; 2; 3; 4; 5; 6]%Z])
   = Ok tt <->
   get_n_from_reduced_vectors 3 = get_n_from_reduced_vectors 6) /\
  (get_n_from_reduced_vectors 3 <> get_n_from_reduced_vectors 6 ->
   check_equal_dimension (Arr2 3 [[1; 2; 3]%Z]) (Arr2 6 [[1; 2; 3; 4; 5; 6]%Z])
   = Raise ValueError).
Proof.
  apply (check_equal_dimension_conditions
           Z 3 6 [[1; 2; 3]%Z] [[1; 2; 3; 4; 5; 6]%Z]).
  - exists 3. reflexivity.
  - exists 4. reflexivity.
Defined.

(** ** The neighbourhood finder *)

Lemma NoDup_arange : forall n, NoDup (arange n).
Proof.
  intros n. unfold arange. apply NoDup_map_NoDup_ForallPairs.
  - intros x y _ _ H. lia.
  - apply seq_NoDup.
Qed.

Lemma NoDup_meshgrid_points :
  forall x y z, NoDup x -> NoDup y -> NoDup z -> NoDup (meshgrid_points x y z).
Proof.
  intros x y z Hx Hy Hz. unfold meshgrid_points.
  induction Hy as [|b y Hb Hy IH]; cbn [flat_map]; [constructor|].
  apply NoDup_app.
  - clear IH Hb. induction Hx as [|a x Ha Hx IHx]; cbn [flat_map]; [constructor|].
    apply NoDup_app.
    + apply NoDup_map_NoDup_ForallPairs; [|exact Hz].
      intros c c' _ _ H. inversion H. reflexivity.
    + exact IHx.
    + intros p Hp Hp'. apply in_map_iff in Hp. destruct Hp as [c [<- _]].
      apply in_flat_map in Hp'. destruct Hp' as [a' [Ha' Hp']].
      apply in_map_iff in Hp'. destruct Hp' as [c' [E _]].
      inversion E. subst. contradiction.
  - exact IH.
  - intros p Hp Hp'.
    apply in_flat_map in Hp. destruct Hp as [a [_ Hp]].
    apply in_map_iff in Hp. destruct Hp as [c [<- _]].
    apply in_flat_map in Hp'. destruct Hp' as [b' [Hb' Hp']].
    apply in_flat_map in Hp'. destruct Hp' as [a' [_ Hp']].
    apply in_map_iff in Hp'. destruct Hp' as [c' [E _]].
    inversion E. subst. contradiction.
Qed.

Lemma length_meshgrid_points :
  forall x y z,
    length (meshgrid_points x y z) = length y * (length x * length z).
Proof.
  intros x y z. unfold meshgrid_points.
  induction y as [|b y IH]; simpl; [reflexivity|].
  rewrite length_app. apply f_equal2; [|exact IH]. clear IH.
  induction x as [|a x IHx]; simpl; [reflexivity|].
  rewrite length_app, length_map. apply f_equal2; [reflexivity|exact IHx].
Qed.

(** Along one axis the bounding-box prefilter keeps at most [2 r - 1]
    positions. *)
Lemma axis_filter_length :
  forall n c radius,
    (1 <= radius)%Z ->
    (Z.of_nat (length (filter (fun a => Z.abs (a - c) <? radius)%Z (arange n)))
     <= 2 * radius - 1)%Z.
Proof.
  intros n c radius Hr.
  set (l := filter _ (arange n)).
  set (l' := map (fun k => c - radius + 1 + Z.of_nat k)%Z
                 (seq 0 (Z.to_nat (2 * radius - 1)))).
  assert (Hincl : incl l l').
  { intros a Ha. apply filter_In in Ha. destruct Ha as [_ Ha].
    apply Z.ltb_lt in Ha. apply in_map_iff.
    exists (Z.to_nat (a - c + radius - 1)). split; [lia|].
    apply in_seq. lia. }
  assert (Hnd : NoDup l) by (apply NoDup_filter, NoDup_arange).
  pose proof (NoDup_incl_length Hnd Hincl) as Hlen.
  unfold l' in Hlen. rewrite length_map, length_seq in Hlen. lia.
Qed.

Lemma filter_none :
  forall (T : Type) (f : T -> bool) (l : list T),
    (forall a, In a l -> f a = false) -> filter f l = [].
Proof.
  intros T f l H. induction l as [|a l IH]; [reflexivity|].
  cbn [filter]. rewrite (H a (or_introl eq_refl)).
  apply IH. intros b Hb. apply H. right. exact Hb.
Qed.

Lemma filter_only :
  forall (l : list Z) c,
    NoDup l -> In c l -> filter (fun a => a =? c)%Z l = [c].
Proof.
  intros l c Hnd. induction Hnd as [|a l Ha Hnd IH]; intros Hin;
    [contradiction|].
  cbn [filter]. destruct (Z.eqb_spec a c) as [->|Hne].
  - f_equal. apply filter_none. intros b Hb.
    apply Z.eqb_neq. intros ->. contradiction.
  - destruct Hin as [E|Hin]; [contradiction|]. apply IH, Hin.
Qed.

Lemma sqdist_sym : forall p c, sqdist p c = sqdist c p.
Proof. intros [[px py] pz] [[cx cy] cz]. unfold sqdist. ring. Qed.

(** X5: the returned coordinate arrays have the same length and list no
    coordinate twice. *)
Theorem neighbors_distinct :
  forall (mask : Mask) (center : coord) (radius : Z),
    NoDup (zip3 (_get_searchlight_neighbors mask center radius)) /\
    length (fst (fst (_get_searchlight_neighbors mask center radius)))
    = length (zip3 (_get_searchlight_neighbors mask center radius)) /\
    length (snd (fst (_get_searchlight_neighbors mask center radius)))
    = length (zip3 (_get_searchlight_neighbors mask center radius)) /\
    length (snd (_get_searchlight_neighbors mask center radius))
    = length (zip3 (_get_searchlight_neighbors mask center radius)).
Proof.
  intros mask center radius. split.
  - destruct center as [[cx cy] cz]. unfold _get_searchlight_neighbors.
    destruct (shape mask) as [[s0 s1] s2].
    rewrite zip3_transpose3.
    apply NoDup_filter, NoDup_meshgrid_points;
      apply NoDup_filter, NoDup_arange.
  - rewrite (neighbors_transpose3 mask center radius) at 1 3 5.
    unfold transpose3. cbn [fst snd]. rewrite !length_map. auto.
Qed.

(** X6: neighbourhoods are symmetric: of two voxels of the grid, one is in
    the searchlight of the other exactly when the other is in its own. *)
Theorem neighbors_symmetric :
  forall (mask : Mask) (p c : coord) (radius : Z),
    in_bounds (shape mask) p ->
    in_bounds (shape mask) c ->
    (In p (zip3 (_get_searchlight_neighbors mask c radius)) <->
     In c (zip3 (_get_searchlight_neighbors mask p radius))).
Proof.
  intros mask p c radius Hp Hc. rewrite !In_neighbors.
  unfold distance_lt. rewrite (sqdist_sym p c). tauto.
Qed.

Lemma neighbors_symmetric_witness :
  In (0, 1, 0)%Z (zip3 (_get_searchlight_neighbors (ones 2 2 2) (1, 1, 1)%Z 2))
  <->
  In (1, 1, 1)%Z (zip3 (_get_searchlight_neighbors (ones 2 2 2) (0, 1, 0)%Z 2)).
Proof.
  apply (neighbors_symmetric (ones 2 2 2) (0, 1, 0)%Z (1, 1, 1)%Z 2);
    simpl; lia.
Defined.

(** X7: a searchlight of integer radius [r >= 1] has at most [(2 r - 1)^3]
    voxels. *)
Theorem neighbors_count_bound :
  forall (mask : Mask) (center : coord) (radius : Z),
    (1 <= radius)%Z ->
    (Z.of_nat (length (zip3 (_get_searchlight_neighbors mask center radius)))
     <= (2 * radius - 1) * (2 * radius - 1) * (2 * radius - 1))%Z.
Proof.
  intros mask [[cx cy] cz] radius Hr. unfold _get_searchlight_neighbors.
  destruct (shape mask) as [[s0 s1] s2]. rewrite zip3_transpose3.
  pose proof (axis_filter_length s0 cx radius Hr) as Hx.
  pose proof (axis_filter_length s1 cy radius Hr) as Hy.
  pose proof (axis_filter_length s2 cz radius Hr) as Hz.
  set (x := filter _ (arange s0)) in *.
  set (y := filter _ (arange s1)) in *.
  set (z := filter _ (arange s2)) in *.
  pose proof (filter_length_le (fun p => distance_lt p (cx, cy, cz) radius)
                               (meshgrid_points x y z)) as Hf.
  rewrite length_meshgrid_points in Hf.
  apply Nat2Z.inj_le in Hf. rewrite !Nat2Z.inj_mul in Hf.
  pose proof (Nat2Z.is_nonneg (length x)).
  pose proof (Nat2Z.is_nonneg (length y)).
  pose proof (Nat2Z.is_nonneg (length z)).
  eapply Z.le_trans; [exact Hf|].
  assert (Hxz : (Z.of_nat (length x) * Z.of_nat (length z)
                 <= (2 * radius - 1) * (2 * radius - 1))%Z)
    by (apply Z.mul_le_mono_nonneg; lia).
  rewrite (Z.mul_comm (Z.of_nat (length y))).
  apply Z.mul_le_mono_nonneg; lia.
Qed.

Lemma neighbors_count_bound_witness :
  (Z.of_nat (length (zip3 (_get_searchlight_neighbors
                             (ones 5 5 5) (2, 2, 2)%Z 2)))
   <= (2 * 2 - 1) * (2 * 2 - 1) * (2 * 2 - 1))%Z.
Proof.
  apply (neighbors_count_bound (ones 5 5 5) (2, 2, 2)%Z 2). lia.
Defined.

Lemma neighbors_nonpositive_radius :
  forall (mask : Mask) (center : coord) (radius : Z),
    (radius <= 0)%Z ->
    _get_searchlight_neighbors mask center radius = ([], [], []).
Proof.
  intros mask [[cx cy] cz] radius Hr. unfold _get_searchlight_neighbors.
  destruct (shape mask) as [[s0 s1] s2].
  assert (Hax : forall n c,
              filter (fun a => Z.abs (a - c) <? radius)%Z (arange n) = []).
  { intros n c. apply filter_none. intros a _. apply Z.ltb_ge. lia. }
  rewrite !Hax. reflexivity.
Qed.

(** X8: with radius 1 the searchlight of a voxel of the grid is that voxel
    alone (the distance test is strict). *)
Theorem neighbors_radius_one :
  forall (mask : Mask) (center : coord),
    in_bounds (shape mask) center ->
    zip3 (_get_searchlight_neighbors mask center 1) = [center].
Proof.
  intros mask [[cx cy] cz]. unfold _get_searchlight_neighbors, in_bounds.
  destruct (shape mask) as [[s0 s1] s2].
  intros (Hx & Hy & Hz). rewrite zip3_transpose3.
  assert (Hax : forall n c, (0 <= c < Z.of_nat n)%Z ->
              filter (fun a => Z.abs (a - c) <? 1)%Z (arange n) = [c]).
  { intros n c Hc. rewrite <- (filter_only (arange n) c).
    - apply filter_ext. intros a.
      destruct (Z.ltb_spec (Z.abs (a - c)) 1);
        destruct (Z.eqb_spec a c); lia.
    - apply NoDup_arange.
    - apply In_arange. exact Hc. }
  rewrite !Hax by assumption. cbn [meshgrid_points flat_map map app filter].
  unfold distance_lt, sqdist.
  replace ((cx - cx) * (cx - cx) + (cy - cy) * (cy - cy)
           + (cz - cz) * (cz - cz))%Z with 0%Z by ring.
  reflexivity.
Qed.

Lemma neighbors_radius_one_witness :
  zip3 (_get_searchlight_neighbors (ones 3 3 3) (1, 2, 0)%Z 1) = [(1, 2, 0)%Z].
Proof.
  apply (neighbors_radius_one (ones 3 3 3) (1, 2, 0)%Z). simpl. lia.
Defined.

(** ** The searchlight enumerator *)

(** Distinct voxels of the grid have distinct flat indices. *)
Lemma flat_index_injective :
  forall shp c c',
    in_bounds shp c -> in_bounds shp c' ->
    flat_index shp c = flat_index shp c' -> c = c'.
Proof.
  intros [[nx ny] nz] [[x y] z] [[x' y'] z'] (Hx & Hy & Hz) (Hx' & Hy' & Hz') H.
  unfold flat_index in H.
  destruct (Z.div_mod_unique (Z.of_nat nz) (x * Z.of_nat ny + y)
                             (x' * Z.of_nat ny + y') z z') as [H1 H2];
    [left; lia|left; lia|lia|].
  destruct (Z.div_mod_unique (Z.of_nat ny) x x' y y') as [H3 H4];
    [left; lia|left; lia|lia|].
  subst. reflexivity.
Qed.

Lemma arange_succ : forall n, arange (S n) = arange n ++ [Z.of_nat n].
Proof.
  intros n. unfold arange. rewrite seq_S, map_app. reflexivity.
Qed.

Lemma seq_offset :
  forall n m, seq m n = map (fun i => m + i) (seq 0 n).
Proof.
  induction n as [|n IH]; intros m; simpl; [reflexivity|].
  f_equal; [lia|].
  rewrite (IH (S m)), <- (seq_shift n 0), map_map.
  apply map_ext. intros i. lia.
Qed.

Lemma arange_add :
  forall m n,
    arange (m + n) = arange m ++ map (fun b => Z.of_nat m + b)%Z (arange n).
Proof.
  intros m n. unfold arange. rewrite seq_app, map_app, map_map. f_equal.
  cbn [Nat.add]. rewrite (seq_offset n m), map_map.
  apply map_ext. intros a. lia.
Qed.

(** Two nested ranges in row-major order enumerate one range. *)
Lemma arange_nested :
  forall m n,
    flat_map (fun a => map (fun b => a * Z.of_nat n + b)%Z (arange n)) (arange m)
    = arange (m * n).
Proof.
  intros m n. induction m as [|m IH]; [reflexivity|].
  rewrite arange_succ, flat_map_app, IH. cbn [flat_map].
  rewrite app_nil_r. replace (S m * n) with (m * n + n) by lia.
  rewrite arange_add. f_equal. apply map_ext. intros b. lia.
Qed.

Lemma map_of_flat_map :
  forall (T U W : Type) (f : U -> W) (g : T -> list U) (l : list T),
    map f (flat_map g l) = flat_map (fun a => map f (g a)) l.
Proof.
  intros T U W f g l. induction l as [|a l IH]; simpl; [reflexivity|].
  rewrite map_app, IH. reflexivity.
Qed.

Lemma flat_map_of_flat_map :
  forall (T U W : Type) (g : U -> list W) (f : T -> list U) (l : list T),
    flat_map g (flat_map f l) = flat_map (fun a => flat_map g (f a)) l.
Proof.
  intros T U W g f l. induction l as [|a l IH]; simpl; [reflexivity|].
  rewrite flat_map_app, IH. reflexivity.
Qed.

Lemma flat_map_of_map :
  forall (T U W : Type) (g : U -> list W) (h : T -> U) (l : list T),
    flat_map g (map h l) = flat_map (fun a => g (h a)) l.
Proof.
  intros T U W g h l. induction l as [|a l IH]; simpl; [reflexivity|].
  rewrite IH. reflexivity.
Qed.

(** The flat indices of the grid in C order are [0, 1, ..., N - 1]. *)
Lemma flat_index_grid :
  forall nx ny nz,
    map (flat_index (nx, ny, nz)) (grid (nx, ny, nz)) = arange (nx * ny * nz).
Proof.
  intros nx ny nz. unfold grid.
  rewrite <- arange_nested, <- arange_nested.
  rewrite flat_map_of_flat_map, map_of_flat_map.
  apply flat_map_ext. intros x.
  rewrite flat_map_of_map, map_of_flat_map.
  apply flat_map_ext. intros y.
  rewrite map_map. reflexivity.
Qed.

Lemma StronglySorted_arange : forall n, StronglySorted Z.lt (arange n).
Proof.
  intros n. induction n as [|n IH]; [constructor|].
  rewrite arange_succ.
  assert (H : forall l, StronglySorted Z.lt l ->
                        Forall (fun a => a < Z.of_nat n)%Z l ->
                        StronglySorted Z.lt (l ++ [Z.of_nat n])).
  { induction 1 as [|a l Hs IHs Ha]; intros Hl; cbn [app].
    - repeat constructor.
    - inversion Hl; subst. constructor; [apply IHs; assumption|].
      apply Forall_app. split; [exact Ha|]. repeat constructor. assumption. }
  apply H; [exact IH|].
  apply Forall_forall. intros a Ha. apply In_arange in Ha. lia.
Qed.

Lemma StronglySorted_map_filter :
  forall (T : Type) (f : T -> Z) (p : T -> bool) (l : list T),
    StronglySorted Z.lt (map f l) -> StronglySorted Z.lt (map f (filter p l)).
Proof.
  intros T f p l. induction l as [|a l IH]; intros H; [constructor|].
  cbn [map] in H. apply StronglySorted_inv in H. destruct H as [Hs Ha].
  cbn [filter]. destruct (p a); [|apply IH, Hs].
  cbn [map]. constructor; [apply IH, Hs|].
  rewrite Forall_forall in *. intros b Hb. apply Ha.
  apply in_map_iff in Hb. destruct Hb as [c [<- Hc]].
  apply in_map. apply filter_In in Hc. tauto.
Qed.

Lemma Forall2_map_both :
  forall (T U W : Type) (P : U -> W -> Prop) (f : T -> U) (g : T -> W)
         (l : list T),
    (forall a, In a l -> P (f a) (g a)) -> Forall2 P (map f l) (map g l).
Proof.
  intros T U W P f g l H. induction l as [|a l IH]; cbn [map]; constructor.
  - apply H. left. reflexivity.
  - apply IH. intros b Hb. apply H. right. exact Hb.
Qed.

(** The accepted candidates, as the result of [get_volume_searchlight]
    lists them. *)
Lemma get_volume_searchlight_ok :
  forall mask radius threshold centers neighbors,
    get_volume_searchlight mask radius threshold = Ok (centers, neighbors) ->
    centers = map (flat_index (shape mask))
                  (filter (fills mask radius threshold) (nonzero mask)) /\
    neighbors = map (fun c =>
                       map (flat_index (shape mask))
                           (zip3 (_get_searchlight_neighbors mask c radius)))
                    (filter (fills mask radius threshold) (nonzero mask)) /\
    filter (fills mask radius threshold) (nonzero mask) <> [].
Proof.
  intros mask radius threshold centers neighbors H.
  rewrite get_volume_searchlight_filter in H.
  destruct (filter (fills mask radius threshold) (nonzero mask)) as [|c l];
    [discriminate|].
  inversion H. repeat split. discriminate.
Qed.

(** X9: the centers [get_volume_searchlight] returns are strictly increasing
    flat indices, each the position of a nonzero entry of the mask. *)
Theorem centers_sorted :
  forall (mask : Mask) (radius : Z) (threshold : Q)
         (centers : list Z) (neighbors : list (list Z)),
    get_volume_searchlight mask radius threshold = Ok (centers, neighbors) ->
    StronglySorted Z.lt centers /\
    Forall (fun c => (0 <= c)%Z /\
                     nth (Z.to_nat c) (voxels mask) 0%Z <> 0%Z) centers.
Proof.
  intros mask radius threshold centers neighbors H.
  destruct (get_volume_searchlight_ok _ _ _ _ _ H) as (-> & _ & _). split.
  - apply StronglySorted_map_filter. unfold nonzero.
    apply StronglySorted_map_filter.
    destruct (shape mask) as [[nx ny] nz].
    rewrite flat_index_grid. apply StronglySorted_arange.
  - apply Forall_forall. intros i Hi. apply in_map_iff in Hi.
    destruct Hi as [c [<- Hc]]. apply filter_In in Hc. destruct Hc as [Hc _].
    apply In_nonzero in Hc. destruct Hc as [Hb Hnz]. split; [|exact Hnz].
    destruct (shape mask) as [[nx ny] nz].
    apply (flat_index_range nx ny nz c Hb).
Qed.

Lemma centers_sorted_witness :
  StronglySorted Z.lt [0; 2; 3]%Z /\
  Forall (fun c => (0 <= c)%Z /\
                   nth (Z.to_nat c) [1; 0; 1; 1]%Z 0%Z <> 0%Z) [0; 2; 3]%Z.
Proof.
  apply (centers_sorted {| shape := (2, 2, 1); voxels := [1; 0; 1; 1]%Z |}
                        1 1 [0; 2; 3]%Z [[0]; [2]; [3]]%Z).
  reflexivity.
Defined.

Lemma mean_ge_elim :
  forall vals threshold,
    mean_ge vals threshold = true ->
    vals <> [] /\
    (threshold * inject_Z (Z.of_nat (length vals)) <= inject_Z (sum vals))%Q.
Proof.
  intros vals threshold H. unfold mean_ge in H.
  destruct vals as [|v vals]; [discriminate|].
  split; [discriminate|].
  apply Qle_bool_iff in H.
  set (n := inject_Z (Z.of_nat (length (v :: vals)))) in *.
  assert (Hn : (0 < n)%Q)
    by (unfold n; rewrite <- (Zlt_Qlt 0); simpl length; lia).
  apply (Qmult_le_compat_r _ _ n) in H; [|apply Qlt_le_weak; exact Hn].
  eapply Qle_trans; [exact H|].
  rewrite Qmult_comm, Qmult_div_r; [apply Qle_refl|].
  intros E. rewrite E in Hn. discriminate.
Qed.

Lemma mean_ge_monotone :
  forall vals t t',
    (t <= t')%Q -> mean_ge vals t' = true -> mean_ge vals t = true.
Proof.
  intros vals t t' Ht H. apply mean_ge_elim in H. destruct H as [Hne H].
  apply mean_ge_intro; [exact Hne|].
  eapply Qle_trans; [|exact H].
  apply Qmult_le_compat_r; [exact Ht|].
  rewrite <- (Zle_Qle 0). lia.
Qed.

(** X10: lowering the threshold never loses a center: a voxel accepted at a
    threshold is accepted at every lower threshold. *)
Theorem accepted_at_lower_threshold :
  forall (mask : Mask) (radius : Z) (t t' : Q) (c : coord),
    (t <= t')%Q ->
    accepted mask radius t' c ->
    accepted mask radius t c.
Proof.
  intros mask radius t t' c Ht (centers & neighbors & H & Hin).
  destruct (get_volume_searchlight_ok _ _ _ _ _ H) as (-> & _ & _).
  apply in_map_iff in Hin. destruct Hin as [c' [E Hc']].
  apply filter_In in Hc'. destruct Hc' as [Hnz Hf].
  assert (Hc : In c' (filter (fills mask radius t) (nonzero mask))).
  { apply filter_In. split; [exact Hnz|].
    unfold fills in *. apply (mean_ge_monotone _ t t' Ht Hf). }
  unfold accepted. rewrite get_volume_searchlight_filter.
  destruct (filter (fills mask radius t) (nonzero mask)) as [|c0 l] eqn:El;
    [contradiction|].
  eexists. eexists. split; [reflexivity|].
  rewrite <- E. apply in_map. exact Hc.
Qed.

Lemma accepted_at_lower_threshold_witness :
  accepted {| shape := (2, 2, 1); voxels := [1; 0; 1; 1]%Z |} 2 (1 # 2)
           (0, 0, 0)%Z.
Proof.
  apply (accepted_at_lower_threshold
           {| shape := (2, 2, 1); voxels := [1; 0; 1; 1]%Z |} 2
           (1 # 2) (3 # 4) (0, 0, 0)%Z).
  - vm_compute. discriminate.
  - eexists. eexists. split; [vm_compute; reflexivity|]. vm_compute. tauto.
Defined.

(** An accepted candidate has a neighbourhood that is not empty, so the
    radius is positive. *)
Lemma fills_positive_radius :
  forall mask radius threshold c,
    fills mask radius threshold c = true -> (0 < radius)%Z.
Proof.
  intros mask radius threshold c H. unfold fills in H.
  apply mean_ge_elim in H. destruct H as [Hne _].
  destruct (zip3 (_get_searchlight_neighbors mask c radius)) as [|p l] eqn:E;
    [contradiction Hne; reflexivity|].
  assert (Hp : In p (zip3 (_get_searchlight_neighbors mask c radius)))
    by (rewrite E; left; reflexivity).
  apply In_neighbors in Hp. destruct Hp as [_ Hp].
  unfold distance_lt in Hp. apply Z.ltb_lt in Hp.
  pose proof (Z.sqrt_nonneg (sqdist p c)). lia.
Qed.

(** X11: in a result of [get_volume_searchlight] every neighbour set
    contains the flat index of its own center, lists no index twice, and
    holds only positions of the flattened mask. *)
Theorem neighbor_sets_valid :
  forall (mask : Mask) (radius : Z) (threshold : Q)
         (centers : list Z) (neighbors : list (list Z)),
    get_volume_searchlight mask radius threshold = Ok (centers, neighbors) ->
    Forall2 (fun c ns =>
               In c ns /\ NoDup ns /\
               Forall (fun v => 0 <= v
                                < Z.of_nat (fst (fst (shape mask))
                                            * snd (fst (shape mask))
                                            * snd (shape mask)))%Z ns)
            centers neighbors.
Proof.
  intros mask radius threshold centers neighbors H.
  destruct (get_volume_searchlight_ok _ _ _ _ _ H) as (-> & -> & _).
  apply Forall2_map_both. intros c Hc.
  apply filter_In in Hc. destruct Hc as [Hnz Hf].
  apply In_nonzero in Hnz. destruct Hnz as [Hb _].
  pose proof (fills_positive_radius _ _ _ _ Hf) as Hr.
  split; [|split].
  - apply in_map. apply center_in_neighbors; assumption.
  - apply NoDup_map_NoDup_ForallPairs.
    + intros p p' Hp Hp' E. apply In_neighbors in Hp, Hp'.
      apply (flat_index_injective (shape mask)); tauto.
    + destruct c as [[cx cy] cz]. unfold _get_searchlight_neighbors.
      destruct (shape mask) as [[s0 s1] s2]. rewrite zip3_transpose3.
      apply NoDup_filter, NoDup_meshgrid_points;
        apply NoDup_filter, NoDup_arange.
  - apply Forall_forall. intros v Hv. apply in_map_iff in Hv.
    destruct Hv as [p [<- Hp]]. apply In_neighbors in Hp.
    destruct Hp as [Hp _]. destruct (shape mask) as [[nx ny] nz].
    apply (flat_index_range nx ny nz p Hp).
Qed.

Lemma neighbor_sets_valid_witness :
  Forall2 (fun c ns =>
             In c ns /\ NoDup ns /\
             Forall (fun v => 0 <= v < Z.of_nat (2 * 2 * 1))%Z ns)
          [0; 2; 3]%Z [[0]; [2]; [3]]%Z.
Proof.
  apply (neighbor_sets_valid
           {| shape := (2, 2, 1); voxels := [1; 0; 1; 1]%Z |} 1 1
           [0; 2; 3]%Z [[0]; [2]; [3]]%Z).
  reflexivity.
Defined.

Lemma mask_at_binary :
  forall mask c,
    Forall (fun v => v = 0 \/ v = 1)%Z (voxels mask) ->
    (mask_at mask c = 0 \/ mask_at mask c = 1)%Z.
Proof.
  intros mask c H. unfold mask_at.
  destruct (nth_in_or_default (Z.to_nat (flat_index (shape mask) c))
                              (voxels mask) 0%Z) as [Hin | ->]; [|left; reflexivity].
  rewrite Forall_forall in H. apply H, Hin.
Qed.

Lemma sum_binary_full :
  forall vals,
    Forall (fun v => v = 0 \/ v = 1)%Z vals ->
    (sum vals <= Z.of_nat (length vals))%Z /\
    ((Z.of_nat (length vals) <= sum vals)%Z -> Forall (fun v => v = 1%Z) vals).
Proof.
  induction 1 as [|v vals Hv _ [IH1 IH2]].
  - split; [simpl; lia|constructor].
  - cbn [sum fold_right length]. fold (sum vals). split; [lia|].
    intros H. constructor; [lia|]. apply IH2. lia.
Qed.

(** X12: on a binary mask with threshold 1.0 and a positive radius, a voxel
    of the grid is accepted exactly when every voxel of the grid at
    Euclidean distance below the radius (the voxel itself included) is in
    the mask. *)
Theorem accepted_full_sphere :
  forall (mask : Mask) (radius : Z) (c : coord),
    Forall (fun v => v = 0 \/ v = 1)%Z (voxels mask) ->
    (0 < radius)%Z ->
    in_bounds (shape mask) c ->
    (accepted mask radius 1 c <->
     forall p, in_bounds (shape mask) p ->
               (euclidean p c < IZR radius)%R ->
               mask_at mask p = 1%Z).
Proof.
  intros mask radius c Hbin Hr Hc. split.
  - intros (centers & neighbors & H & Hin) p Hp Hd.
    destruct (get_volume_searchlight_ok _ _ _ _ _ H) as (-> & _ & _).
    apply in_map_iff in Hin. destruct Hin as [c' [E Hc']].
    apply filter_In in Hc'. destruct Hc' as [Hnz Hf].
    apply In_nonzero in Hnz. destruct Hnz as [Hb' _].
    apply (flat_index_injective (shape mask) c' c Hb' Hc) in E. subst c'.
    unfold fills in Hf. apply mean_ge_elim in Hf. destruct Hf as [_ Hf].
    rewrite Qmult_1_l, <- Zle_Qle in Hf.
    assert (Hvals : Forall (fun v => v = 0 \/ v = 1)%Z
                           (map (mask_at mask)
                                (zip3 (_get_searchlight_neighbors mask c radius)))).
    { apply Forall_forall. intros v Hv. apply in_map_iff in Hv.
      destruct Hv as [q [<- _]]. apply mask_at_binary, Hbin. }
    destruct (sum_binary_full _ Hvals) as [_ Hall].
    specialize (Hall Hf). rewrite Forall_forall in Hall.
    apply Hall. apply in_map. apply In_neighbors. split; [exact Hp|].
    apply distance_lt_real. exact Hd.
  - intros Hall.
    assert (Hf : fills mask radius 1 c = true).
    { unfold fills. apply mean_ge_ones; [| |apply Qle_refl].
      - pose proof (center_in_neighbors mask c radius Hr Hc) as Hin.
        intros E. apply (in_map (mask_at mask)) in Hin. rewrite E in Hin.
        exact Hin.
      - apply Forall_forall. intros v Hv. apply in_map_iff in Hv.
        destruct Hv as [p [<- Hp]]. apply In_neighbors in Hp.
        apply Hall; [tauto|]. apply distance_lt_real. tauto. }
    assert (Hin : In c (filter (fills mask radius 1) (nonzero mask))).
    { apply filter_In. split; [|exact Hf]. apply In_nonzero.
      split; [exact Hc|]. rewrite Hall; [discriminate|exact Hc|].
      apply distance_lt_real. unfold distance_lt.
      pose proof (center_in_neighbors mask c radius Hr Hc) as Hcc.
      apply In_neighbors in Hcc. destruct Hcc as [_ Hcc]. exact Hcc. }
    unfold accepted. rewrite get_volume_searchlight_filter.
    destruct (filter (fills mask radius 1) (nonzero mask)) as [|c0 l] eqn:El;
      [contradiction|].
    eexists. eexists. split; [reflexivity|]. apply in_map. exact Hin.
Qed.

Lemma accepted_full_sphere_witness :
  accepted {| shape := (2, 2, 1); voxels := [1; 0; 1; 1]%Z |} 1 1 (1, 1, 0)%Z
  <->
  forall p, in_bounds (2, 2, 1) p ->
            (euclidean p (1, 1, 0)%Z < IZR 1)%R ->
            mask_at {| shape := (2, 2, 1); voxels := [1; 0; 1; 1]%Z |} p = 1%Z.
Proof.
  apply (accepted_full_sphere
           {| shape := (2, 2, 1); voxels := [1; 0; 1; 1]%Z |} 1 (1, 1, 0)%Z).
  - repeat (apply Forall_cons; [lia|]). apply Forall_nil.
  - lia.
  - simpl. lia.
Defined.

(** X13: [get_volume_searchlight] never returns an empty list of centers:
    its only exception is the [ValueError] raised when no candidate passes
    the fill test, which is the case for every radius of zero or less and
    for every mask without a nonzero entry. *)
Theorem enumeration_never_empty :
  forall (mask : Mask) (radius : Z) (threshold : Q),
    (get_volume_searchlight mask radius threshold = Raise ValueError \/
     exists c centers neighbors,
       get_volume_searchlight mask radius threshold
       = Ok (c :: centers, neighbors)) /\
    ((radius <= 0)%Z ->
     get_volume_searchlight mask radius threshold = Raise ValueError) /\
    (Forall (fun v => v = 0%Z) (voxels mask) ->
     get_volume_searchlight mask radius threshold = Raise ValueError).
Proof.
  intros mask radius threshold. rewrite get_volume_searchlight_filter.
  split; [|split].
  - destruct (filter (fills mask radius threshold) (nonzero mask)) as [|c l];
      [left; reflexivity|right].
    cbn [map]. eexists. eexists. eexists. reflexivity.
  - intros Hr. rewrite filter_none; [reflexivity|].
    intros c _. unfold fills.
    rewrite neighbors_nonpositive_radius by exact Hr. reflexivity.
  - intros Hz.
    assert (Hnz : nonzero mask = []).
    { unfold nonzero. apply filter_none. intros c _. unfold mask_at.
      destruct (nth_in_or_default (Z.to_nat (flat_index (shape mask) c))
                                  (voxels mask) 0%Z) as [Hin | ->];
        [|reflexivity].
      rewrite Forall_forall in Hz. rewrite (Hz _ Hin). reflexivity. }
    rewrite Hnz. reflexivity.
Qed.

(** ** The searchlight RDM builder *)

Lemma mapM_ok_iff :
  forall (T U : Type) (f : T -> result U) (l : list T),
    (exists l', mapM f l = Ok l') <-> (forall a, In a l -> exists b, f a = Ok b).
Proof.
  intros T U f l. induction l as [|a l IH]; cbn [mapM].
  - split; [intros _ a []|intros _; exists []; reflexivity].
  - split.
    + intros [l' H] x Hx.
      destruct (f a) as [b|] eqn:Ea; cbn [bind] in H; [|discriminate].
      destruct (mapM f l) as [bs|] eqn:El; cbn [bind] in H; [|discriminate].
      destruct Hx as [<-|Hx]; [exists b; exact Ea|].
      apply (proj1 IH); [exists bs; reflexivity|exact Hx].
    + intros H. destruct (H a (or_introl eq_refl)) as [b Hb].
      destruct (proj2 IH) as [bs Hbs];
        [intros x Hx; apply H; right; exact Hx|].
      exists (b :: bs). rewrite Hb, Hbs. reflexivity.
Qed.

Lemma mapM_raise_in :
  forall (T U : Type) (f : T -> result U) (l : list T) e,
    mapM f l = Raise e -> exists a, In a l /\ f a = Raise e.
Proof.
  intros T U f l e. induction l as [|a l IH]; cbn [mapM]; [discriminate|].
  intros H. destruct (f a) as [b|e'] eqn:Ea; cbn [bind] in H.
  - destruct (mapM f l) as [bs|e'] eqn:El; cbn [bind] in H; [discriminate|].
    inversion H. subst. destruct (IH eq_refl) as [x [Hx Hfx]].
    exists x. split; [right; exact Hx|exact Hfx].
  - inversion H. subst. exists a. split; [left; reflexivity|exact Ea].
Qed.

Lemma py_index_ok_iff :
  forall n j,
    (exists i, py_index n j = Ok i) <-> (- Z.of_nat n <= j < Z.of_nat n)%Z.
Proof.
  intros n j. unfold py_index.
  destruct (Z.leb_spec 0 j); destruct (Z.ltb_spec j (Z.of_nat n));
    destruct (Z.leb_spec (- Z.of_nat n) j); destruct (Z.ltb_spec j 0);
    cbn [andb]; split; try lia; try (intros _; eexists; reflexivity);
    intros [i Hi]; discriminate.
Qed.

Lemma py_index_raises :
  forall n j e, py_index n j = Raise e -> e = IndexError.
Proof.
  intros n j e. unfold py_index.
  destruct (_ && _); [discriminate|].
  destruct (_ && _); [discriminate|].
  intros H. inversion H. reflexivity.
Qed.

Section BuilderErrors.

Variable V : Type.
Variable zero : V.
Variable Method : Type.
Variable rdm_row : Method -> list (list V) -> list Z -> list V.

Lemma take_columns_ok_iff :
  forall (data_2d : Data2d V) idx,
    (exists cols, take_columns zero data_2d idx = Ok cols) <->
    Forall (fun j => - Z.of_nat (n_channels data_2d) <= j
                     < Z.of_nat (n_channels data_2d))%Z idx.
Proof.
  intros data_2d idx. unfold take_columns. rewrite Forall_forall.
  split.
  - intros [cols H] j Hj.
    destruct (mapM (py_index (n_channels data_2d)) idx) as [js|] eqn:E;
      cbn [bind] in H; [|discriminate].
    apply py_index_ok_iff.
    apply (proj1 (mapM_ok_iff _ _ _ idx)); [exists js; exact E|exact Hj].
  - intros H.
    destruct (proj2 (mapM_ok_iff _ _ (py_index (n_channels data_2d)) idx))
      as [js Hjs].
    + intros j Hj. apply py_index_ok_iff, H, Hj.
    + rewrite Hjs. cbn [bind]. eexists. reflexivity.
Qed.

Lemma take_columns_raises :
  forall (data_2d : Data2d V) idx e,
    take_columns zero data_2d idx = Raise e -> e = IndexError.
Proof.
  intros data_2d idx e H. unfold take_columns in H.
  destruct (mapM (py_index (n_channels data_2d)) idx) as [js|e'] eqn:E;
    cbn [bind] in H; [discriminate|].
  inversion H. subst. apply mapM_raise_in in E.
  destruct E as [j [_ Hj]]. apply (py_index_raises _ _ _ Hj).
Qed.

Lemma center_row_ok_iff :
  forall (data_2d : Data2d V) neighbors events method i,
    (exists row,
       center_row zero rdm_row data_2d neighbors events method i = Ok row) <->
    (exists voxels,
       nth_error neighbors i = Some voxels /\
       Forall (fun j => - Z.of_nat (n_channels data_2d) <= j
                        < Z.of_nat (n_channels data_2d))%Z voxels).
Proof.
  intros data_2d neighbors events method i. unfold center_row, getitem.
  destruct (nth_error neighbors i) as [voxels|]; cbn [bind].
  - split.
    + intros [row H]. exists voxels. split; [reflexivity|].
      apply take_columns_ok_iff.
      destruct (take_columns zero data_2d voxels) as [cols|];
        [exists cols; reflexivity|discriminate].
    + intros [voxels' [E H]]. inversion E. subst voxels'.
      apply take_columns_ok_iff in H. destruct H as [cols ->].
      cbn [bind]. eexists. reflexivity.
  - split; [intros [row H]; discriminate|intros [voxels [H _]]; discriminate].
Qed.

Lemma center_row_raises :
  forall (data_2d : Data2d V) neighbors events method i e,
    center_row zero rdm_row data_2d neighbors events method i = Raise e ->
    e = IndexError.
Proof.
  intros data_2d neighbors events method i e. unfold center_row, getitem.
  destruct (nth_error neighbors i) as [voxels|]; cbn [bind].
  - destruct (take_columns zero data_2d voxels) as [cols|e'] eqn:E;
      cbn [bind]; [discriminate|].
    intros H. inversion H. subst. apply (take_columns_raises _ _ _ E).
  - intros H. inversion H. reflexivity.
Qed.

(** Both branches of [get_searchlight_rdms] in one equation. *)
Lemma get_searchlight_rdms_rows :
  forall (data_2d : Data2d V) centers neighbors events method,
    (forall cols,
       length (rdm_row method cols events)
       = n_unique events * (n_unique events - 1) / 2) ->
    get_searchlight_rdms zero rdm_row data_2d centers neighbors events method
    = bind (mapM (center_row zero rdm_row data_2d neighbors events method)
                 (seq 0 (length centers)))
           (fun rdm => Ok {| dissimilarities := rdm;
                             rdm_descriptors_voxel_index := centers;
                             dissimilarity_measure := method |}).
Proof.
  intros data_2d centers neighbors events method Hw.
  unfold get_searchlight_rdms.
  destruct (1000 <? length centers).
  - rewrite (rdm_chunked_rows V zero Method rdm_row data_2d centers neighbors
                              events method Hw). reflexivity.
  - rewrite (rdm_unchunked_rows V zero Method rdm_row data_2d centers
                                neighbors events method). reflexivity.
Qed.

End BuilderErrors.

(** X15: [get_searchlight_rdms] returns a collection exactly when every
    center has a neighbour list and every neighbour index addresses a
    channel of the observation matrix (from [-n_channels] to
    [n_channels - 1]); any exception it raises is an [IndexError]. The
    measure gives rows of the width the chunked branch allocates. *)
Theorem builder_fails_only_on_bad_index :
  forall (V : Type) (zero : V) (Method : Type)
         (rdm_row : Method -> list (list V) -> list Z -> list V)
         (data_2d : Data2d V) (centers : list Z) (neighbors : list (list Z))
         (events : list Z) (method : Method),
    (forall cols,
       length (rdm_row method cols events)
       = n_unique events * (n_unique events - 1) / 2) ->
    ((exists rdms,
        get_searchlight_rdms zero rdm_row data_2d centers neighbors events
                             method = Ok rdms) <->
     (forall i, i < length centers ->
        exists voxels,
          nth_error neighbors i = Some voxels /\
          Forall (fun j => - Z.of_nat (n_channels data_2d) <= j
                           < Z.of_nat (n_channels data_2d))%Z voxels)) /\
    (forall e,
       get_searchlight_rdms zero rdm_row data_2d centers neighbors events
                            method = Raise e ->
       e = IndexError).
Proof.
  intros V zero Method rdm_row data_2d centers neighbors events method Hw.
  rewrite (get_searchlight_rdms_rows V zero Method rdm_row data_2d centers
                                     neighbors events method Hw).
  split; [split|].
  - intros [rdms H] i Hi.
    destruct (mapM _ (seq 0 (length centers))) as [rows|] eqn:E;
      cbn [bind] in H; [|discriminate].
    apply (proj1 (center_row_ok_iff V zero Method rdm_row data_2d neighbors
                                    events method i)).
    apply (proj1 (mapM_ok_iff _ _ _ (seq 0 (length centers))));
      [exists rows; exact E|].
    apply in_seq. lia.
  - intros H.
    destruct (proj2 (mapM_ok_iff
                       _ _ (center_row zero rdm_row data_2d neighbors events
                                       method)
                       (seq 0 (length centers)))) as [rows Hrows].
    + intros i Hi. apply in_seq in Hi.
      apply (proj2 (center_row_ok_iff V zero Method rdm_row data_2d neighbors
                                      events method i)).
      apply H. lia.
    + rewrite Hrows. cbn [bind]. eexists. reflexivity.
  - intros e H.
    destruct (mapM _ (seq 0 (length centers))) as [rows|e'] eqn:E;
      cbn [bind] in H; [discriminate|].
    inversion H. subst. apply mapM_raise_in in E. destruct E as [i [_ Hi]].
    apply (center_row_raises V zero Method rdm_row _ _ _ _ _ _ Hi).
Qed.

Lemma builder_fails_only_on_bad_index_witness :
  ((exists rdms,
      get_searchlight_rdms 0%Z total_difference example_data example_centers
                           example_neighbors example_events tt = Ok rdms) <->
   (forall i, i < length example_centers ->
      exists voxels,
        nth_error example_neighbors i = Some voxels /\
        Forall (fun j => - Z.of_nat (n_channels example_data) <= j
                         < Z.of_nat (n_channels example_data))%Z voxels)) /\
  (forall e,
     get_searchlight_rdms 0%Z total_difference example_data example_centers
                          example_neighbors example_events tt = Raise e ->
     e = IndexError).
Proof.
  apply (builder_fails_only_on_bad_index
           Z 0%Z unit total_difference example_data example_centers
           example_neighbors example_events tt).
  intros cols. apply total_difference_width.
Defined.

(** X16: a collection returned by [get_searchlight_rdms] has one row per
    center, every row has [n_cond (n_cond - 1) / 2] entries for [n_cond]
    distinct event labels, its descriptor is the list of centers and its
    measure is the method. *)
Theorem builder_output_shape :
  forall (V : Type) (zero : V) (Method : Type)
         (rdm_row : Method -> list (list V) -> list Z -> list V)
         (data_2d : Data2d V) (centers : list Z) (neighbors : list (list Z))
         (events : list Z) (method : Method) (rdms : RDMs V Method),
    (forall cols,
       length (rdm_row method cols events)
       = n_unique events * (n_unique events - 1) / 2) ->
    get_searchlight_rdms zero rdm_row data_2d centers neighbors events method
    = Ok rdms ->
    length (dissimilarities rdms) = length centers /\
    Forall (fun r => length r = n_unique events * (n_unique events - 1) / 2)
           (dissimilarities rdms) /\
    rdm_descriptors_voxel_index rdms = centers /\
    dissimilarity_measure rdms = method.
Proof.
  intros V zero Method rdm_row data_2d centers neighbors events method rdms
         Hw H.
  rewrite (get_searchlight_rdms_rows V zero Method rdm_row data_2d centers
                                     neighbors events method Hw) in H.
  destruct (mapM _ (seq 0 (length centers))) as [rows|] eqn:E;
    cbn [bind] in H; [|discriminate].
  inversion H. subst rdms. cbn. repeat split.
  - rewrite (mapM_length _ _ _ _ _ E). apply length_seq.
  - apply (row_of_width V zero Method rdm_row data_2d neighbors events method
                        Hw _ _ E).
Qed.

Lemma builder_output_shape_witness :
  length [[3]; [7]]%Z = length example_centers /\
  Forall (fun r => length r
                   = n_unique example_events * (n_unique example_events - 1) / 2)
         [[3]; [7]]%Z /\
  example_centers = example_centers /\
  tt = tt.
Proof.
  apply (builder_output_shape
           Z 0%Z unit total_difference example_data example_centers
           example_neighbors example_events tt
           {| dissimilarities := [[3]; [7]]%Z;
              rdm_descriptors_voxel_index := example_centers;
              dissimilarity_measure := tt |}).
  - intros cols. apply total_difference_width.
  - reflexivity.
Defined.

(** ** The parallel model evaluator *)

Lemma map_snd_combine_seq :
  forall (T : Type) (l : list T) a, map snd (combine (seq a (length l)) l) = l.
Proof.
  intros T l. induction l as [|x l IH]; intros a; [reflexivity|].
  cbn [length seq combine map snd]. rewrite IH. reflexivity.
Qed.

Section EvaluatorFailures.

Variables Models RDM MethodName Theta Res : Type.
Variable eval_function : Models -> RDM -> MethodName -> Theta -> result Res.
Variable models : Models.
Variable method : MethodName.
Variable theta : Theta.
Variable sl_rdm : list RDM.

(** An exception of the batch is the exception of one of the rows. *)
Lemma run_failed_origin :
  forall n_jobs p o,
    run eval_function models method theta n_jobs p o ->
    forall e, o = Failed e ->
    pool_inv eval_function models method theta sl_rdm p ->
    exists x, In x sl_rdm /\ eval_function models x method theta = Raise e.
Proof.
  intros n_jobs p o Hrun.
  induction Hrun as [p|p e' Hs|p q o Hs Hrun IH]; intros e Ho Hinv.
  - discriminate.
  - inversion Ho. subst e'.
    destruct Hinv as (k & _ & _ & _ & Hact & _ & _).
    inversion Hs; subst. cbn [active] in Hact.
    exists x. split; [|assumption].
    apply (nth_error_In sl_rdm i). apply Hact.
    apply in_or_app. right. left. reflexivity.
  - apply (IH e Ho).
    apply (step_inv _ _ _ _ _ eval_function models method theta sl_rdm
                    n_jobs p q Hinv Hs).
Qed.

(** The sequential schedule stops at the first row that raises. *)
Lemma sequential_failure :
  forall n_jobs q f log e,
    1 <= n_jobs ->
    mapM (fun x => eval_function models x method theta) (map snd q) = Raise e ->
    run eval_function models method theta n_jobs
        {| queue := q; active := []; finished := f; call_log := log |}
        (Failed e).
Proof.
  intros n_jobs q. induction q as [|[i x] q IH]; intros f log e Hn H.
  - discriminate.
  - cbn [map snd mapM] in H.
    eapply run_next; [apply step_dispatch; simpl; lia|].
    destruct (eval_function models x method theta) as [r|e'] eqn:Ex;
      cbn [bind] in H.
    + eapply run_next.
      * exact (@step_complete _ _ _ _ _ eval_function models method theta
                              n_jobs i x r q [] [] f (log ++ [x]) Ex).
      * apply IH; [exact Hn|].
        destruct (mapM _ (map snd q)); cbn [bind] in H;
          [discriminate|exact H].
    + inversion H. subst e'. apply run_raise.
      exact (@step_raise _ _ _ _ _ eval_function models method theta
                         n_jobs i x e q [] [] f (log ++ [x]) Ex).
Qed.

End EvaluatorFailures.

(** X17: when the evaluation of some row raises, the batch fails: with at
    least one worker [evaluate_models_searchlight] can raise the exception of
    the first failing row, no schedule returns a list of results, and every
    exception the batch raises is the exception of one of its rows. *)
Theorem evaluation_failure_propagates :
  forall (Models RDM MethodName Theta Res : Type)
         (eval_function : Models -> RDM -> MethodName -> Theta -> result Res)
         (models : Models) (method : MethodName) (theta : Theta)
         (sl_rdm : list RDM) (n_jobs : nat) (e : error),
    1 <= n_jobs ->
    mapM (fun x => eval_function models x method theta) sl_rdm = Raise e ->
    evaluate_models_searchlight_raises eval_function models method theta
                                       sl_rdm n_jobs e /\
    (forall results calls,
       ~ evaluate_models_searchlight eval_function models method theta
                                     sl_rdm n_jobs results calls) /\
    (forall e',
       evaluate_models_searchlight_raises eval_function models method theta
                                          sl_rdm n_jobs e' ->
       exists x, In x sl_rdm /\
                 eval_function models x method theta = Raise e').
Proof.
  intros Models RDM MethodName Theta Res eval_function models method theta
         sl_rdm n_jobs e Hn He.
  pose proof (submit_inv _ _ _ _ _ eval_function models method theta sl_rdm)
    as Hinv.
  split; [|split].
  - unfold evaluate_models_searchlight_raises, submit.
    apply sequential_failure; [exact Hn|].
    rewrite map_snd_combine_seq. exact He.
  - intros results calls (p & Hrun & Hq & Ha & _ & _).
    pose proof (run_inv _ _ _ _ _ eval_function models method theta sl_rdm
                        n_jobs _ _ Hrun p eq_refl Hinv) as Hp.
    destruct (terminal_pool _ _ _ _ _ eval_function models method theta
                            sl_rdm p Hp Hq Ha) as [_ [rs [Hm _]]].
    congruence.
  - intros e' Hr.
    apply (run_failed_origin _ _ _ _ _ eval_function models method theta
                             sl_rdm n_jobs _ _ Hr e' eq_refl Hinv).
Qed.

Lemma evaluation_failure_propagates_witness :
  evaluate_models_searchlight_raises checked_eval tt tt tt [3; 0; 2; 1] 2
                                     ValueError /\
  (forall results calls,
     ~ evaluate_models_searchlight checked_eval tt tt tt [3; 0; 2; 1] 2
                                   results calls) /\
  (forall e',
     evaluate_models_searchlight_raises checked_eval tt tt tt [3; 0; 2; 1] 2
                                        e' ->
     exists x, In x [3; 0; 2; 1] /\ checked_eval tt x tt tt = Raise e').
Proof.
  apply (evaluation_failure_propagates unit nat unit unit nat checked_eval
                                       tt tt tt [3; 0; 2; 1] 2 ValueError).
  - lia.
  - reflexivity.
Defined.

Section OneWorker.

Variables Models RDM MethodName Theta Res : Type.
Variable eval_function : Models -> RDM -> MethodName -> Theta -> result Res.
Variable models : Models.
Variable method : MethodName.
Variable theta : Theta.
Variable sl_rdm : list RDM.

Lemma mapM_first_raise :
  forall (l : list RDM) m x e,
    (forall j, j < m ->
       exists y r, nth_error l j = Some y /\
                   eval_function models y method theta = Ok r) ->
    nth_error l m = Some x ->
    eval_function models x method theta = Raise e ->
    mapM (fun x => eval_function models x method theta) l = Raise e.
Proof.
  induction l as [|a l IH]; intros m x e Hok Hm He.
  - destruct m; discriminate.
  - destruct m as [|m]; cbn [mapM].
    + inversion Hm. subst a. rewrite He. reflexivity.
    + destruct (Hok 0 (Nat.lt_0_succ m)) as [y [r [Hy Hr]]].
      inversion Hy. subst y. rewrite Hr. cbn [bind].
      rewrite (IH m x e); [reflexivity| |exact Hm|exact He].
      intros j Hj. apply (Hok (S j)). lia.
Qed.

Lemma submit_one_worker :
  one_worker_inv eval_function models method theta sl_rdm (submit sl_rdm).
Proof.
  exists 0. cbn [submit queue active finished skipn].
  rewrite Nat.sub_0_r. repeat split; try lia; try contradiction.
  left. split; [reflexivity|]. intros j Hj. lia.
Qed.

Lemma step_one_worker :
  forall p p',
    one_worker_inv eval_function models method theta sl_rdm p ->
    step eval_function models method theta 1 p (Running p') ->
    one_worker_inv eval_function models method theta sl_rdm p'.
Proof.
  intros p p' (k & Hk & Hq & Hfin & Hact) Hstep.
  inversion Hstep; subst; cbn [queue active finished call_log] in *.
  - (* dispatch: the worker is free *)
    destruct (length sl_rdm - k) as [|m] eqn:Em; [discriminate|].
    destruct (skipn k sl_rdm) as [|y rest] eqn:Es; [discriminate|].
    cbn [seq combine] in Hq. inversion Hq. subst.
    destruct (skipn_cons_nth_error _ _ _ _ _ Es) as [Hy Hrest].
    destruct a as [|t a]; [|simpl in *; lia].
    destruct Hact as [[_ Hcov]|(x & _ & _ & E & _)]; [|discriminate].
    exists (S k). cbn [queue active finished call_log]. repeat split.
    + lia.
    + rewrite Hrest. replace (length sl_rdm - S k) with m by lia. reflexivity.
    + exact Hfin.
    + right. exists y. replace (S k - 1) with k by lia.
      repeat split; try lia; try assumption.
  - (* the running task completes *)
    destruct Hact as [[E _]|(y & Hk0 & Hy & E & Hcov)];
      [destruct a1; discriminate|].
    assert (Ha : a1 = [] /\ a2 = [] /\ i = k - 1 /\ x = y).
    { destruct a1 as [|t a1]; [|destruct a1; discriminate].
      inversion E. auto. }
    destruct Ha as (-> & -> & -> & ->).
    exists k. cbn [queue active finished call_log app]. repeat split;
      try assumption; try reflexivity.
    + intros j r' [Ej|Hin]; [|apply Hfin, Hin].
      inversion Ej. subst. exists y. auto.
    + left. split; [reflexivity|]. intros j Hj. cbn [map fst In].
      destruct (Nat.eq_dec j (k - 1)) as [->|Hne]; [left; reflexivity|].
      right. apply Hcov. lia.
Qed.

(** With one worker, the exception of the batch is the exception of the
    first row that raises. *)
Lemma run_one_worker :
  forall p o,
    run eval_function models method theta 1 p o ->
    forall e, o = Failed e ->
    one_worker_inv eval_function models method theta sl_rdm p ->
    mapM (fun x => eval_function models x method theta) sl_rdm = Raise e.
Proof.
  intros p o Hrun.
  induction Hrun as [p|p e' Hs|p q o Hs Hrun IH]; intros e Ho Hinv.
  - discriminate.
  - inversion Ho. subst e'.
    destruct Hinv as (k & Hk & Hq & Hfin & Hact).
    inversion Hs; subst. cbn [queue active finished] in *.
    destruct Hact as [[E _]|(y & Hk0 & Hy & E & Hcov)];
      [destruct a1; discriminate|].
    assert (Ha : i = k - 1 /\ x = y).
    { destruct a1 as [|t a1]; [|destruct a1; discriminate].
      inversion E. auto. }
    destruct Ha as (-> & ->).
    apply (mapM_first_raise sl_rdm (k - 1) y e); try assumption.
    intros j Hj. destruct (lookup_in Res j f (Hcov j Hj)) as [r [_ Hin]].
    destruct (Hfin j r Hin) as [z [Hz Hr]]. exists z, r. auto.
  - apply (IH e Ho). apply (step_one_worker p q Hinv Hs).
Qed.

End OneWorker.

(** X18: with one worker the batch is sequential: the exception
    [evaluate_models_searchlight] raises is the exception of the first row
    whose evaluation raises. *)
Theorem one_worker_first_failure :
  forall (Models RDM MethodName Theta Res : Type)
         (eval_function : Models -> RDM -> MethodName -> Theta -> result Res)
         (models : Models) (method : MethodName) (theta : Theta)
         (sl_rdm : list RDM) (e : error),
    evaluate_models_searchlight_raises eval_function models method theta
                                       sl_rdm 1 e ->
    mapM (fun x => eval_function models x method theta) sl_rdm = Raise e.
Proof.
  intros Models RDM MethodName Theta Res eval_function models method theta
         sl_rdm e H.
  apply (run_one_worker _ _ _ _ _ eval_function models method theta sl_rdm
                        _ _ H e eq_refl).
  apply submit_one_worker.
Qed.

Lemma one_worker_first_failure_witness :
  mapM (fun x => checked_eval tt x tt tt) [3; 1; 2; 0] = Raise IndexError.
Proof.
  apply (one_worker_first_failure unit nat unit unit nat checked_eval
                                  tt tt tt [3; 1; 2; 0] IndexError).
  unfold evaluate_models_searchlight_raises, submit.
  apply sequential_failure; [lia|reflexivity].
Defined.

(** ** The searchlight pipeline *)

(** X19: a larger radius gives a larger searchlight: every voxel of the
    searchlight of radius [r] is in the searchlight of any radius above
    [r]. *)
Theorem neighbors_grow_with_radius :
  forall (mask : Mask) (center p : coord) (r r' : Z),
    (r <= r')%Z ->
    In p (zip3 (_get_searchlight_neighbors mask center r)) ->
    In p (zip3 (_get_searchlight_neighbors mask center r')).
Proof.
  intros mask center p r r' Hr Hp. apply In_neighbors in Hp.
  apply In_neighbors. destruct Hp as [Hb Hd]. split; [exact Hb|].
  unfold distance_lt in *. apply Z.ltb_lt in Hd. apply Z.ltb_lt. lia.
Qed.

Lemma neighbors_grow_with_radius_witness :
  In (1, 0, 0)%Z (zip3 (_get_searchlight_neighbors (ones 3 3 3) (0, 0, 0)%Z 3)).
Proof.
  apply (neighbors_grow_with_radius (ones 3 3 3) (0, 0, 0)%Z (1, 0, 0)%Z 2 3).
  - lia.
  - vm_compute. tauto.
Defined.

(** X20: on a mask of ones that is not empty, with a positive radius and a
    threshold up to 1.0, the centers are all flat indices in order,
    [0, 1, ..., N - 1]. *)
Theorem dense_mask_centers :
  forall (nx ny nz : nat) (radius : Z) (threshold : Q),
    (0 < radius)%Z ->
    (threshold <= 1)%Q ->
    0 < nx * ny * nz ->
    exists neighbors,
      get_volume_searchlight (ones nx ny nz) radius threshold
      = Ok (arange (nx * ny * nz), neighbors).
Proof.
  intros nx ny nz radius threshold Hr Ht Hn.
  rewrite get_volume_searchlight_ones by assumption.
  pose proof (flat_index_grid nx ny nz) as Hg.
  destruct (grid (nx, ny, nz)) as [|c l] eqn:E.
  - exfalso. cbn [map] in Hg.
    destruct (nx * ny * nz) as [|n]; [lia|].
    rewrite arange_succ in Hg. destruct (arange n); discriminate.
  - cbv beta iota zeta. rewrite Hg. eexists. reflexivity.
Qed.

Lemma dense_mask_centers_witness :
  exists neighbors,
    get_volume_searchlight (ones 2 1 2) 2 (1 # 2)
    = Ok (arange (2 * 1 * 2), neighbors).
Proof.
  apply (dense_mask_centers 2 1 2 2 (1 # 2)).
  - lia.
  - vm_compute. discriminate.
  - simpl. lia.
Defined.

(** X21: on a binary mask a threshold above 1.0 accepts no center, so
    [get_volume_searchlight] raises [ValueError]. *)
Theorem threshold_above_one :
  forall (mask : Mask) (radius : Z) (threshold : Q),
    Forall (fun v => v = 0 \/ v = 1)%Z (voxels mask) ->
    (1 < threshold)%Q ->
    get_volume_searchlight mask radius threshold = Raise ValueError.
Proof.
  intros mask radius threshold Hbin Ht.
  rewrite get_volume_searchlight_filter.
  rewrite filter_none; [reflexivity|].
  intros c _. destruct (fills mask radius threshold c) eqn:Hf; [|reflexivity].
  exfalso. unfold fills in Hf. apply mean_ge_elim in Hf.
  destruct Hf as [Hne Hf].
  set (vals := map (mask_at mask)
                   (zip3 (_get_searchlight_neighbors mask c radius))) in *.
  assert (Hvals : Forall (fun v => v = 0 \/ v = 1)%Z vals).
  { apply Forall_forall. intros v Hv. apply in_map_iff in Hv.
    destruct Hv as [q [<- _]]. apply mask_at_binary, Hbin. }
  destruct (sum_binary_full vals Hvals) as [Hle _].
  assert (Hlen : (0 < Z.of_nat (length vals))%Z)
    by (destruct vals; [contradiction Hne; reflexivity|simpl length; lia]).
  rewrite Zle_Qle in Hle. rewrite Zlt_Qlt in Hlen.
  assert (H1 : (threshold * inject_Z (Z.of_nat (length vals))
                <= 1 * inject_Z (Z.of_nat (length vals)))%Q).
  { rewrite Qmult_1_l. eapply Qle_trans; [exact Hf|exact Hle]. }
  apply Qmult_le_r in H1; [|exact Hlen].
  apply (Qlt_not_le _ _ Ht H1).
Qed.

Lemma threshold_above_one_witness :
  get_volume_searchlight example_mask 1 (3 # 2) = Raise ValueError.
Proof.
  apply (threshold_above_one example_mask 1 (3 # 2)).
  - repeat (apply Forall_cons; [lia|]). apply Forall_nil.
  - reflexivity.
Defined.

(** X22: the two stages compose: the centers and neighbour sets returned by
    [get_volume_searchlight] are accepted by [get_searchlight_rdms] for any
    observation matrix with one channel per voxel of the mask, which then
    returns one RDM per center. *)
Theorem enumeration_feeds_builder :
  forall (V : Type) (zero : V) (Method : Type)
         (rdm_row : Method -> list (list V) -> list Z -> list V)
         (mask : Mask) (radius : Z) (threshold : Q)
         (centers : list Z) (neighbors : list (list Z))
         (data_2d : Data2d V) (events : list Z) (method : Method),
    (forall cols,
       length (rdm_row method cols events)
       = n_unique events * (n_unique events - 1) / 2) ->
    get_volume_searchlight mask radius threshold = Ok (centers, neighbors) ->
    n_channels data_2d
    = fst (fst (shape mask)) * snd (fst (shape mask)) * snd (shape mask) ->
    exists rdms,
      get_searchlight_rdms zero rdm_row data_2d centers neighbors events method
      = Ok rdms /\
      length (dissimilarities rdms) = length centers /\
      rdm_descriptors_voxel_index rdms = centers.
Proof.
  intros V zero Method rdm_row mask radius threshold centers neighbors
         data_2d events method Hw H Hch.
  destruct (get_volume_searchlight_ok _ _ _ _ _ H) as (Hc & Hn & _).
  rewrite (get_searchlight_rdms_rows V zero Method rdm_row data_2d centers
                                     neighbors events method Hw).
  destruct (proj2 (mapM_ok_iff
                     _ _ (center_row zero rdm_row data_2d neighbors events
                                     method)
                     (seq 0 (length centers)))) as [rows Hrows].
  - intros i Hi. apply in_seq in Hi.
    apply (proj2 (center_row_ok_iff V zero Method rdm_row data_2d neighbors
                                    events method i)).
    subst centers neighbors. rewrite length_map in Hi.
    set (gc := filter (fills mask radius threshold) (nonzero mask)) in *.
    destruct (nth_error gc i) as [c|] eqn:Ec;
      [|apply nth_error_None in Ec; lia].
    eexists. split; [rewrite nth_error_map, Ec; reflexivity|].
    apply Forall_forall. intros v Hv. apply in_map_iff in Hv.
    destruct Hv as [p [<- Hp]]. apply In_neighbors in Hp.
    destruct Hp as [Hp _]. rewrite Hch.
    destruct (shape mask) as [[nx ny] nz]. cbn [fst snd].
    pose proof (flat_index_range nx ny nz p Hp). lia.
  - rewrite Hrows. cbn [bind]. eexists. split; [reflexivity|].
    cbn [dissimilarities rdm_descriptors_voxel_index].
    split; [|reflexivity].
    rewrite (mapM_length _ _ _ _ _ Hrows). apply length_seq.
Qed.

Lemma enumeration_feeds_builder_witness :
  exists rdms,
    get_searchlight_rdms 0%Z total_difference example_volume_data
                         [0; 2; 3]%Z [[0]; [2]; [3]]%Z example_events tt
    = Ok rdms /\
    length (dissimilarities rdms) = length [0; 2; 3]%Z /\
    rdm_descriptors_voxel_index rdms = [0; 2; 3]%Z.
Proof.
  apply (enumeration_feeds_builder
           Z 0%Z unit total_difference example_mask 1 1
           [0; 2; 3]%Z [[0]; [2]; [3]]%Z example_volume_data
           example_events tt).
  - intros cols. apply total_difference_width.
  - reflexivity.
  - reflexivity.
Defined.

(** X23: the chunked branch does not depend on where the chunk boundaries
    fall: splitting the center positions at any non-decreasing points gives
    the rows of the unchunked branch, and the branch of the code is the
    instance at the points of [np.linspace]. *)
Theorem chunk_boundaries_irrelevant :
  forall (V : Type) (zero : V) (Method : Type)
         (rdm_row : Method -> list (list V) -> list Z -> list V)
         (points : list nat)
         (data_2d : Data2d V) (centers : list Z) (neighbors : list (list Z))
         (events : list Z) (method : Method),
    (forall cols,
       length (rdm_row method cols events)
       = n_unique events * (n_unique events - 1) / 2) ->
    Sorted le (0 :: points) ->
    rdm_chunked_at zero rdm_row points data_2d centers neighbors events method
    = rdm_unchunked zero rdm_row data_2d centers neighbors events method /\
    rdm_chunked zero rdm_row data_2d centers neighbors events method
    = rdm_chunked_at zero rdm_row
                     (removelast (tl (linspace_int (length centers) 101)))
                     data_2d centers neighbors events method.
Proof.
  intros V zero Method rdm_row points data_2d centers neighbors events method
         Hw Hs.
  split; [|reflexivity].
  rewrite (rdm_unchunked_rows V zero Method rdm_row data_2d centers neighbors
                              events method).
  unfold rdm_chunked_at.
  rewrite (chunk_loop V zero Method rdm_row data_2d centers neighbors events
                      method Hw (np_split (seq 0 (length centers)) points)
                      0 (length centers)).
  - destruct (mapM _ (seq 0 (length centers))); reflexivity.
  - unfold np_split. rewrite np_split_from_concat by exact Hs. reflexivity.
  - lia.
  - rewrite repeat_length. reflexivity.
Qed.

Lemma chunk_boundaries_irrelevant_witness :
  rdm_chunked_at 0%Z total_difference [1] example_data example_centers
                 example_neighbors example_events tt
  = rdm_unchunked 0%Z total_difference example_data example_centers
                  example_neighbors example_events tt /\
  rdm_chunked 0%Z total_difference example_data example_centers
              example_neighbors example_events tt
  = rdm_chunked_at 0%Z total_difference
                   (removelast (tl (linspace_int (length example_centers) 101)))
                   example_data example_centers example_neighbors
                   example_events tt.
Proof.
  apply (chunk_boundaries_irrelevant
           Z 0%Z unit total_difference [1] example_data example_centers
           example_neighbors example_events tt).
  - intros cols. apply total_difference_width.
  - repeat constructor.
Defined.

(** ** binary64 rounding *)

Section RoundingFacts.

Local Open Scope Z_scope.

Lemma round_half_even_bounds :
  forall N D, 0 < D ->
    N / D <= Float64.round_half_even N D <= N / D + 1 /\
    (N mod D = 0 -> Float64.round_half_even N D = N / D).
Proof.
  intros N D HD. unfold Float64.round_half_even.
  pose proof (Z.mod_pos_bound N D HD) as Hr.
  split.
  - destruct (2 * (N mod D) ?= D); [destruct (Z.even (N / D))| |]; lia.
  - intros E. rewrite E. destruct (Z.compare_spec (2 * 0) D); lia.
Qed.

Lemma round_half_even_mono :
  forall N N' D, 0 < D -> N <= N' ->
    Float64.round_half_even N D <= Float64.round_half_even N' D.
Proof.
  intros N N' D HD HN.
  assert (Hq : N / D <= N' / D) by (apply Z.div_le_mono; lia).
  destruct (round_half_even_bounds N D HD) as [[_ Hu] _].
  destruct (round_half_even_bounds N' D HD) as [[Hl' _] _].
  destruct (Z.eq_dec (N / D) (N' / D)) as [E|E]; [|lia].
  unfold Float64.round_half_even. rewrite <- E.
  assert (Hr : N mod D <= N' mod D).
  { rewrite !Z.mod_eq by lia. rewrite <- E. lia. }
  destruct (Z.compare_spec (2 * (N mod D)) D),
           (Z.compare_spec (2 * (N' mod D)) D);
    destruct (Z.even (N / D)); lia.
Qed.

Lemma round_half_even_scale :
  forall N D c, 0 < D -> 0 < c ->
    Float64.round_half_even (N * c) (D * c) = Float64.round_half_even N D.
Proof.
  intros N D c HD Hc. unfold Float64.round_half_even.
  rewrite Z.div_mul_cancel_r by lia.
  rewrite Z.mul_mod_distr_r by lia.
  replace (2 * (N mod D * c)) with (2 * (N mod D) * c) by ring.
  rewrite <- Zmult_compare_compat_r by lia. reflexivity.
Qed.

(** Rounding the multiples of [D] between two powers of two stays between
    them. *)
Lemma round_half_even_binade :
  forall N u, 0 <= u -> 2 ^ (52 + u) <= N < 2 ^ (53 + u) ->
    2 ^ 52 <= Float64.round_half_even N (2 ^ u) <= 2 ^ 53.
Proof.
  intros N u Hu [Hlo Hhi].
  assert (HD : 0 < 2 ^ u) by (apply Z.pow_pos_nonneg; lia).
  rewrite !Z.pow_add_r in * by lia.
  split.
  - destruct (round_half_even_bounds (2 ^ 52 * 2 ^ u) (2 ^ u) HD) as [_ He].
    rewrite Z.mod_mul, Z.div_mul in He by lia. rewrite <- He by reflexivity.
    apply round_half_even_mono; lia.
  - destruct (round_half_even_bounds (2 ^ 53 * 2 ^ u) (2 ^ u) HD) as [_ He].
    rewrite Z.mod_mul, Z.div_mul in He by lia. rewrite <- He by reflexivity.
    apply round_half_even_mono; lia.
Qed.

End RoundingFacts.

Section ShiftFacts.

Local Open Scope Z_scope.

Lemma iter_pos_nat :
  forall (T : Type) (f : T -> T) (p : positive) (x : T),
    iter_pos f p x = Nat.iter (Pos.to_nat p) f x.
Proof.
  intros T f p. induction p as [p IH|p IH|]; intros x; cbn [iter_pos].
  - rewrite !IH, Pos2Nat.inj_xI.
    replace (S (2 * Pos.to_nat p))%nat
      with (Pos.to_nat p + (Pos.to_nat p + 1))%nat by lia.
    rewrite !Nat.iter_add. reflexivity.
  - rewrite !IH, Pos2Nat.inj_xO.
    replace (2 * Pos.to_nat p)%nat with (Pos.to_nat p + Pos.to_nat p)%nat
      by lia.
    rewrite Nat.iter_add. reflexivity.
  - reflexivity.
Qed.

Lemma shr_1_spec :
  forall m r s, 0 <= m ->
    shr_1 {| shr_m := m; shr_r := r; shr_s := s |}
    = {| shr_m := m / 2; shr_r := Z.odd m; shr_s := r || s |}.
Proof.
  intros m r s Hm. rewrite <- Z.div2_div.
  destruct m as [|[p|p|]|]; try lia; reflexivity.
Qed.

(** The mantissa after [n] shifts. *)
Lemma shr_iter_m :
  forall n rec, 0 <= shr_m rec ->
    shr_m (Nat.iter n shr_1 rec) = shr_m rec / 2 ^ Z.of_nat n.
Proof.
  induction n as [|n IH]; intros rec Hm.
  - simpl. rewrite Z.div_1_r. reflexivity.
  - rewrite Nat.iter_succ_r. destruct rec as [m r s]. cbn [shr_m] in Hm.
    rewrite shr_1_spec by exact Hm. rewrite IH; cbn [shr_m].
    + rewrite Nat2Z.inj_succ, Z.pow_succ_r by lia.
      rewrite Z.div_div by lia. reflexivity.
    + apply Z.div_pos; lia.
Qed.

(** The record after [n + 1] shifts of an exact mantissa: the round bit is
    the last bit shifted out, the sticky bit tells whether a bit before it
    was set. *)
Lemma shr_iter_exact :
  forall n M, 0 <= M ->
    Nat.iter (S n) shr_1 {| shr_m := M; shr_r := false; shr_s := false |}
    = {| shr_m := M / 2 ^ (Z.of_nat n + 1);
         shr_r := Z.odd (M / 2 ^ Z.of_nat n);
         shr_s := negb (M mod 2 ^ Z.of_nat n =? 0) |}.
Proof.
  induction n as [|n IH]; intros M HM.
  - cbn [Nat.iter]. rewrite shr_1_spec by exact HM.
    change (2 ^ (Z.of_nat 0 + 1)) with 2. change (2 ^ Z.of_nat 0) with 1.
    rewrite Z.div_1_r, Z.mod_1_r. reflexivity.
  - change (Nat.iter (S (S n)) shr_1 ?x) with (shr_1 (Nat.iter (S n) shr_1 x)).
    rewrite IH by exact HM.
    assert (Hp : 0 < 2 ^ Z.of_nat n) by (apply Z.pow_pos_nonneg; lia).
    rewrite shr_1_spec by (apply Z.div_pos; [lia|apply Z.pow_pos_nonneg; lia]).
    rewrite Nat2Z.inj_succ.
    replace (Z.succ (Z.of_nat n) + 1) with (Z.succ (Z.of_nat n + 1)) by lia.
    rewrite (Z.pow_succ_r 2 (Z.of_nat n + 1)) by lia.
    rewrite Z.div_div by lia.
    rewrite (Z.mul_comm (2 ^ (Z.of_nat n + 1)) 2).
    replace (Z.of_nat n + 1) with (Z.succ (Z.of_nat n)) by lia.
    f_equal.
    rewrite (Z.pow_succ_r 2 (Z.of_nat n)) by lia.
    rewrite (Z.mul_comm 2 (2 ^ Z.of_nat n)).
    rewrite Z.rem_mul_r by lia.
    pose proof (Z.mod_pos_bound M (2 ^ Z.of_nat n) Hp) as Ha.
    pose proof (Z.mod_pos_bound (M / 2 ^ Z.of_nat n) 2 ltac:(lia)) as Hb.
    rewrite Zodd_mod.
    destruct (Z.eqb_spec ((M / 2 ^ Z.of_nat n) mod 2) 1) as [E|E];
      destruct (Z.eqb_spec (M mod 2 ^ Z.of_nat n) 0) as [E0|E0];
      cbn [negb orb]; symmetry.
    + apply eq_true_not_negb. intros H. apply Z.eqb_eq in H. nia.
    + apply eq_true_not_negb. intros H. apply Z.eqb_eq in H. nia.
    + apply negb_false_iff, Z.eqb_eq. nia.
    + apply eq_true_not_negb. intros H. apply Z.eqb_eq in H. nia.
Qed.

(** Rounding to nearest on that record is [round_half_even]. *)
Lemma round_shifted :
  forall n M, 0 <= M ->
    let rec := Nat.iter (S n) shr_1
                 {| shr_m := M; shr_r := false; shr_s := false |} in
    round_nearest_even (shr_m rec) (loc_of_shr_record rec)
    = Float64.round_half_even M (2 ^ (Z.of_nat n + 1)).
Proof.
  intros n M HM rec. unfold rec. rewrite shr_iter_exact by exact HM.
  cbn [shr_m]. unfold Float64.round_half_even.
  assert (Hp : 0 < 2 ^ Z.of_nat n) by (apply Z.pow_pos_nonneg; lia).
  replace (Z.of_nat n + 1) with (Z.succ (Z.of_nat n)) by lia.
  rewrite (Z.pow_succ_r 2 (Z.of_nat n)) by lia.
  rewrite (Z.mul_comm 2 (2 ^ Z.of_nat n)).
  rewrite Z.rem_mul_r by lia.
  pose proof (Z.mod_pos_bound M (2 ^ Z.of_nat n) Hp) as Ha.
  pose proof (Z.mod_pos_bound (M / 2 ^ Z.of_nat n) 2 ltac:(lia)) as Hb.
  rewrite Zodd_mod.
  set (a := M mod 2 ^ Z.of_nat n) in *.
  set (b := (M / 2 ^ Z.of_nat n) mod 2) in *.
  set (P := 2 ^ Z.of_nat n) in *.
  destruct (Z.eqb_spec b 1) as [E|E];
    destruct (Z.eqb_spec a 0) as [E0|E0];
    cbn [negb loc_of_shr_record round_nearest_even].
  - assert (C : (2 * (a + P * b) ?= P * 2) = Eq) by (apply Z.compare_eq_iff; nia).
    rewrite C. reflexivity.
  - assert (C : (2 * (a + P * b) ?= P * 2) = Gt) by (apply Z.compare_gt_iff; nia).
    rewrite C. reflexivity.
  - assert (C : (2 * (a + P * b) ?= P * 2) = Lt) by (apply Z.compare_lt_iff; nia).
    rewrite C. reflexivity.
  - assert (C : (2 * (a + P * b) ?= P * 2) = Lt) by (apply Z.compare_lt_iff; nia).
    rewrite C. reflexivity.
Qed.

End ShiftFacts.

Section RoundAuxFacts.

Local Open Scope Z_scope.

Lemma Zdigits2_bounds :
  forall q, 0 < q -> 2 ^ (Zdigits2 q - 1) <= q < 2 ^ Zdigits2 q.
Proof.
  intros q Hq. destruct q as [|p|p]; try lia.
  cbn [Zdigits2]. apply digits2_pos_bounds.
Qed.

Lemma Zdigits2_unique :
  forall q k, 2 ^ (k - 1) <= q < 2 ^ k -> 0 < q -> Zdigits2 q = k.
Proof.
  intros q k H Hq. destruct q as [|p|p]; try lia.
  cbn [Zdigits2]. apply digits2_pos_unique. exact H.
Qed.

(** The last step of a rounding: a mantissa that has reached [2^53] is
    halved. *)
Lemma round_renormalise :
  forall q' e,
    2 ^ 52 <= q' <= 2 ^ 53 -> -1074 <= e <= 970 ->
    (let '(mrs'', e'') :=
       shr_fexp Float64.prec Float64.emax q' e loc_Exact in
     match shr_m mrs'' with
     | Z0 => S754_zero false
     | Zpos m =>
         if e'' <=? Float64.emax - Float64.prec
         then S754_finite false m e'' else S754_infinity false
     | Zneg _ => S754_nan
     end)
    = if q' =? 2 ^ 53
      then S754_finite false (Z.to_pos (2 ^ 52)) (e + 1)
      else S754_finite false (Z.to_pos q') e.
Proof.
  intros q' e Hq He. unfold shr_fexp.
  destruct (Z.eqb_spec q' (2 ^ 53)) as [E|E].
  - rewrite E. vm_compute Zdigits2. rewrite fexp_eq.
    replace (Z.max (54 + e - 53) (-1074) - e) with 1 by lia.
    cbn [shr iter_pos shr_record_of_loc].
    change (shr_m (shr_1 {| shr_m := 2 ^ 53; shr_r := false; shr_s := false |}))
      with (2 ^ 52).
    change (2 ^ 52) with (Zpos (Z.to_pos (2 ^ 52))) at 1.
    cbv beta iota.
    change (Float64.emax - Float64.prec) with 971.
    destruct (Z.leb_spec (e + 1) 971); [reflexivity|lia].
  - assert (Hq2 : 2 ^ 52 <= q' < 2 ^ 53) by lia.
    rewrite (Zdigits2_53 q' Hq2), fexp_eq.
    replace (Z.max (53 + e - 53) (-1074) - e) with 0 by lia.
    cbn [shr shr_m shr_record_of_loc].
    destruct q' as [|p|p]; try lia.
    change (Float64.emax - Float64.prec) with 971.
    destruct (Z.leb_spec e 971); [reflexivity|lia].
Qed.

(** Rounding a mantissa of [53 + n] bits: [n] shifts, the rounding of the
    shifted mantissa by the bits that were shifted out, and the last
    step. *)
Lemma binary_round_aux_shifted :
  forall q e l n,
    0 < q -> Zdigits2 q = 53 + Z.of_nat n ->
    -1074 <= e + Z.of_nat n <= 970 ->
    let rec := Nat.iter n shr_1 (shr_record_of_loc q l) in
    let q' := round_nearest_even (shr_m rec) (loc_of_shr_record rec) in
    binary_round_aux Float64.prec Float64.emax false q e l
    = (if q' =? 2 ^ 53
       then S754_finite false (Z.to_pos (2 ^ 52)) (e + Z.of_nat n + 1)
       else S754_finite false (Z.to_pos q') (e + Z.of_nat n)) /\
    2 ^ 52 <= q' <= 2 ^ 53.
Proof.
  intros q e l n Hq Hd He rec q'.
  assert (Hm : shr_m rec = q / 2 ^ Z.of_nat n).
  { unfold rec. rewrite shr_iter_m; destruct (shr_record_loc q l) as [-> _];
      [reflexivity|lia]. }
  assert (Hb : 2 ^ 52 <= shr_m rec < 2 ^ 53).
  { rewrite Hm. destruct (Zdigits2_bounds q Hq) as [Dlo Dhi].
    rewrite Hd in Dlo, Dhi.
    assert (Hp : 0 < 2 ^ Z.of_nat n) by (apply Z.pow_pos_nonneg; lia).
    replace (53 + Z.of_nat n - 1) with (52 + Z.of_nat n) in Dlo by lia.
    rewrite Z.pow_add_r in Dlo, Dhi by lia.
    split.
    - apply Z.div_le_lower_bound; lia.
    - apply Z.div_lt_upper_bound; lia. }
  assert (Hq' : 2 ^ 52 <= q' <= 2 ^ 53).
  { unfold q', round_nearest_even.
    destruct (loc_of_shr_record rec) as [|[]]; try lia.
    destruct (Z.even (shr_m rec)); lia. }
  split; [|exact Hq'].
  unfold binary_round_aux, shr_fexp at 1. rewrite Hd, fexp_eq.
  replace (Z.max (53 + Z.of_nat n + e - 53) (-1074) - e) with (Z.of_nat n)
    by lia.
  assert (Hshr : shr (shr_record_of_loc q l) e (Z.of_nat n)
                 = (rec, e + Z.of_nat n)).
  { unfold shr, rec. destruct n as [|n']; [cbn [Z.of_nat Nat.iter]; f_equal; lia|].
    cbn [Z.of_nat]. rewrite iter_pos_nat, SuccNat2Pos.id_succ. reflexivity. }
  rewrite Hshr. fold q'.
  apply round_renormalise; [exact Hq'|lia].
Qed.

Lemma scaled_floor_shift :
  forall m e u, 0 <= u ->
    Float64.scaled_floor m (e + u) = Float64.scaled_floor (m * 2 ^ u) e.
Proof.
  intros m e u Hu. unfold Float64.scaled_floor.
  destruct (Z.leb_spec 0 e) as [He|He].
  - destruct (Z.leb_spec 0 (e + u)); [|lia].
    rewrite Z.pow_add_r by lia. ring.
  - destruct (Z.leb_spec 0 (e + u)) as [Heu|Heu].
    + assert (P : 2 ^ u = 2 ^ (e + u) * 2 ^ (- e)).
      { rewrite <- Z.pow_add_r by lia. f_equal. lia. }
      rewrite P, Z.mul_assoc.
      rewrite Z.div_mul; [reflexivity|].
      apply Z.pow_nonzero; lia.
    + assert (P : 2 ^ (- e) = 2 ^ (- (e + u)) * 2 ^ u).
      { rewrite <- Z.pow_add_r by lia. f_equal. lia. }
      rewrite P.
      rewrite Z.div_mul_cancel_r; [reflexivity| |];
        apply Z.pow_nonzero; lia.
Qed.

Lemma scaled_floor_mono :
  forall m m' e, m <= m' ->
    Float64.scaled_floor m e <= Float64.scaled_floor m' e.
Proof.
  intros m m' e H. unfold Float64.scaled_floor.
  destruct (Z.leb_spec 0 e).
  - apply Z.mul_le_mono_nonneg_r; [apply Z.pow_nonneg; lia|exact H].
  - apply Z.div_le_mono; [apply Z.pow_pos_nonneg; lia|exact H].
Qed.

(** The integer part of a rounded number. *)
Lemma floor_int_rounded :
  forall q' e, 2 ^ 52 <= q' <= 2 ^ 53 ->
    Float64.floor_int
      (if q' =? 2 ^ 53
       then S754_finite false (Z.to_pos (2 ^ 52)) (e + 1)
       else S754_finite false (Z.to_pos q') e)
    = Float64.scaled_floor q' e.
Proof.
  intros q' e Hq. destruct (Z.eqb_spec q' (2 ^ 53)) as [E|E].
  - cbn [Float64.floor_int cond_Zopp]. rewrite scaled_floor_shift by lia.
    rewrite E. reflexivity.
  - cbn [Float64.floor_int cond_Zopp]. rewrite Z2Pos.id by lia. reflexivity.
Qed.

End RoundAuxFacts.

Section ProductFacts.

Local Open Scope Z_scope.

Lemma Zdigits2_scale :
  forall X t, 0 < X -> 0 <= t -> Zdigits2 (X * 2 ^ t) = Zdigits2 X + t.
Proof.
  intros X t HX Ht.
  assert (Hp : 0 < 2 ^ t) by (apply Z.pow_pos_nonneg; lia).
  destruct (Zdigits2_bounds X HX) as [Dlo Dhi].
  assert (Hd : 0 < Zdigits2 X).
  { destruct X as [|p|p]; try lia. cbn [Zdigits2]. lia. }
  apply Zdigits2_unique; [|nia].
  replace (Zdigits2 X + t - 1) with (Zdigits2 X - 1 + t) by lia.
  rewrite !Z.pow_add_r by lia. nia.
Qed.

Lemma Zdigits2_mono :
  forall X X', 0 < X -> X <= X' -> Zdigits2 X <= Zdigits2 X'.
Proof.
  intros X X' HX HXX.
  destruct (Zdigits2_bounds X HX) as [Dlo _].
  destruct (Zdigits2_bounds X' ltac:(lia)) as [_ Dhi'].
  destruct (Z.le_gt_cases (Zdigits2 X) (Zdigits2 X')) as [H|H]; [exact H|].
  assert (0 <= Zdigits2 X').
  { destruct X' as [|p|p]; cbn [Zdigits2]; lia. }
  assert (2 ^ Zdigits2 X' <= 2 ^ (Zdigits2 X - 1))
    by (apply Z.pow_le_mono_r; lia).
  lia.
Qed.

Lemma Zdigits2_ge_53 :
  forall X, 2 ^ 52 <= X -> 53 <= Zdigits2 X.
Proof.
  intros X HX. change 53 with (Zdigits2 (2 ^ 52)).
  apply Zdigits2_mono; lia.
Qed.

(** Rounding to 53 significant bits is monotone. *)
Lemma round53_mono :
  forall X X', 2 ^ 52 <= X -> X <= X' ->
    Float64.round53 X <= Float64.round53 X'.
Proof.
  intros X X' HX HXX. unfold Float64.round53.
  pose proof (Zdigits2_ge_53 X HX) as Hd.
  pose proof (Zdigits2_mono X X' ltac:(lia) HXX) as Hdd.
  destruct (Zdigits2_bounds X ltac:(lia)) as [Dlo Dhi].
  destruct (Zdigits2_bounds X' ltac:(lia)) as [Dlo' Dhi'].
  set (d := Zdigits2 X) in *. set (d' := Zdigits2 X') in *.
  assert (Hp : 0 < 2 ^ (d - 53)) by (apply Z.pow_pos_nonneg; lia).
  assert (Hp' : 0 < 2 ^ (d' - 53)) by (apply Z.pow_pos_nonneg; lia).
  destruct (Z.eq_dec d d') as [E|E].
  - rewrite <- E. apply Z.mul_le_mono_nonneg_r; [lia|].
    apply round_half_even_mono; lia.
  - assert (B : 2 ^ 52 <= Float64.round_half_even X (2 ^ (d - 53)) <= 2 ^ 53).
    { apply round_half_even_binade; [lia|].
      replace (52 + (d - 53)) with (d - 1) by lia.
      replace (53 + (d - 53)) with d by lia. lia. }
    assert (B' : 2 ^ 52 <= Float64.round_half_even X' (2 ^ (d' - 53)) <= 2 ^ 53).
    { apply round_half_even_binade; [lia|].
      replace (52 + (d' - 53)) with (d' - 1) by lia.
      replace (53 + (d' - 53)) with d' by lia. lia. }
    assert (P : 2 ^ 53 * 2 ^ (d - 53) <= 2 ^ 52 * 2 ^ (d' - 53)).
    { rewrite <- !Z.pow_add_r by lia. apply Z.pow_le_mono_r; lia. }
    nia.
Qed.

(** The integer part of the product of two normalised numbers. *)
Lemma mul_floor :
  forall mk ek ms es,
    Zpos (digits2_pos mk) = 53 -> Zpos (digits2_pos ms) = 53 ->
    -1126 <= ek + es <= 917 ->
    let M := Zpos mk * Zpos ms in
    let sh := Zdigits2 M - 53 in
    Float64.floor_int
      (Float64.mul (S754_finite false mk ek) (S754_finite false ms es))
    = Float64.scaled_floor (Float64.round_half_even M (2 ^ sh)) (ek + es + sh)
    /\ 52 <= sh <= 53.
Proof.
  intros mk ek ms es Hk Hs He M sh.
  destruct (digits2_pos_bounds mk) as [Klo Khi]. rewrite Hk in Klo, Khi.
  destruct (digits2_pos_bounds ms) as [Slo Shi]. rewrite Hs in Slo, Shi.
  assert (HM : 2 ^ 104 <= M < 2 ^ 106) by (unfold M; nia).
  assert (HM0 : 0 < M) by lia.
  destruct (Zdigits2_bounds M HM0) as [Dlo Dhi].
  assert (Hsh : 52 <= sh <= 53).
  { unfold sh. split.
    - destruct (Z.le_gt_cases 105 (Zdigits2 M)) as [H|H]; [lia|].
      assert (2 ^ Zdigits2 M <= 2 ^ 104).
      { apply Z.pow_le_mono_r; [lia|lia]. }
      lia.
    - destruct (Z.le_gt_cases (Zdigits2 M) 106) as [H|H]; [lia|].
      assert (2 ^ 106 <= 2 ^ (Zdigits2 M - 1)) by (apply Z.pow_le_mono_r; lia).
      lia. }
  split; [|exact Hsh].
  unfold Float64.mul, SFmul. cbn [xorb]. rewrite Pos2Z.inj_mul. fold M.
  destruct (binary_round_aux_shifted M (ek + es) loc_Exact (Z.to_nat sh))
    as [Hr Hq']; [exact HM0|rewrite Z2Nat.id by lia; unfold sh; lia
                 |rewrite Z2Nat.id by lia; lia|].
  rewrite Hr. rewrite floor_int_rounded by exact Hq'.
  rewrite Z2Nat.id by lia. f_equal.
  destruct (Z.to_nat sh) as [|n] eqn:En; [lia|].
  cbn [shr_record_of_loc].
  rewrite (round_shifted n M) by lia.
  f_equal. f_equal. lia.
Qed.

(** The integer part of [k * s] for a positive integer [k] and a normalised
    [s]: the product of [k] and the mantissa, rounded to 53 bits. *)
Lemma mul_of_int_floor :
  forall k ms es,
    0 < k < 2 ^ 53 -> Zpos (digits2_pos ms) = 53 -> -1074 <= es <= 864 ->
    Float64.floor_int
      (Float64.mul (Float64.of_int k) (S754_finite false ms es))
    = Float64.scaled_floor (Float64.round53 (k * Zpos ms)) es.
Proof.
  intros k ms es Hk Hs He.
  destruct (of_int_pos k Hk) as [p [Hp [Hd ->]]].
  destruct (Zdigits2_bounds k ltac:(lia)) as [Dlo Dhi].
  assert (Hdk : 1 <= Zdigits2 k <= 53).
  { split.
    - destruct k as [|q|q]; try lia. cbn [Zdigits2]. lia.
    - destruct (Z.le_gt_cases (Zdigits2 k) 53) as [H|H]; [exact H|].
      assert (2 ^ 53 <= 2 ^ (Zdigits2 k - 1)) by (apply Z.pow_le_mono_r; lia).
      lia. }
  destruct (mul_floor p (Zdigits2 k - 53) ms es Hd Hs ltac:(lia)) as [-> Hsh].
  destruct (digits2_pos_bounds ms) as [Slo Shi]. rewrite Hs in Slo, Shi.
  set (t := 53 - Zdigits2 k) in *.
  set (X := k * Zpos ms).
  assert (HX : 2 ^ 52 <= X) by (unfold X; nia).
  assert (EM : Zpos p * Zpos ms = X * 2 ^ t) by (rewrite Hp; unfold X; ring).
  rewrite EM in *.
  rewrite Zdigits2_scale in * by lia.
  pose proof (Zdigits2_ge_53 X HX) as Hu.
  unfold Float64.round53. set (u := Zdigits2 X - 53) in *.
  replace (Zdigits2 X + t - 53) with (u + t) by (unfold u; lia).
  rewrite Z.pow_add_r by lia.
  rewrite round_half_even_scale by (apply Z.pow_pos_nonneg; lia).
  replace (Zdigits2 k - 53 + es + (u + t)) with (es + u) by (unfold t; lia).
  apply scaled_floor_shift. lia.
Qed.

(** The quotient of two normalised numbers is a normalised number. *)
Lemma div_normal :
  forall m1 e1 m2 e2,
    Zpos (digits2_pos m1) = 53 -> Zpos (digits2_pos m2) = 53 ->
    -1021 <= e1 - e2 <= 1021 ->
    exists ms es,
      Float64.div (S754_finite false m1 e1) (S754_finite false m2 e2)
      = S754_finite false ms es /\
      Zpos (digits2_pos ms) = 53 /\
      e1 - e2 - 53 <= es <= e1 - e2 - 51.
Proof.
  intros m1 e1 m2 e2 H1 H2 He.
  destruct (digits2_pos_bounds m1) as [Alo Ahi]. rewrite H1 in Alo, Ahi.
  destruct (digits2_pos_bounds m2) as [Blo Bhi]. rewrite H2 in Blo, Bhi.
  unfold Float64.div, SFdiv, SFdiv_core_binary. cbn [xorb Zdigits2].
  rewrite H1, H2, fexp_eq.
  replace (Z.min (Z.max (53 + e1 - (53 + e2) - 53) (-1074)) (e1 - e2))
    with (e1 - e2 - 53) by lia.
  replace (e1 - e2 - (e1 - e2 - 53)) with 53 by lia.
  cbv beta iota zeta.
  rewrite Z.shiftl_mul_pow2 by lia.
  set (m' := Zpos m1 * 2 ^ 53).
  pose proof (Z_div_mod m' (Zpos m2) ltac:(lia)) as Hdm.
  destruct (Z.div_eucl m' (Zpos m2)) as [q r]. destruct Hdm as [Hqr Hr].
  assert (Hq : 2 ^ 52 <= q < 2 ^ 54) by (unfold m' in Hqr; nia).
  assert (Hq0 : 0 < q) by lia.
  destruct (Zdigits2_bounds q Hq0) as [Dlo Dhi].
  assert (Hd : 53 <= Zdigits2 q <= 54).
  { split.
    - apply Zdigits2_ge_53. lia.
    - destruct (Z.le_gt_cases (Zdigits2 q) 54) as [H|H]; [exact H|].
      assert (2 ^ 54 <= 2 ^ (Zdigits2 q - 1)) by (apply Z.pow_le_mono_r; lia).
      lia. }
  destruct (binary_round_aux_shifted q (e1 - e2 - 53)
              (new_location (Zpos m2) r) (Z.to_nat (Zdigits2 q - 53)))
    as [Hres Hq']; [exact Hq0|rewrite Z2Nat.id by lia; lia
                   |rewrite Z2Nat.id by lia; lia|].
  rewrite Hres. rewrite Z2Nat.id by lia.
  set (q' := round_nearest_even _ _) in *.
  destruct (Z.eqb_spec q' (2 ^ 53)) as [E|E].
  - eexists. eexists. split; [reflexivity|]. split; [reflexivity|lia].
  - eexists. eexists. split; [reflexivity|]. split; [|lia].
    apply digits2_pos_unique. rewrite Z2Pos.id by lia. lia.
Qed.

End ProductFacts.

(** ** The split points of [np.linspace] in binary64 *)

Lemma inner_points :
  forall (T U : Type) (f : nat -> T) (g : T -> U) (d : T) (k : nat),
    removelast (tl (map g (removelast (map f (seq 0 (S (S k)))) ++ [d])))
    = map (fun i => g (f i)) (seq 1 k).
Proof.
  intros T U f g d k.
  rewrite (seq_S (S k) 0), (map_app f). cbn [map].
  rewrite removelast_last, (map_app g). cbn [seq map tl app].
  rewrite removelast_last, map_map. reflexivity.
Qed.

Lemma Sorted_map_seq_from :
  forall (f : nat -> nat) len a,
    (forall i, a <= i -> f i <= f (S i)) -> Sorted le (map f (seq a len)).
Proof.
  intros f len. induction len as [|len IH]; intros a Hf; simpl.
  - constructor.
  - constructor; [apply IH; intros i Hi; apply Hf; lia|].
    destruct len; simpl; constructor. apply Hf. lia.
Qed.

Section LinspaceFacts.

Local Open Scope Z_scope.

Lemma scaled_floor_nonneg :
  forall m e, 0 <= m -> 0 <= Float64.scaled_floor m e.
Proof.
  intros m e Hm.
  assert (E : Float64.scaled_floor 0 e = 0).
  { unfold Float64.scaled_floor.
    destruct (Z.leb_spec 0 e); [apply Z.mul_0_l|].
    apply Z.div_0_l. apply Z.pow_nonzero; lia. }
  rewrite <- E. apply scaled_floor_mono. exact Hm.
Qed.

Lemma round53_nonneg :
  forall X, 2 ^ 52 <= X -> 0 <= Float64.round53 X.
Proof.
  intros X HX. unfold Float64.round53.
  pose proof (Zdigits2_ge_53 X HX) as Hd.
  destruct (Zdigits2_bounds X ltac:(lia)) as [Dlo Dhi].
  assert (B : 2 ^ 52 <= Float64.round_half_even X (2 ^ (Zdigits2 X - 53))
              <= 2 ^ 53).
  { apply round_half_even_binade; [lia|].
    replace (52 + (Zdigits2 X - 53)) with (Zdigits2 X - 1) by lia.
    replace (53 + (Zdigits2 X - 53)) with (Zdigits2 X) by lia. lia. }
  apply Z.mul_nonneg_nonneg; [lia|apply Z.pow_nonneg; lia].
Qed.

(** Multiplying a normalised number by [1.0] gives the number back. *)
Lemma mul_one :
  forall p e,
    Zpos (digits2_pos p) = 53 -> -1074 <= e <= 970 ->
    Float64.mul (S754_finite false p e) (Float64.of_int 1)
    = S754_finite false p e.
Proof.
  intros p e Hp He.
  destruct (digits2_pos_bounds p) as [Plo Phi]. rewrite Hp in Plo, Phi.
  change (Float64.of_int 1) with (S754_finite false 4503599627370496 (-52)).
  unfold Float64.mul, SFmul. cbn [xorb]. rewrite Pos2Z.inj_mul.
  change (Zpos 4503599627370496) with (2 ^ 52).
  set (M := Zpos p * 2 ^ 52).
  assert (HM : Zdigits2 M = 53 + Z.of_nat 52).
  { unfold M. rewrite Zdigits2_scale by lia. cbn [Zdigits2]. rewrite Hp.
    reflexivity. }
  destruct (binary_round_aux_shifted M (e + -52) loc_Exact 52)
    as [Hr Hq']; [unfold M; lia|exact HM|lia|].
  rewrite Hr. clear Hr. cbn [shr_record_of_loc] in *.
  rewrite (round_shifted 51 M) in * by (unfold M; lia).
  change (Z.of_nat 51 + 1) with 52 in *.
  destruct (round_half_even_bounds M (2 ^ 52) ltac:(lia)) as [_ Hex].
  rewrite Hex in * by (unfold M; apply Z.mod_mul; lia).
  unfold M. rewrite Z.div_mul by lia.
  destruct (Z.eqb_spec (Zpos p) (2 ^ 53)) as [E|E]; [lia|].
  cbn [Z.to_pos]. f_equal. lia.
Qed.

Lemma floor_int_add_zero :
  forall v, Float64.floor_int (Float64.add v (S754_zero false))
            = Float64.floor_int v.
Proof.
  intros [[]|[]| |s m e]; reflexivity.
Qed.

(** The step of [np.linspace(0, n, 101)] is a normalised number, and the
    inner points are the integer parts of its multiples, each rounded to 53
    bits. *)
Lemma linspace_float64_inner :
  forall n, 0 < n < 2 ^ 53 ->
    exists ms es,
      Zpos (digits2_pos ms) = 53 /\ -59 <= es <= -5 /\
      removelast (tl (linspace_int_float64 n 101))
      = map (fun k => Float64.scaled_floor
                        (Float64.round53 (Z.of_nat k * Zpos ms)) es)
            (seq 1 99).
Proof.
  intros n Hn.
  destruct (of_int_pos n Hn) as [p [Hp [Hd Hof]]].
  destruct (Zdigits2_bounds n ltac:(lia)) as [Dlo Dhi].
  assert (Hdn : 1 <= Zdigits2 n <= 53).
  { split.
    - destruct n as [|q|q]; try lia. cbn [Zdigits2]. lia.
    - destruct (Z.le_gt_cases (Zdigits2 n) 53) as [H|H]; [exact H|].
      assert (2 ^ 53 <= 2 ^ (Zdigits2 n - 1)) by (apply Z.pow_le_mono_r; lia).
      lia. }
  assert (H100 : Float64.of_int (Z.of_nat (101 - 1))
                 = S754_finite false 7036874417766400 (-46))
    by (vm_compute; reflexivity).
  assert (H0 : Float64.mul (Float64.of_int 0) (Float64.of_int 1)
               = S754_zero false) by (vm_compute; reflexivity).
  destruct (div_normal p (Zdigits2 n - 53) 7036874417766400 (-46) Hd
                       eq_refl ltac:(lia)) as [ms [es [Hdiv [Hms Hes]]]].
  exists ms, es. split; [exact Hms|]. split; [lia|].
  unfold linspace_int_float64. rewrite H100, H0, Hof.
  rewrite mul_one by (try exact Hd; lia).
  change (Float64.sub (S754_finite false p (Zdigits2 n - 53))
                      (S754_zero false))
    with (S754_finite false p (Zdigits2 n - 53)).
  rewrite Hdiv. cbn [Float64.is_zero]. rewrite !map_map.
  change 101%nat with (S (S 99)).
  rewrite inner_points.
  apply map_ext_in. intros k Hk. apply in_seq in Hk.
  rewrite floor_int_add_zero.
  apply mul_of_int_floor; [|exact Hms|lia].
  assert (Z.of_nat k < 100) by lia.
  change (2 ^ 53) with 9007199254740992. lia.
Qed.

(** The inner points are not negative and do not decrease. *)
Lemma linspace_float64_sorted :
  forall n, 0 < n < 2 ^ 53 ->
    let points := removelast (tl (linspace_int_float64 n 101)) in
    length points = 99%nat /\
    Forall (fun p => 0 <= p) points /\
    Sorted le (0%nat :: map Z.to_nat points).
Proof.
  intros n Hn points.
  destruct (linspace_float64_inner n Hn) as [ms [es [Hms [Hes Hp]]]].
  unfold points. rewrite Hp. clear points Hp.
  destruct (digits2_pos_bounds ms) as [Slo Shi]. rewrite Hms in Slo, Shi.
  assert (Hnn : forall k : nat,
             (1 <= k)%nat ->
             0 <= Float64.scaled_floor
                    (Float64.round53 (Z.of_nat k * Zpos ms)) es).
  { intros k Hk. apply scaled_floor_nonneg, round53_nonneg. nia. }
  split; [rewrite length_map, length_seq; reflexivity|]. split.
  - apply Forall_forall. intros x Hx. apply in_map_iff in Hx.
    destruct Hx as [k [<- Hk]]. apply in_seq in Hk. apply Hnn. lia.
  - rewrite map_map. constructor.
    + apply Sorted_map_seq_from. intros i Hi.
      apply Z2Nat.inj_le; [apply Hnn; lia|apply Hnn; lia|].
      apply scaled_floor_mono, round53_mono; nia.
    + cbn [seq map]. constructor. lia.
Qed.

End LinspaceFacts.

(** Where the two evaluations of [np.linspace] part: at 1004 centers the
    binary64 points 25, 50 and 75 are one below the exact quotients. *)
Example linspace_float64_1004 :
  map (fun k => nth k (linspace_int_float64 1004 101) 0%Z) [25; 50; 75; 100]
  = [250; 501; 752; 1004]%Z /\
  map (fun k => nth k (linspace_int 1004 101) 0) [25; 50; 75; 100]
  = [251; 502; 753; 1004].
Proof. split; vm_compute; reflexivity. Qed.

(** At 1001 centers they are the same points. *)
Example linspace_float64_1001 :
  linspace_int_float64 1001 101 = map Z.of_nat (linspace_int 1001 101).
Proof. vm_compute. reflexivity. Qed.

(** X24: at the split points that numpy computes in binary64 the chunked
    branch returns the rows of the unchunked branch: for fewer than [2^53]
    centers the 99 inner points of [np.linspace(0, n_centers, 101,
    dtype=int)] are not negative and do not decrease, so the chunks are
    consecutive runs of the center positions. *)
Theorem float64_points_preserve_rdms :
  forall (V : Type) (zero : V) (Method : Type)
         (rdm_row : Method -> list (list V) -> list Z -> list V)
         (data_2d : Data2d V) (centers : list Z) (neighbors : list (list Z))
         (events : list Z) (method : Method),
    (0 < Z.of_nat (length centers) < 2 ^ 53)%Z ->
    (forall cols,
       length (rdm_row method cols events)
       = n_unique events * (n_unique events - 1) / 2) ->
    let points :=
      removelast (tl (linspace_int_float64 (Z.of_nat (length centers)) 101)) in
    length points = 99 /\
    Forall (fun p => 0 <= p)%Z points /\
    Sorted le (0 :: map Z.to_nat points) /\
    rdm_chunked_at zero rdm_row (map Z.to_nat points) data_2d centers
                   neighbors events method
    = rdm_unchunked zero rdm_row data_2d centers neighbors events method.
Proof.
  intros V zero Method rdm_row data_2d centers neighbors events method
         Hn Hw points.
  destruct (linspace_float64_sorted (Z.of_nat (length centers)) Hn)
    as [Hlen [Hpos Hs]].
  fold points in Hlen, Hpos, Hs.
  split; [exact Hlen|]. split; [exact Hpos|]. split; [exact Hs|].
  rewrite (rdm_unchunked_rows V zero Method rdm_row data_2d centers neighbors
                              events method).
  unfold rdm_chunked_at.
  rewrite (chunk_loop V zero Method rdm_row data_2d centers neighbors events
                      method Hw
                      (np_split (seq 0 (length centers)) (map Z.to_nat points))
                      0 (length centers)).
  - destruct (mapM _ (seq 0 (length centers))); reflexivity.
  - unfold np_split. rewrite np_split_from_concat by exact Hs. reflexivity.
  - lia.
  - rewrite repeat_length. reflexivity.
Qed.

Lemma float64_points_preserve_rdms_witness :
  length (removelast
            (tl (linspace_int_float64 (Z.of_nat (length example_centers))
                                      101))) = 99 /\
  Forall (fun p => 0 <= p)%Z
         (removelast
            (tl (linspace_int_float64 (Z.of_nat (length example_centers))
                                      101))) /\
  Sorted le
         (0 :: map Z.to_nat
                 (removelast
                    (tl (linspace_int_float64
                           (Z.of_nat (length example_centers)) 101)))) /\
  rdm_chunked_at 0%Z total_difference
                 (map Z.to_nat
                    (removelast
                       (tl (linspace_int_float64
                              (Z.of_nat (length example_centers)) 101))))
                 example_data example_centers example_neighbors
                 example_events tt
  = rdm_unchunked 0%Z total_difference example_data example_centers
                  example_neighbors example_events tt.
Proof.
  apply (float64_points_preserve_rdms
           Z 0%Z unit total_difference example_data example_centers
           example_neighbors example_events tt).
  - simpl. lia.
  - intros cols. apply total_difference_width.
Defined.
